(** * ydn-db: request executor, iterable query and in-memory adapter

    A shallow embedding of

    - [ydn.db.req.IterableQuery]   (js/ydn/db/req/iterable_query.js),
    - [ydn.db.adapter.SimpleStorage] (js/ydn/db/adapter/simple_storage.js),
    - [ydn.db.req.WebSql]          (the Web SQL request executor),

    together with the properties of the storage layer that are checked
    against them.  Definitions come first, module by module; the theorems
    follow in the same order. *)

From Stdlib Require Import ZArith String Ascii Bool List Lia.
From stdpp Require Import base option list gmap strings fin_sets.

Local Open Scope string_scope.
Local Open Scope list_scope.
Local Open Scope Z_scope.

(* ===================================================================== *)
(** * JavaScript values *)
(* ===================================================================== *)

Module Js.

(** The primitive values that occur in stored records, row cells and where
    bounds.  Numbers are the integers: floating point is not modelled, and
    what the host does with numerals ([parseInt], [parseFloat], the
    conversion of a string to a number) is a parameter wherever the code
    relies on it. *)
Inductive Prim : Type :=
| PUndefined
| PNull
| PNaN
| PNum (n : Z)
| PStr (s : string).

#[global] Instance Prim_eq_dec : EqDecision Prim.
Proof. solve_decision. Defined.

(** A record: a JavaScript object with string keys and primitive fields. *)
Abbreviation Obj := (gmap string Prim).

(** [obj[k]]: reading an absent property gives [undefined]. *)
Definition get (o : Obj) (k : string) : Prim := default PUndefined (o !! k).

(** [obj[k] = v]. *)
Definition set (o : Obj) (k : string) (v : Prim) : Obj := <[k := v]> o.

(** [goog.isDef(x)], that is [x !== undefined]. *)
Definition isDef (x : Prim) : bool :=
  match x with PUndefined => false | _ => true end.

(** ** Relational comparison *)

(** What the comparisons take from the host: how the number a string
    converts to ([ToNumber] of a string: a decimal numeral with or
    without fraction and exponent, a hexadecimal one, [Infinity], ...)
    stands to an integer; [None] when the string converts to [NaN]. *)
Class Host : Type := {
  compare_numeral : string -> Z -> option comparison
}.

(** An operand of a comparison: a string, or what [ToNumber] makes of a
    value that is not a string, [None] standing for [NaN]. *)
Inductive Operand : Type :=
| Text (s : string)
| Number (n : option Z).

Definition operand (x : Prim) : Operand :=
  match x with
  | PUndefined => Number None
  | PNull => Number (Some 0)
  | PNaN => Number None
  | PNum n => Number (Some n)
  | PStr s => Text s
  end.

Section Comparison.
Context {H : Host}.

(** The abstract relational comparison: two strings are compared as
    strings, everything else as numbers, a string being converted by the
    host; [None] is the undefined outcome, that of a [NaN] operand, which
    makes each of [<], [<=], [>], [>=] false. *)
Definition compare (a b : Prim) : option comparison :=
  match operand a, operand b with
  | Text s, Text t => Some (String.compare s t)
  | Text s, Number (Some n) => compare_numeral s n
  | Number (Some n), Text t => CompOpp <$> compare_numeral t n
  | Number (Some x), Number (Some y) => Some (Z.compare x y)
  | _, _ => None
  end.

Definition lt (a b : Prim) : bool :=
  match compare a b with Some Lt => true | _ => false end.
Definition le (a b : Prim) : bool :=
  match compare a b with Some Lt | Some Eq => true | _ => false end.
Definition gt (a b : Prim) : bool :=
  match compare a b with Some Gt => true | _ => false end.
Definition ge (a b : Prim) : bool :=
  match compare a b with Some Gt | Some Eq => true | _ => false end.

End Comparison.

End Js.

(* ===================================================================== *)
(** * The query object: [ydn.db.req.IterableQuery] *)
(* ===================================================================== *)

Module IterableQuery.
Import Js.

(** What the executor hands around once a row is decoded: a primitive, a
    record, or an array.  An array slot that was never assigned (a hole)
    is [None]. *)
#[local] Unset Elimination Schemes.
Inductive Val : Type :=
| VPrim (p : Prim)
| VObj (o : Obj)
| VArr (slots : list (option Val)).
#[local] Set Elimination Schemes.

Definition undefined : Val := VPrim PUndefined.

(** [ydn.db.KeyRange]: either bound may be absent ([undefined]). *)
Record KeyRange : Type := {
  kr_lower : Prim;
  kr_upper : Prim;
  kr_lowerOpen : bool;
  kr_upperOpen : bool
}.

(** [ydn.db.Where]: a range condition on one field. *)
Record Where : Type := {
  field : string;
  lower : Prim;
  upper : Prim;
  lowerOpen : bool;
  upperOpen : bool
}.

Inductive Direction : Type := Next | Prev.

(** The query: the iterator part (store, index, key range, direction) and
    the function-valued stages, each [null] ([None]) unless given. *)
Record Query : Type := {
  store_name : string;
  index : option string;
  keyRange : option KeyRange;
  direction : option Direction;
  initial : option (unit -> Val);
  map : option (Obj -> Val);
  reduce : option (Val -> Val -> Z -> Val);
  finalize : option (Val -> Val);
  filter : option (Obj -> bool);
  continued : option (Obj -> bool)
}.

(** The constructor: the four stages are reset to [null]. *)
Definition new (store : string) (index : option string) (kr : option KeyRange)
    (filter continued : option (Obj -> bool)) : Query :=
  {| store_name := store; index := index; keyRange := kr; direction := None;
     initial := None; map := None; reduce := None; finalize := None;
     filter := filter; continued := continued |}.

Definition set_filter (f : option (Obj -> bool)) (q : Query) : Query :=
  {| store_name := store_name q; index := index q; keyRange := keyRange q;
     direction := direction q; initial := initial q; map := map q;
     reduce := reduce q; finalize := finalize q;
     filter := f; continued := continued q |}.

Definition set_initial (f : option (unit -> Val)) (q : Query) : Query :=
  {| store_name := store_name q; index := index q; keyRange := keyRange q;
     direction := direction q; initial := f; map := map q;
     reduce := reduce q; finalize := finalize q;
     filter := filter q; continued := continued q |}.

Section Conditions.
Context {H : Host}.

(** The closure that [processWhereAsFilter] installs:
<<
    var value = obj[where.field];
    var ok1 = true;
    if (goog.isDef(where.lower)) {
      ok1 = where.lowerOpen ? value < where.lower : value <= where.lower;
    }
    var ok2 = true;
    if (goog.isDef(where.upper)) {
      ok2 = where.upperOpen ? value > where.upper : value >= where.upper;
    }
    return prev_filter(obj) && ok1 && ok2;
>> *)
Definition where_filter (prev_filter : Obj -> bool) (w : Where) (obj : Obj) : bool :=
  let value := get obj (field w) in
  let ok1 :=
    if isDef (lower w)
    then (if lowerOpen w then Js.lt value (lower w) else Js.le value (lower w))
    else true in
  let ok2 :=
    if isDef (upper w)
    then (if upperOpen w then Js.gt value (upper w) else Js.ge value (upper w))
    else true in
  prev_filter obj && ok1 && ok2.

(** [processWhereAsFilter(where)]: the previous filter, or
    [goog.functions.TRUE] when there is none, is captured by the new one. *)
Definition processWhereAsFilter (w : Where) (q : Query) : Query :=
  let prev_filter :=
    match filter q with
    | Some f => f
    | None => fun _ => true
    end in
  set_filter (Some (where_filter prev_filter w)) q.

(** The range a where condition denotes, in the words of the
    specification: above the lower bound (strictly when [lowerOpen]) and
    below the upper bound (strictly when [upperOpen]); an absent bound
    does not constrain. *)
Definition in_range (w : Where) (value : Prim) : bool :=
  (if isDef (lower w)
   then (if lowerOpen w then Js.gt value (lower w) else Js.ge value (lower w))
   else true)
  &&
  (if isDef (upper w)
   then (if upperOpen w then Js.lt value (upper w) else Js.le value (upper w))
   else true).

(** The two comparisons of a where condition, as the installed closure
    computes them, apart from the previous filter. *)
Definition where_test (w : Where) (obj : Obj) : bool :=
  where_filter (fun _ => true) w obj.

End Conditions.

(** The filter of a query as [fetch] applies it: a query without filter
    accepts every record. *)
Definition accepts (q : Query) (obj : Obj) : bool :=
  match filter q with
  | Some f => f obj
  | None => true
  end.

End IterableQuery.

(* ===================================================================== *)
(** * The schema, as the executor consumes it *)
(* ===================================================================== *)

Module Schema.
Import Js.

(** [ydn.db.DataType]. *)
Inductive DataType : Type := INTEGER | FLOAT | TEXT.

#[global] Instance DataType_eq_dec : EqDecision DataType.
Proof. solve_decision. Defined.

Record IndexSchema : Type := {
  ix_name : string;
  ix_type : option DataType;
  ix_unique : bool
}.

Record StoreSchema : Type := {
  name : string;
  keyPath : option string;
  indexes : list IndexSchema
}.

Record DatabaseSchema : Type := {
  stores : list StoreSchema
}.

(** Modelled from the spec: [DatabaseSchema.getStore(name)] is declared
    outside these files; it yields the store of that name, and a falsy
    value ([None]) when the schema has none. *)
Definition getStore (schema : DatabaseSchema) (store_name : string) : option StoreSchema :=
  find (fun s => String.eqb (name s) store_name) (stores schema).

(** Modelled from the spec: [StoreSchema.setKey(obj, key)] is declared
    outside these files; it puts the key back under the declared key path,
    and leaves the record alone when the store declares none. *)
Definition setKey (table : StoreSchema) (obj : Obj) (key : Prim) : Obj :=
  match keyPath table with
  | Some kp => set obj kp key
  | None => obj
  end.

(** Modelled from the spec: the [key] component of
    [StoreSchema.getIndexedValues(obj)], the value under the key path, and
    [undefined] for a store without key path. *)
Definition getKey (table : StoreSchema) (obj : Obj) : Prim :=
  match keyPath table with
  | Some kp => get obj kp
  | None => PUndefined
  end.

End Schema.

(* ===================================================================== *)
(** * The in-memory adapter: [ydn.db.adapter.SimpleStorage] *)
(* ===================================================================== *)

Module SimpleStorage.
Import Js Schema.

(** [ydn.db.TransactionEventTypes]. *)
Inductive TransactionEventTypes : Type := COMPLETE | ABORT.

Record Storage : Type := {
  cache_ : Obj;
  dbname : string;
  schema : DatabaseSchema
}.

(** One entry of the call record of a turn of the event loop. *)
Inductive Call : Type :=
| CallReady
| CallTrFn (cache : Obj)
| CallOnCompleted (type : TransactionEventTypes) (event : Obj)
| Return.

#[global] Instance TransactionEventTypes_eq_dec : EqDecision TransactionEventTypes.
Proof. solve_decision. Defined.

#[global] Instance Call_eq_dec : EqDecision Call.
Proof. solve_decision. Defined.

(** The JavaScript run time as the adapter sees it.  [user] is the state
    its callers' callbacks work on; [calls] records, in order, the calls
    made in the current turn; [tasks] holds the callbacks put off to a
    later turn (what [goog.Timer.callOnce] or a deferred would add). *)
Record Runtime (U : Type) : Type := {
  user : U;
  calls : list Call;
  tasks : list (U -> U)
}.
Arguments user {U} _.
Arguments calls {U} _.
Arguments tasks {U} _.

(** What a call of a callback does: it works on the state of its
    callers, it may put callbacks off to a later turn, and it returns or
    throws a value of [E]. *)
Record Effect (U E : Type) : Type := {
  after : U;
  deferred : list (U -> U);
  throws : option E
}.
Arguments after {U E} _.
Arguments deferred {U E} _.
Arguments throws {U E} _.

(** How a call ends: it returns, or an exception leaves it. *)
Inductive Ending (U E : Type) : Type :=
| Returned (rt : Runtime U)
| Raised (e : E) (rt : Runtime U).
Arguments Returned {U E} _.
Arguments Raised {U E} _ _.

Section Adapter.
Context {U E : Type}.

(** A call that returns [u] and does nothing else. *)
Definition returns (u : U) : Effect U E :=
  {| after := u; deferred := []; throws := None |}.

(** The run time at the end of a call, and the exception that left it. *)
Definition state (d : Ending U E) : Runtime U :=
  match d with Returned rt => rt | Raised _ rt => rt end.

Definition raised (d : Ending U E) : option E :=
  match d with Returned _ => None | Raised e _ => Some e end.

(** Calling [f] now: the call is recorded, its effect is applied, and
    what it throws leaves the caller too, there being no [try] in the
    adapter. *)
Definition invoke (c : Call) (f : U -> Effect U E) (rt : Runtime U) : Ending U E :=
  let eff := f (user rt) in
  let rt' := {| user := after eff; calls := calls rt ++ [c];
                tasks := tasks rt ++ deferred eff |} in
  match throws eff with
  | Some e => Raised e rt'
  | None => Returned rt'
  end.

(** The function returns to its caller. *)
Definition leave (rt : Runtime U) : Runtime U :=
  {| user := user rt; calls := calls rt ++ [Return]; tasks := tasks rt |}.

Definition isReady (self : Storage) : bool := true.

(** [onReady(cb)]: [cb(this)]. *)
Definition onReady (self : Storage) (cb : Storage -> U -> Effect U E)
    (rt : Runtime U) : Ending U E :=
  match invoke CallReady (cb self) rt with
  | Returned rt1 => Returned (leave rt1)
  | Raised e rt1 => Raised e rt1
  end.

Definition type (self : Storage) : string := "memory".

(** [doTransaction(trFn, scopes, mode, oncompleted)]:
<<
    trFn(this.cache_);
    oncompleted(ydn.db.TransactionEventTypes.COMPLETE, {});
>> *)
Definition doTransaction (self : Storage)
    (trFn : Obj -> U -> Effect U E) (scopes : list string) (mode : string)
    (oncompleted : TransactionEventTypes -> Obj -> U -> Effect U E)
    (rt : Runtime U) : Ending U E :=
  match invoke (CallTrFn (cache_ self)) (trFn (cache_ self)) rt with
  | Raised e rt1 => Raised e rt1
  | Returned rt1 =>
      match invoke (CallOnCompleted COMPLETE ∅) (oncompleted COMPLETE ∅) rt1 with
      | Raised e rt2 => Raised e rt2
      | Returned rt2 => Returned (leave rt2)
      end
  end.

(** The calls [doTransaction] makes from its entry on, its [Return]
    included. *)
Definition calls_of_doTransaction (self : Storage)
    (trFn : Obj -> U -> Effect U E) (scopes : list string) (mode : string)
    (oncompleted : TransactionEventTypes -> Obj -> U -> Effect U E)
    (rt : Runtime U) : list Call :=
  drop (length (calls rt))
    (calls (state (doTransaction self trFn scopes mode oncompleted rt))).

(** A call of the completion handler, of whatever kind. *)
Definition is_completion (c : Call) : bool :=
  match c with CallOnCompleted _ _ => true | _ => false end.

(** What a deferred delivery would look like: no call of the completion
    handler before [doTransaction] returns. *)
Definition completes_later (cs : list Call) : bool :=
  forallb (fun c => negb (is_completion c)) cs.

End Adapter.

(** ** The stand-in for [window.localStorage]

    [getFakeLocalStorage] returns a plain object whose three methods are
    properties of the object itself, next to the items stored in it. *)

Inductive Method : Type := SetItem | GetItem | Clear.

(** The property name a method is installed under. *)
Definition method_name (m : Method) : string :=
  match m with
  | SetItem => "setItem"
  | GetItem => "getItem"
  | Clear => "clear"
  end.

(** The object: the items written into it, which of the three methods are
    still in place, and whether it still inherits from [Object.prototype].
    A method is in place as long as nothing was written under its name. *)
Record LocalStorage : Type := {
  items : gmap string Prim;
  has_setItem : bool;
  has_getItem : bool;
  has_clear : bool;
  has_proto : bool
}.

(** [getFakeLocalStorage()]. *)
Definition getFakeLocalStorage : LocalStorage :=
  {| items := ∅; has_setItem := true; has_getItem := true; has_clear := true;
     has_proto := true |}.

Definition in_place (ls : LocalStorage) (m : Method) : bool :=
  match m with
  | SetItem => has_setItem ls
  | GetItem => has_getItem ls
  | Clear => has_clear ls
  end.

(** The method installed under a property name, if the name is one of the
    three. *)
Definition method_of (k : string) : option Method :=
  if String.eqb k "setItem" then Some SetItem
  else if String.eqb k "getItem" then Some GetItem
  else if String.eqb k "clear" then Some Clear
  else None.

(** The property names every object inherits from [Object.prototype]. *)
Definition inherited (k : string) : bool :=
  existsb (String.eqb k)
    ["constructor"; "toString"; "toLocaleString"; "valueOf"; "hasOwnProperty";
     "isPrototypeOf"; "propertyIsEnumerable"; "__proto__";
     "__defineGetter__"; "__defineSetter__"; "__lookupGetter__"; "__lookupSetter__"].

(** What reading a property gives: a stored item, one of the three
    methods, or a function or object of [Object.prototype]. *)
Inductive Got : Type :=
| GotItem (value : Prim)
| GotMethod (m : Method)
| GotInherited.

(** [localStorage[key]]: own properties first, then the prototype. *)
Definition read (ls : LocalStorage) (k : string) : Got :=
  match items ls !! k with
  | Some v => GotItem v
  | None =>
      match method_of k with
      | Some m => if in_place ls m then GotMethod m else GotItem PUndefined
      | None =>
          if has_proto ls && inherited k then GotInherited
          else GotItem PUndefined
      end
  end.

(** The object without the method [m]. *)
Definition drop_method (m : Method) (ls : LocalStorage) : LocalStorage :=
  {| items := items ls;
     has_setItem := match m with SetItem => false | _ => has_setItem ls end;
     has_getItem := match m with GetItem => false | _ => has_getItem ls end;
     has_clear := match m with Clear => false | _ => has_clear ls end;
     has_proto := has_proto ls |}.

Definition put_item (k : string) (v : Prim) (ls : LocalStorage) : LocalStorage :=
  {| items := <[k := v]> (items ls);
     has_setItem := has_setItem ls; has_getItem := has_getItem ls;
     has_clear := has_clear ls; has_proto := has_proto ls |}.

(** [localStorage[key] = value] for a primitive [value].  Writing under
    the name of a method replaces the method.  Under ["__proto__"], as
    long as the object inherits the accessor of that name, [null] cuts
    the object off its prototype and any other primitive is ignored. *)
Definition write (ls : LocalStorage) (k : string) (v : Prim) : LocalStorage :=
  if String.eqb k "__proto__" && has_proto ls
     && negb (bool_decide (is_Some (items ls !! k)))
  then
    match v with
    | PNull =>
        {| items := items ls;
           has_setItem := has_setItem ls; has_getItem := has_getItem ls;
           has_clear := has_clear ls; has_proto := false |}
    | _ => ls
    end
  else
    match method_of k with
    | Some m => put_item k v (drop_method m ls)
    | None => put_item k v ls
    end.

(** JavaScript truthiness of a primitive. *)
Definition truthy (v : Prim) : bool :=
  match v with
  | PUndefined | PNull | PNaN => false
  | PNum n => negb (n =? 0)
  | PStr s => negb (String.eqb s "")
  end.

(** [localStorage.setItem(key, value)]; [None] is the [TypeError] of
    calling what is not a function. *)
Definition setItem (ls : LocalStorage) (k : string) (v : Prim) : option LocalStorage :=
  match read ls "setItem" with
  | GotMethod SetItem => Some (write ls k v)
  | _ => None
  end.

(** [localStorage.getItem(key)]: [localStorage[key] || null]. *)
Definition getItem (ls : LocalStorage) (k : string) : option Got :=
  match read ls "getItem" with
  | GotMethod GetItem =>
      Some match read ls k with
           | GotItem v => if truthy v then GotItem v else GotItem PNull
           | g => g
           end
  | _ => None
  end.

(** The own properties the [for ... in] of [clear] runs over. *)
Definition has_own_properties (ls : LocalStorage) : bool :=
  negb (bool_decide (items ls = ∅))
  || has_setItem ls || has_getItem ls || has_clear ls.

(** [localStorage.clear()]:
<<
    for (var key in localStorage) {
      if (localStorage.hasOwnProperty(key)) { delete localStorage[key]; }
    }
>>
    Every own property goes, the three methods included.  Each round
    calls [localStorage.hasOwnProperty], which is a [TypeError] when an
    item was stored under that name or the prototype is gone. *)
Definition clear (ls : LocalStorage) : option LocalStorage :=
  match read ls "clear" with
  | GotMethod Clear =>
      if has_own_properties ls then
        match read ls "hasOwnProperty" with
        | GotInherited =>
            Some {| items := ∅; has_setItem := false; has_getItem := false;
                    has_clear := false; has_proto := has_proto ls |}
        | _ => None
        end
      else Some ls
  | _ => None
  end.

End SimpleStorage.

(* ===================================================================== *)
(** * The Web SQL request executor: [ydn.db.req.WebSql] *)
(* ===================================================================== *)

Module WebSql.
Import Js Schema IterableQuery.

(** What the executor takes from the rest of the library and from the
    host: the name of the column that holds the serialised record,
    [ydn.json.parse], and the host's [parseInt(x, 10)] and
    [parseFloat(x)]. *)
Class Base : Type := {
  DEFAULT_BLOB_COLUMN : string;
  json_parse : Prim -> Obj;
  parseInt : Prim -> Prim;
  parseFloat : Prim -> Prim
}.

(** Maximum number of read-only requests kept in flight. *)
Definition REQ_PER_TX : nat := 10.

(** Maximum number of read-write requests kept in flight. *)
Definition RW_REQ_PER_TX : nat := 2.

(** A native row: column name to cell. *)
Abbreviation Row := (gmap string Prim).

(** [SQLResultSet]. *)
Record ResultSet : Type := {
  rows : list Row;
  insertId : Prim
}.

(** [SQLError]. *)
Record SQLError : Type := {
  code : Z;
  message : string
}.

(** What a synchronous call can raise. *)
Inductive Exn : Type :=
| NotFoundError (store : string)
| TypeError
| Error (msg : string).

#[global] Instance Exn_eq_dec : EqDecision Exn.
Proof. solve_decision. Defined.

(** The statements handed to [tx.executeSql], by shape; the parameters
    bound to the [?] placeholders are kept apart from the text. *)
Inductive Sql : Type :=
| InsertOrReplace (table : StoreSchema) (obj : Obj)
    (* INSERT OR REPLACE INTO t (columns) VALUES (slots); out.values *)
| SelectByKey (table : StoreSchema) (id : Prim)
    (* SELECT * FROM t WHERE key_column = ? ; [id] *)
| SelectByKeyPath (table : StoreSchema) (id : Prim)
    (* SELECT * FROM t WHERE quoted_key_path = ? ; [id] *)
| SelectAll (table : StoreSchema)
    (* SELECT * FROM t *)
| Select (table : StoreSchema) (range : option KeyRange)
    (order_by : option string) (desc : bool) (limit offset : option Z)
    (* SELECT * FROM t WHERE (..) ORDER BY c dir LIMIT n OFFSET m *)
| DeleteAll (table : StoreSchema)
    (* DELETE FROM t *)
| DeleteByKey (table : StoreSchema) (key : Prim)
    (* DELETE FROM t WHERE key_column = ? ; [key] *)
| DeleteByKeyPath (table : StoreSchema) (id : Prim)
    (* DELETE FROM t WHERE quoted_key_path = ? ; [id] *)
| CountAll (table_name : string)
    (* SELECT COUNT( * ) FROM name *)
| DropTables (tables : list StoreSchema).
    (* DROP TABLE t; ... *)

(** A call on the deferred of an operation. *)
Inductive DfEvent : Type :=
| Callback (result : Val)
| Errback (error : SQLError).

(** [goog.isFunction] on a stage, [goog.isDef] on an optional argument. *)
Definition is_Some_b {A} (x : option A) : bool :=
  match x with Some _ => true | None => false end.

Section Executor.
Context {B : Base}.

(** ** Row decoding *)

(** One round of the loop over [table.indexes] in [parseRow]. *)
Definition parseRow_index (row : Row) (value : Obj) (index : IndexSchema) : Obj :=
  if String.eqb (ix_name index) DEFAULT_BLOB_COLUMN then value
  else
    let x := get row (ix_name index) in
    if negb (isDef x) then value
    else
      let x :=
        match ix_type index with
        | Some INTEGER => parseInt x
        | Some FLOAT => parseFloat x
        | _ => x
        end in
      set value (ix_name index) x.

(** [row[table.keyPath]]; an undefined key path reads the property named
    by its printed form. *)
Definition row_key (table : StoreSchema) (row : Row) : Prim :=
  get row (default "undefined" (keyPath table)).

(** [parseRow(table, row)]. *)
Definition parseRow (table : StoreSchema) (row : Row) : Obj :=
  let value := json_parse (get row DEFAULT_BLOB_COLUMN) in
  let key := row_key table row in
  let value := setKey table value key in
  fold_left (parseRow_index row) (indexes table) value.

(** The conversion [parseRow] applies to the cell of an index. *)
Definition coerce (type : option DataType) (x : Prim) : Prim :=
  match type with
  | Some INTEGER => parseInt x
  | Some FLOAT => parseFloat x
  | _ => x
  end.

(** The field [f] is taken from an index column of the row: the store
    declares an index of that name, other than the blob column, and the
    row has a cell for it. *)
Definition from_index (table : StoreSchema) (row : Row) (f : string) : Prop :=
  exists ix, ix ∈ indexes table /\ ix_name ix = f /\
             f <> DEFAULT_BLOB_COLUMN /\ isDef (get row f) = true.

(** ** Single requests

    The synchronous part of an operation: the statements it hands to the
    transaction, in order, and the exception that ends it, if any. *)
Record Outcome : Type := {
  native : list Sql;
  raised : option Exn
}.

Definition issue (sql : Sql) : Outcome := {| native := [sql]; raised := None |}.
Definition throw (e : Exn) : Outcome := {| native := []; raised := Some e |}.

(** [putObject]: guarded by [if (!table) throw new NotFoundError]. *)
Definition putObject (schema : DatabaseSchema) (store_name : string) (obj : Obj) : Outcome :=
  match getStore schema store_name with
  | None => throw (NotFoundError store_name)
  | Some table => issue (InsertOrReplace table obj)
  end.

(** [getById]: guarded. *)
Definition getById (schema : DatabaseSchema) (table_name : string) (id : Prim) : Outcome :=
  match getStore schema table_name with
  | None => throw (NotFoundError table_name)
  | Some table => issue (SelectByKey table id)
  end.

(** [removeById]: the store is used as it comes back from [getStore];
    [store.getSQLKeyColumnName()] on a missing store is a [TypeError]. *)
Definition removeById (schema : DatabaseSchema) (table_name : string) (key : Prim) : Outcome :=
  match getStore schema table_name with
  | None => throw TypeError
  | Some store => issue (DeleteByKey store key)
  end.

(** [clearById]: guarded. *)
Definition clearById (schema : DatabaseSchema) (table : string) (id : Prim) : Outcome :=
  match getStore schema table with
  | None => throw (NotFoundError table)
  | Some store => issue (DeleteByKeyPath store id)
  end.

(** [count]: the schema is not consulted; the name is quoted into the
    statement as it is. *)
Definition count (schema : DatabaseSchema) (table : string) : Outcome :=
  issue (CountAll table).

(** [removeByStore]: a plain [Error] for a missing store. *)
Definition removeByStore (schema : DatabaseSchema) (opt_table : option string) : Outcome :=
  match opt_table with
  | Some t =>
      match getStore schema t with
      | None => throw (Error (String.append "Table " (String.append t " not found.")))
      | Some store => issue (DropTables [store])
      end
  | None => issue (DropTables (stores schema))
  end.

(** ** [fetch] *)

(** Modelled from the spec: [StoreSchema.getIndex(name)] is declared
    outside these files; it yields the index of that name, if any. *)
Definition getIndex (store : StoreSchema) (index_name : string) : option IndexSchema :=
  find (fun ix => String.eqb (ix_name ix) index_name) (indexes store).

(** What [fetch] has settled when it calls [tx.executeSql]: the statement
    and the two bounds its callback closes over. *)
Record Plan : Type := {
  sql : Sql;
  start : Z;
  end_ : option Z
}.

(** The part of [fetch] before [tx.executeSql], for a store that exists.
<<
    var start = skip || 0;
    var end = goog.isDef(max) ? start + max : undefined;
    ...
    if (!goog.isFunction(q.filter) && !goog.isFunction(q.continued)) {
      if (goog.isDef(end)) { sql += ' LIMIT ' + (end - start); end = undefined; }
      if (start > 0) { sql += ' OFFSET ' + start; start = 0; }
    }
>> *)
Definition plan (store : StoreSchema) (q : Query) (max skip : option Z) : Plan :=
  let start0 := default 0 skip in
  let end0 := match max with Some m => Some (start0 + m) | None => None end in
  let index := match index q with Some n => getIndex store n | None => None end in
  let desc := match direction q with Some Prev => true | _ => false end in
  let order_by :=
    match index with
    | Some ix => Some (ix_name ix)
    | None => keyPath store
    end in
  if negb (is_Some_b (filter q)) && negb (is_Some_b (continued q))
  then
    let limit := match end0 with Some e => Some (e - start0) | None => None end in
    let offset := if 0 <? start0 then Some start0 else None in
    {| sql := Select store (keyRange q) order_by desc limit offset;
       start := if 0 <? start0 then 0 else start0;
       end_ := None |}
  else
    {| sql := Select store (keyRange q) order_by desc None None;
       start := start0;
       end_ := end0 |}.

(** [fetch], up to [tx.executeSql]: the store is used unguarded, so
    [store.getQuotedName()] on a missing store is a [TypeError]. *)
Definition fetch (schema : DatabaseSchema) (q : Query) (max skip : option Z) : Outcome :=
  match getStore schema (store_name q) with
  | None => throw TypeError
  | Some store => issue (sql (plan store q max skip))
  end.

(** The calls the row loop makes on the stages of the query. *)
Inductive Event : Type :=
| EvContinued (i : Z) (value : Obj)
| EvFilter (i : Z) (value : Obj)
| EvMap (i : Z) (value : Obj)
| EvReduce (previous current : Val) (i : Z)
| EvInitial.

(** The variables of the row loop, and the record of the calls made. *)
Record Scan : Type := {
  result : Val;
  idx : Z;
  trace : list Event
}.

(** [result.push(value)]. *)
Definition push (result : Val) (value : Val) : Val :=
  match result with
  | VArr a => VArr (a ++ [Some value])
  | _ => result
  end.

Section Callback.
Variable store : StoreSchema.
Variable q : Query.
Variable start : Z.
Variable end_ : option Z.

(** The body of the [for] loop at row [i]; the boolean tells whether
    the loop goes on ([false] is the [break]). *)
Definition row_step (i : Z) (row : Row) (s : Scan) : Scan * bool :=
  let value := parseRow store row in
  let '(to_continue, tr) :=
    match continued q with
    | None => (true, trace s)
    | Some c => (c value, trace s ++ [EvContinued i value])
    end in
  let '(pass, tr) :=
    match filter q with
    | None => (true, tr)
    | Some f => (f value, tr ++ [EvFilter i value])
    end in
  let s :=
    if pass then
      let idx := idx s + 1 in
      if start <=? idx then
        let '(value, tr) :=
          match map q with
          | Some m => (m value, tr ++ [EvMap i value])
          | None => (VObj value, tr)
          end in
        match reduce q with
        | Some r =>
            {| result := r (result s) value i; idx := idx;
               trace := tr ++ [EvReduce (result s) value i] |}
        | None =>
            {| result := push (result s) value; idx := idx; trace := tr |}
        end
      else {| result := result s; idx := idx; trace := tr |}
    else {| result := result s; idx := idx s; trace := tr |} in
  (s, to_continue &&
      match end_ with
      | None => true
      | Some e => idx s + 1 <? e
      end).

(** [for (var i = 0; i < n; i++) { ... }] from row [i] on. *)
Fixpoint row_loop (i : Z) (rows : list Row) (s : Scan) : Scan :=
  match rows with
  | [] => s
  | row :: rest =>
      let '(s, go) := row_step i row s in
      if go then row_loop (i + 1) rest s else s
  end.

(** The success callback of [fetch], up to [df.callback(result)]:
    [result] is a fresh array unless the query reduces, in which case
    it is still [undefined]. *)
Definition callback (results : ResultSet) : Scan :=
  let result := if is_Some_b (reduce q) then undefined else VArr [] in
  row_loop 0 (rows results) {| result := result; idx := -1; trace := [] |}.

End Callback.

(** The rows [LIMIT n OFFSET m] leaves of the rows a statement selects,
    in their order; the engine reads a negative limit as no limit. *)
Definition slice (limit offset : option Z) (selected : list Row) : list Row :=
  let after := match offset with Some m => drop (Z.to_nat m) selected | None => selected end in
  match limit with
  | Some n => if n <? 0 then after else take (Z.to_nat n) after
  | None => after
  end.

(** Modelled from the spec: the native limit and offset.  The engine's
    grammar has [OFFSET] only after [LIMIT]: a statement that ends in
    [OFFSET m] without [LIMIT] is a syntax error, and there are no rows
    ([None]). *)
Definition window (limit offset : option Z) (selected : list Row) : option (list Row) :=
  match limit, offset with
  | None, Some _ => None
  | _, _ => Some (slice limit offset selected)
  end.

(** The statement has an [OFFSET] and no [LIMIT]. *)
Definition offset_alone (s : Sql) : bool :=
  match s with
  | Select _ _ _ _ None (Some _) => true
  | _ => false
  end.

(** The engine's answer to the statement of a plan, where [selected] are
    the rows of the store that match the key range, in the order asked
    for; [None] when the engine rejects the statement. *)
Definition execute (p : Plan) (selected : list Row) : option ResultSet :=
  match sql p with
  | Select _ _ _ _ limit offset =>
      (fun l => {| rows := l; insertId := PUndefined |}) <$> window limit offset selected
  | _ => Some {| rows := selected; insertId := PUndefined |}
  end.

(** A whole fetch on an existing store: plan, statement, row loop.  When
    the engine rejects the statement the success callback never runs. *)
Definition fetch_scan (store : StoreSchema) (q : Query) (max skip : option Z)
    (selected : list Row) : option Scan :=
  let p := plan store q max skip in
  callback store q (start p) (end_ p) <$> execute p selected.

(** What reaches [df.callback], if anything does. *)
Definition fetch_result (store : StoreSchema) (q : Query) (max skip : option Z)
    (selected : list Row) : option Val :=
  result <$> fetch_scan store q max skip selected.

(** What reaches the deferred: the result through [df.callback], or,
    when the engine rejects the statement with [error], that error
    through [df.errback]. *)
Definition fetch_df (store : StoreSchema) (q : Query) (max skip : option Z)
    (selected : list Row) (error : SQLError) : DfEvent :=
  match fetch_result store q max skip selected with
  | Some value => Callback value
  | None => Errback error
  end.

(** In a record of calls, [filter] is only ever called straight after
    [continued] was called on the same row; [prev] is the call before the
    record starts. *)
Fixpoint continued_first (prev : option Event) (tr : list Event) : Prop :=
  match tr with
  | [] => True
  | e :: rest =>
      match e with
      | EvFilter i v => prev = Some (EvContinued i v)
      | _ => True
      end /\ continued_first (Some e) rest
  end.

(** The calls of [reduce] in a record of calls: accumulator, value, index. *)
Definition reduce_calls (tr : list Event) : list (Val * Val * Z) :=
  omap (fun e => match e with EvReduce a v i => Some (a, v, i) | _ => None end) tr.

(** The calls of [continued], and those of [filter], in a record of
    calls: the loop index and the decoded row of each. *)
Definition continued_calls (tr : list Event) : list (Z * Obj) :=
  omap (fun e => match e with EvContinued i v => Some (i, v) | _ => None end) tr.

Definition filter_calls (tr : list Event) : list (Z * Obj) :=
  omap (fun e => match e with EvFilter i v => Some (i, v) | _ => None end) tr.

(** The calls form a fold that starts from [acc] and ends in [final]:
    each call receives what the call before it returned. *)
Fixpoint folds (r : Val -> Val -> Z -> Val) (acc : Val)
    (calls : list (Val * Val * Z)) (final : Val) : Prop :=
  match calls with
  | [] => final = acc
  | (a, v, i) :: rest => a = acc /\ folds r (r a v i) rest final
  end.

(** What [fetch] passes on from a decoded row: the row mapped, or the row
    itself when the query has no [map]. *)
Definition mapped (q : Query) (value : Obj) : Val :=
  match map q with
  | Some m => m value
  | None => VObj value
  end.

(** The index of a call of [reduce] is the position of its row among the
    rows scanned, and its value is that row, mapped. *)
Definition at_row_position (store : StoreSchema) (q : Query) (scanned : list Row)
    (call : Val * Val * Z) : Prop :=
  0 <= snd call /\
  (exists row, scanned !! Z.to_nat (snd call) = Some row /\
               snd (fst call) = mapped q (parseRow store row)).

(** The emitted rows of a scan, for a query that collects. *)
Definition emitted (store : StoreSchema) (q : Query) (l : list Row) : list (option Val) :=
  (fun row => Some (mapped q (parseRow store row))) <$> l.

(** The first [n] of a list when there is an end, all of it otherwise. *)
Definition upto (end_ : option Z) (from : nat) (l : list Row) : list Row :=
  match end_ with
  | Some e => take (Z.to_nat e - from) l
  | None => l
  end.

(** ** Batch requests

    [putObjects], [getByIds] and [getByKeys] are three copies of one
    loop; [BatchOp] holds what differs between them. *)
Record BatchOp : Type := {
  per_tx : nat;                    (* REQ_PER_TX or RW_REQ_PER_TX *)
  len : nat;                       (* objects.length, ids.length, keys.length *)
  request : nat -> Exn + Sql;      (* what get(i) or put(i) sends, or raises *)
  item : nat -> ResultSet -> Val   (* what the success callback stores at [i] *)
}.

(** The variables the closures of one batch operation share, with the
    state of its transaction: the statements handed over so far, those
    not answered yet, and whether it has failed. *)
Record Batch : Type := {
  objects : list (option Val);
  result_count : nat;
  df : list DfEvent;
  issued : list Sql;
  inflight : gset nat;
  thrown : option Exn;
  failed : bool
}.

Definition empty_batch : Batch :=
  {| objects := []; result_count := 0; df := []; issued := [];
     inflight := ∅; thrown := None; failed := false |}.

Definition set_thrown (e : Exn) (b : Batch) : Batch :=
  {| objects := objects b; result_count := result_count b; df := df b;
     issued := issued b; inflight := inflight b;
     thrown := Some e; failed := failed b |}.

Definition set_failed (b : Batch) : Batch :=
  {| objects := objects b; result_count := result_count b; df := df b;
     issued := issued b; inflight := inflight b;
     thrown := thrown b; failed := true |}.

Definition add_df (ev : DfEvent) (b : Batch) : Batch :=
  {| objects := objects b; result_count := result_count b;
     df := df b ++ [ev];
     issued := issued b; inflight := inflight b;
     thrown := thrown b; failed := failed b |}.

(** [tx.executeSql(sql, params, callback, error_callback)] for item [i]. *)
Definition executeSql (i : nat) (s : Sql) (b : Batch) : Batch :=
  {| objects := objects b; result_count := result_count b; df := df b;
     issued := issued b ++ [s]; inflight := {[i]} ∪ inflight b;
     thrown := thrown b; failed := failed b |}.

(** The engine takes request [i] off its list as it answers it. *)
Definition answered (i : nat) (b : Batch) : Batch :=
  {| objects := objects b; result_count := result_count b; df := df b;
     issued := issued b; inflight := inflight b ∖ {[i]};
     thrown := thrown b; failed := failed b |}.

(** [a[i] = v] on a JavaScript array: past the end the array grows, and
    the slots skipped stay holes. *)
Definition array_set (a : list (option Val)) (i : nat) (v : Val) : list (option Val) :=
  if decide (i < length a)%nat then <[i := Some v]> a
  else a ++ replicate (i - length a) None ++ [Some v].

(** [result_count++; objects[i] = v]. *)
Definition record_item (i : nat) (v : Val) (b : Batch) : Batch :=
  {| objects := array_set (objects b) i v;
     result_count := S (result_count b);
     df := df b; issued := issued b; inflight := inflight b;
     thrown := thrown b; failed := failed b |}.

Section Pipeline.
Variable op : BatchOp.

(** [get(i, tx)] or [put(i, tx)]: build the statement and send it. *)
Definition send (i : nat) (b : Batch) : Batch :=
  match request op i with
  | inl e => set_thrown e b
  | inr s => executeSql i s b
  end.

(** The success callback of item [i]:
<<
    result_count++;
    objects[i] = ...;
    if (result_count == ids.length) {
      df.callback(objects);
    } else {
      var next = i + ydn.db.req.WebSql.REQ_PER_TX;
      if (next < ids.length) { get(next, transaction); }
    }
>> *)
Definition success_callback (i : nat) (results : ResultSet) (b : Batch) : Batch :=
  let b := record_item i (item op i results) b in
  if (result_count b =? len op)%nat
  then add_df (Callback (VArr (objects b))) b
  else
    let next := (i + per_tx op)%nat in
    if (next <? len op)%nat then send next b else b.

(** The error callback of item [i]: [df.errback(error)], and no return
    value. *)
Definition error_callback (i : nat) (error : SQLError) (b : Batch) : Batch :=
  add_df (Errback error) b.

(** [for (var i = 0; i < PER_TX && i < n; i++) { get(i, tx); }]: an
    exception raised by a [get] leaves the loop. *)
Definition send_first (b : Batch) : Batch :=
  fold_left
    (fun b i => if is_Some_b (thrown b) then b else send i b)
    (seq 0 (Nat.min (per_tx op) (len op))) b.

(** The body of the operation once its closures are set up. *)
Definition begin : Batch :=
  if (0 <? len op)%nat then send_first empty_batch
  else add_df (Callback (VArr [])) empty_batch.

(** What the engine reports back: the answer to one statement. *)
Inductive Completion : Type :=
| Success (i : nat) (results : ResultSet)
| Failure (i : nat) (error : SQLError).

(** Modelled from the spec: the engine answers a statement that is in
    flight, in any order; a statement that fails aborts the owning
    transaction (the error callbacks here do not ask to go on), as
    does an exception raised inside a callback, and an aborted
    transaction delivers nothing more. *)
Definition deliver (c : Completion) (b : Batch) : option Batch :=
  if failed b || is_Some_b (thrown b) then None
  else
    match c with
    | Success i results =>
        if decide (i ∈ inflight b) then
          let b := success_callback i results (answered i b) in
          Some (if is_Some_b (thrown b) then set_failed b else b)
        else None
    | Failure i error =>
        if decide (i ∈ inflight b) then
          Some (set_failed (error_callback i error (answered i b)))
        else None
    end.

(** A run of the transaction: the answers of the engine, in the order
    they arrive.  [None] when the list is no run of the engine. *)
Fixpoint run (answers : list Completion) (b : Batch) : option Batch :=
  match answers with
  | [] => Some b
  | c :: rest =>
      match deliver c b with
      | Some b => run rest b
      | None => None
      end
  end.

(** Nothing is left to wait for. *)
Definition quiescent (b : Batch) : bool :=
  failed b || is_Some_b (thrown b) || bool_decide (inflight b = ∅).

End Pipeline.

(** [getByIds]: the item loop. *)
Definition getByIds_op (table : StoreSchema) (ids : list Prim) : BatchOp :=
  {| per_tx := REQ_PER_TX;
     len := length ids;
     request := fun i => inr (SelectByKey table (nth i ids PUndefined));
     item := fun i results =>
       match rows results with
       | row :: _ => VObj (parseRow table row)
       | [] => undefined
       end |}.

(** [getByIds]: the guard, then the loop. *)
Definition getByIds (schema : DatabaseSchema) (table_name : string) (ids : list Prim) : Batch :=
  match getStore schema table_name with
  | None => set_thrown (NotFoundError table_name) empty_batch
  | Some table => begin (getByIds_op table ids)
  end.

(** [putObjects]: the item loop; the key is [out.key] when the record
    has one and the row id the engine reports otherwise. *)
Definition putObjects_op (table : StoreSchema) (objs : list Obj) : BatchOp :=
  {| per_tx := RW_REQ_PER_TX;
     len := length objs;
     request := fun i => inr (InsertOrReplace table (nth i objs ∅));
     item := fun i results =>
       let key := getKey table (nth i objs ∅) in
       VPrim (if isDef key then key else insertId results) |}.

Definition putObjects (schema : DatabaseSchema) (store_name : string) (objs : list Obj) : Batch :=
  match getStore schema store_name with
  | None => set_thrown (NotFoundError store_name) empty_batch
  | Some table => begin (putObjects_op table objs)
  end.

(** [ydn.db.Key], as far as [getByKeys] reads it. *)
Record Key : Type := {
  getStoreName : string;
  getId : Prim
}.

Definition no_key : Key := {| getStoreName := "undefined"; getId := PUndefined |}.

(** [getByKeys]: the store is looked up by each [get]. *)
Definition getByKeys_op (schema : DatabaseSchema) (keys : list Key) : BatchOp :=
  {| per_tx := REQ_PER_TX;
     len := length keys;
     request := fun i =>
       let key := nth i keys no_key in
       match getStore schema (getStoreName key) with
       | None => inl (NotFoundError (getStoreName key))
       | Some table => inr (SelectByKeyPath table (getId key))
       end;
     item := fun i results =>
       match getStore schema (getStoreName (nth i keys no_key)), rows results with
       | Some table, row :: _ => VObj (parseRow table row)
       | _, _ => undefined
       end |}.

Definition getByKeys (schema : DatabaseSchema) (keys : list Key) : Batch :=
  begin (getByKeys_op schema keys).

(** The three batch operations, as calls. *)
Inductive BatchCall : Type :=
| PutObjects (store_name : string) (objs : list Obj)
| GetByIds (table_name : string) (ids : list Prim)
| GetByKeys (keys : list Key).

Definition call (schema : DatabaseSchema) (c : BatchCall) : Batch :=
  match c with
  | PutObjects store_name objs => putObjects schema store_name objs
  | GetByIds table_name ids => getByIds schema table_name ids
  | GetByKeys keys => getByKeys schema keys
  end.

(** The item loop a call runs once its store is found. *)
Definition loop_of (schema : DatabaseSchema) (c : BatchCall) : option BatchOp :=
  match c with
  | PutObjects store_name objs =>
      (fun table => putObjects_op table objs) <$> getStore schema store_name
  | GetByIds table_name ids =>
      (fun table => getByIds_op table ids) <$> getStore schema table_name
  | GetByKeys keys => Some (getByKeys_op schema keys)
  end.

(** Every store the call names is in the schema. *)
Definition stores_known (schema : DatabaseSchema) (c : BatchCall) : Prop :=
  match c with
  | PutObjects store_name _ => is_Some (getStore schema store_name)
  | GetByIds table_name _ => is_Some (getStore schema table_name)
  | GetByKeys keys =>
      Forall (fun k => is_Some (getStore schema (getStoreName k))) keys
  end.

(** The number of items of a call. *)
Definition items (c : BatchCall) : nat :=
  match c with
  | PutObjects _ objs => length objs
  | GetByIds _ ids => length ids
  | GetByKeys keys => length keys
  end.

Definition is_success (c : Completion) : Prop :=
  match c with Success _ _ => True | Failure _ _ => False end.

(** An array without holes of [n] slots. *)
Definition complete_array (n : nat) (a : Val) : Prop :=
  exists slots, a = VArr slots /\ length slots = n /\
                forall i, (i < n)%nat -> exists v, slots !! i = Some (Some v).



(** The invariant of a transaction that is still alive. *)

(** [vals] holds, for each item answered so far, what its callback has
    stored. *)
Record alive (op : BatchOp) (vals : gmap nat Val) (b : Batch) : Prop := {
  alive_failed : failed b = false;
  alive_thrown : thrown b = None;
  alive_count : result_count b = size vals;
  alive_inflight : forall i,
    i ∈ inflight b <->
    (i < len op)%nat /\ vals !! i = None /\
    ((i < per_tx op)%nat \/
     ((per_tx op <= i)%nat /\ is_Some (vals !! (i - per_tx op)%nat)));
  alive_closed : forall i,
    is_Some (vals !! i) ->
    (i < len op)%nat /\
    ((per_tx op <= i)%nat -> is_Some (vals !! (i - per_tx op)%nat));
  alive_objects : forall i v, vals !! i = Some v -> objects b !! i = Some (Some v);
  alive_length : (length (objects b) <= len op)%nat;
  alive_df :
    df b = if decide (size vals = len op) then [Callback (VArr (objects b))] else []
}.

(** Every request of the operation can be built, and at least one request
    is sent at a time. *)
Definition well_formed (op : BatchOp) : Prop :=
  (0 < per_tx op)%nat /\
  forall i, (i < len op)%nat -> exists s, request op i = inr s.

(** The synchronous part of a batch operation. *)
Definition outcome (b : Batch) : Outcome :=
  {| native := issued b; raised := thrown b |}.

(** ** The key of a row *)

(** [getKeyFromRow(table, row)]:
    [row[table.keyPath || ydn.db.SQLITE_SPECIAL_COLUNM_NAME]]; the name of
    the row id column is a constant of the library, taken as a parameter.
    A missing or empty key path is falsy. *)
Definition getKeyFromRow (SQLITE_SPECIAL_COLUNM_NAME : string)
    (table : StoreSchema) (row : Row) : Prim :=
  get row
    match keyPath table with
    | Some kp => if String.eqb kp "" then SQLITE_SPECIAL_COLUNM_NAME else kp
    | None => SQLITE_SPECIAL_COLUNM_NAME
    end.

(** ** What a fetch picks

    The rows a fetch emits, described apart from the loop: the selected
    rows are numbered, cut after the first row on which [continued] is
    false, filtered, and then the first [skip] are dropped and at most
    [max] kept. *)

Fixpoint numbered (i : Z) (l : list Row) : list (Z * Row) :=
  match l with
  | [] => []
  | row :: rest => (i, row) :: numbered (i + 1) rest
  end.

(** The continuation predicate of a query; none is always true. *)
Definition goes_on (q : Query) (obj : Obj) : bool :=
  match continued q with
  | Some c => c obj
  | None => true
  end.

Fixpoint through (store : StoreSchema) (q : Query) (l : list (Z * Row)) : list (Z * Row) :=
  match l with
  | [] => []
  | x :: rest =>
      x :: (if goes_on q (parseRow store (snd x)) then through store q rest else [])
  end.

Definition accepted (store : StoreSchema) (q : Query) (l : list (Z * Row)) : list (Z * Row) :=
  List.filter (fun x => accepts q (parseRow store (snd x))) l.

(** The rows the scan reaches: it stops after the first row on which
    [continued] is false, and after the first row with which the rows the
    filter has accepted, [k] before the row, are no longer below the
    end. *)
Fixpoint visited (store : StoreSchema) (q : Query) (end_ : option Z) (k : Z)
    (l : list (Z * Row)) : list (Z * Row) :=
  match l with
  | [] => []
  | x :: rest =>
      let k' := if accepts q (parseRow store (snd x)) then k + 1 else k in
      x :: (if goes_on q (parseRow store (snd x)) &&
               match end_ with Some e => k' <? e | None => true end
            then visited store q end_ k' rest
            else [])
  end.

(** Numbered rows, decoded. *)
Definition decoded (store : StoreSchema) (l : list (Z * Row)) : list (Z * Obj) :=
  (fun x => (fst x, parseRow store (snd x))) <$> l.

Definition picked (store : StoreSchema) (q : Query) (max skip : option Z)
    (selected : list Row) : list (Z * Row) :=
  let after := drop (Z.to_nat (default 0 skip))
                 (accepted store q (through store q (numbered 0 selected))) in
  match max with
  | Some m => take (Z.to_nat m) after
  | None => after
  end.

(** What the loop does with a picked row: fold it into the accumulator
    with its index, or push it. *)
Definition emit (store : StoreSchema) (q : Query) (res : Val) (x : Z * Row) : Val :=
  match reduce q with
  | Some r => r res (mapped q (parseRow store (snd x))) (fst x)
  | None => push res (mapped q (parseRow store (snd x)))
  end.

(** The part of a list below an optional end, counted from [from]. *)
Definition cut {X : Type} (end_ : option Z) (from : nat) (l : list X) : list X :=
  match end_ with
  | Some e => take (Z.to_nat e - from) l
  | None => l
  end.

(** The fold over what is picked from a list, seen from the loop at the
    point where [k] rows have been accepted. *)
Definition rest_of (store : StoreSchema) (q : Query) (start : Z) (end_ : option Z)
    (k : nat) (l : list (Z * Row)) (res : Val) : Val :=
  fold_left (emit store q)
    (cut end_ (Nat.max k (Z.to_nat start)) (drop (Z.to_nat start - k) l)) res.

(** The index [reduce] is given for a picked row: its number among the
    selected rows, less the offset when that went into the statement. *)
Definition reduce_index (q : Query) (skip : option Z) (x : Z * Row) : Z :=
  if negb (is_Some_b (filter q)) && negb (is_Some_b (continued q))
  then fst x - default 0 skip
  else fst x.

(** ** One statement after the other: [getByStore] and [clearByStore]

    Both walk a list of store names; the success callback of the
    statement for one name sends the statement for the next.  [Walk]
    holds what differs: the names, what a success adds to the result, and
    the statement for a store. *)
Record Walk (A : Type) : Type := {
  names : list string;
  statement : StoreSchema -> Sql;
  absorb : StoreSchema -> ResultSet -> A -> A
}.
Arguments names {A} _.
Arguments statement {A} _.
Arguments absorb {A} _.

(** A call on the deferred of a walk. *)
Inductive Resolution (A : Type) : Type :=
| Resolved (value : A)
| Rejected (error : SQLError).
Arguments Resolved {A} _.
Arguments Rejected {A} _.

(** The variables of a walk and the state of its transaction: at most one
    statement, the one for [names[i]], is waiting for its answer. *)
Record Chain (A : Type) : Type := {
  acc : A;
  resolutions : list (Resolution A);
  sent : list Sql;
  waiting : option nat;
  escaped : option Exn;
  aborted : bool
}.
Arguments acc {A} _.
Arguments resolutions {A} _.
Arguments sent {A} _.
Arguments waiting {A} _.
Arguments escaped {A} _.
Arguments aborted {A} _.

(** The engine's answer to the one statement that is waiting. *)
Inductive Answer : Type :=
| Fine (results : ResultSet)
| Failed (error : SQLError).

Section Walking.
Context {A : Type}.
Variable schema : DatabaseSchema.
Variable w : Walk A.

Definition fresh (init : A) : Chain A :=
  {| acc := init; resolutions := []; sent := []; waiting := None;
     escaped := None; aborted := false |}.

(** [getAll(idx, tx)] or [deleteStore(i, tx)]: look the store up, raise
    [NotFoundError] when the schema has none of that name, else send its
    statement.  Past the end of the names the name is [undefined]. *)
Definition visit (idx : nat) (c : Chain A) : Chain A :=
  match names w !! idx with
  | None =>
      {| acc := acc c; resolutions := resolutions c; sent := sent c;
         waiting := waiting c; escaped := Some (NotFoundError "undefined");
         aborted := aborted c |}
  | Some store_name =>
      match getStore schema store_name with
      | None =>
          {| acc := acc c; resolutions := resolutions c; sent := sent c;
             waiting := waiting c; escaped := Some (NotFoundError store_name);
             aborted := aborted c |}
      | Some table =>
          {| acc := acc c; resolutions := resolutions c;
             sent := sent c ++ [statement w table];
             waiting := Some idx; escaped := escaped c; aborted := aborted c |}
      end
  end.

(** The success callback of the statement for [names[idx]]: take the
    results in, then resolve when [idx] is the last index, else go to the
    next name. *)
Definition walk_success (idx : nat) (results : ResultSet) (c : Chain A) : Chain A :=
  let acc' :=
    match names w !! idx with
    | Some store_name =>
        match getStore schema store_name with
        | Some table => absorb w table results (acc c)
        | None => acc c
        end
    | None => acc c
    end in
  let c' := {| acc := acc'; resolutions := resolutions c; sent := sent c;
               waiting := None; escaped := escaped c; aborted := aborted c |} in
  if (S idx =? length (names w))%nat
  then {| acc := acc'; resolutions := resolutions c ++ [Resolved acc'];
          sent := sent c; waiting := None; escaped := escaped c;
          aborted := aborted c |}
  else visit (S idx) c'.

(** The error callback: [d.errback(error)]. *)
Definition walk_error (error : SQLError) (c : Chain A) : Chain A :=
  {| acc := acc c; resolutions := resolutions c ++ [Rejected error];
     sent := sent c; waiting := None; escaped := escaped c; aborted := true |}.

Definition abort_if_escaped (c : Chain A) : Chain A :=
  match escaped c with
  | Some _ =>
      {| acc := acc c; resolutions := resolutions c; sent := sent c;
         waiting := waiting c; escaped := escaped c; aborted := true |}
  | None => c
  end.

(** Modelled from the spec: the engine answers the statement that is
    waiting; a failure, or an exception that escapes a callback, aborts
    the transaction, which then delivers nothing more. *)
Definition hear (a : Answer) (c : Chain A) : option (Chain A) :=
  if aborted c || is_Some_b (escaped c) then None
  else
    match waiting c with
    | None => None
    | Some idx =>
        match a with
        | Fine results => Some (abort_if_escaped (walk_success idx results c))
        | Failed error => Some (walk_error error c)
        end
    end.

(** The table of the name at index [i]. *)
Definition table_at (i : nat) (t : StoreSchema) : Prop :=
  exists nm, names w !! i = Some nm /\ getStore schema nm = Some t.

Fixpoint walk (answers : list Answer) (c : Chain A) : option (Chain A) :=
  match answers with
  | [] => Some c
  | a :: rest =>
      match hear a c with
      | Some c => walk rest c
      | None => None
      end
  end.

End Walking.

(** The store names an optional argument stands for. *)
Inductive StoreArg : Type :=
| NoStore
| OneStore (store_name : string)
| Stores (store_names : list string).

(** Modelled from the spec: [DatabaseSchema.getStoreNames()] is declared
    outside these files; it lists the names of the stores. *)
Definition getStoreNames (schema : DatabaseSchema) : list string :=
  name <$> stores schema.

(** [getByStore]: a string is one name, a non-empty array is itself,
    anything else is every store of the schema. *)
Definition getByStore_names (schema : DatabaseSchema) (opt_table_name : StoreArg) : list string :=
  match opt_table_name with
  | OneStore n => [n]
  | Stores (n :: ns) => n :: ns
  | _ => getStoreNames schema
  end.

Definition getByStore_walk (schema : DatabaseSchema) (opt_table_name : StoreArg) : Walk (list Obj) :=
  {| names := getByStore_names schema opt_table_name;
     statement := SelectAll;
     absorb := fun table results arr => arr ++ (parseRow table <$> rows results) |}.

(** [getByStore]: [getAll(0, this.getTx())], whatever the names are. *)
Definition getByStore (schema : DatabaseSchema) (opt_table_name : StoreArg) : Chain (list Obj) :=
  visit schema (getByStore_walk schema opt_table_name) 0 (fresh []).

(** What [clearByStore] resolves with: [true] after the last statement,
    the empty array when there was no store to clear. *)
Inductive Cleared : Type := ClearedTrue | ClearedNothing.

(** [clearByStore]: a non-empty array is itself, a string is one name,
    anything else is every store of the schema. *)
Definition clearByStore_names (schema : DatabaseSchema) (table_name : StoreArg) : list string :=
  match table_name with
  | Stores (n :: ns) => n :: ns
  | OneStore n => [n]
  | _ => getStoreNames schema
  end.

Definition clearByStore_walk (schema : DatabaseSchema) (table_name : StoreArg) : Walk Cleared :=
  {| names := clearByStore_names schema table_name;
     statement := DeleteAll;
     absorb := fun _ _ d => d |}.

(** [clearByStore]: [deleteStore(0, this.tx)] when there is a name, else
    [d.callback([])]. *)
Definition clearByStore (schema : DatabaseSchema) (table_name : StoreArg) : Chain Cleared :=
  match clearByStore_names schema table_name with
  | [] =>
      {| acc := ClearedNothing; resolutions := [Resolved ClearedNothing];
         sent := []; waiting := None; escaped := None; aborted := false |}
  | _ => visit schema (clearByStore_walk schema table_name) 0 (fresh ClearedTrue)
  end.

(** The tables of a list of names, when the schema has them all. *)
Definition tables_of (schema : DatabaseSchema) (l : list string) : option (list StoreSchema) :=
  mapM (getStore schema) l.

(** What a walk has taken in after the answers [rs] to the statements for
    the tables [ts], in that order. *)
Definition taken_in {A : Type} (w : Walk A) (ts : list StoreSchema)
    (rs : list ResultSet) (init : A) : A :=
  fold_left (fun a tr => absorb w (fst tr) (snd tr) a) (zip ts rs) init.

(** The rows of the answers, decoded each with its table, one table
    after the other. *)
Definition rows_of (ts : list StoreSchema) (rs : list ResultSet) : list Obj :=
  concat (zip_with (fun t r => parseRow t <$> rows r) ts rs).


End Executor.

Arguments names {A} _.
Arguments statement {A} _.
Arguments absorb {A} _.
Arguments Resolved {A} _.
Arguments Rejected {A} _.
Arguments acc {A} _.
Arguments resolutions {A} _.
Arguments sent {A} _.
Arguments waiting {A} _.
Arguments escaped {A} _.
Arguments aborted {A} _.

End WebSql.

(* ===================================================================== *)
(** * Sample data *)
(* ===================================================================== *)

Module Samples.
Import Js Schema IterableQuery SimpleStorage WebSql.

(** Store "users": key path "id", index "age" declared integer. *)
Definition users : StoreSchema :=
  {| name := "users"; keyPath := Some "id";
     indexes := [ {| ix_name := "age"; ix_type := Some INTEGER; ix_unique := false |} ] |}.

Definition library : DatabaseSchema := {| stores := [users] |}.

(** The record [{id: 1, age: "30"}] as it was put. *)
Definition alice : Obj := {[ "id" := PNum 1; "age" := PStr "30" ]}.

(** The record [{id: 3, age: 30}]. *)
Definition carol : Obj := {[ "id" := PNum 3; "age" := PNum 30 ]}.

(** The JSON text of the two records. *)
Definition dq : string := String (ascii_of_nat 34) EmptyString.

Definition alice_json : string :=
  String.concat dq ["{"; "id"; ":1,"; "age"; ":"; "30"; "}"].

Definition carol_json : string :=
  String.concat dq ["{"; "id"; ":3,"; "age"; ":30}"].

(** The rows the engine holds for them: the key column, the index column
    and the serialised record. *)
Definition alice_row : Row :=
  {[ "id" := PNum 1; "age" := PStr "30"; "_default_" := PStr alice_json ]}.

Definition carol_row : Row :=
  {[ "id" := PNum 3; "age" := PNum 30; "_default_" := PStr carol_json ]}.

(** *** The host of the samples

    The numbers and numerals of the samples are small integers and short
    decimal integer numerals; on these the host's functions are as
    follows. *)

Definition is_digit (c : ascii) : bool :=
  let n := nat_of_ascii c in (48 <=? n)%nat && (n <=? 57)%nat.

Definition digit_val (c : ascii) : Z := Z.of_nat (nat_of_ascii c) - 48.

(** The white space of the ASCII range (TAB, LF, VT, FF, CR, SP). *)
Definition is_space (c : ascii) : bool :=
  let n := nat_of_ascii c in ((9 <=? n)%nat && (n <=? 13)%nat) || (n =? 32)%nat.

Fixpoint skip_space (s : string) : string :=
  match s with
  | String c r => if is_space c then skip_space r else s
  | EmptyString => s
  end.

(** The longest prefix of decimal digits, folded into [acc]; the second
    component is the number of digits read, the third what is left. *)
Fixpoint read_digits (s : string) (acc : Z) (cnt : nat) : Z * nat * string :=
  match s with
  | String c r =>
      if is_digit c then read_digits r (10 * acc + digit_val c) (S cnt)
      else (acc, cnt, s)
  | EmptyString => (acc, cnt, s)
  end.

(** An optional sign: the factor and the rest of the string. *)
Definition read_sign (s : string) : Z * string :=
  match s with
  | String "-" r => (-1, r)
  | String "+" r => (1, r)
  | _ => (1, s)
  end.

(** [parseInt(x, 10)] on a small integer, which prints as its decimal
    digits and reads back as itself, on [undefined], [null] and [NaN],
    which print as words and give [NaN], and on a string, which gives
    its leading decimal integer. *)
Definition decimal_parseInt (x : Prim) : Prim :=
  match x with
  | PNum n => PNum n
  | PStr s =>
      let '(sg, r) := read_sign (skip_space s) in
      let '(v, cnt, _) := read_digits r 0 0 in
      match cnt with O => PNaN | _ => PNum (sg * v) end
  | _ => PNaN
  end.

(** [ToNumber] on a string that is empty, a decimal integer numeral or
    no numeral at all: surrounding white space is dropped, the empty
    string is 0, what is no numeral is [NaN] ([None]). *)
Definition decimal_to_number (s : string) : option Z :=
  let '(sg, r) := read_sign (skip_space s) in
  let '(v, cnt, rest) := read_digits r 0 0 in
  match skip_space s with
  | EmptyString => Some 0
  | _ =>
      match cnt, skip_space rest with
      | S _, EmptyString => Some (sg * v)
      | _, _ => None
      end
  end.

(** The order of a numeral of the samples against an integer. *)
#[export] Instance host : Host :=
  {| compare_numeral := fun s n => (fun v => Z.compare v n) <$> decimal_to_number s |}.

(** The outside world of the samples; [ydn.json.parse] is given on the
    two texts above. *)
#[export] Instance base : Base :=
  {| DEFAULT_BLOB_COLUMN := "_default_";
     json_parse := fun cell =>
       if decide (cell = PStr alice_json) then alice
       else if decide (cell = PStr carol_json) then carol
       else ∅;
     parseInt := decimal_parseInt;
     parseFloat := fun x => x |}.


(** [where("age", ">=", 18)]. *)
Definition adults : Where :=
  {| field := "age"; lower := PNum 18; upper := PUndefined;
     lowerOpen := false; upperOpen := false |}.

Definition all_users : Query := IterableQuery.new "users" None None None None.

Definition memory : Storage :=
  {| cache_ := ∅; dbname := "test"; schema := library |}.

Definition idle : Runtime nat := {| user := 0%nat; calls := []; tasks := [] |}.

(** True until the record with id 1 is met. *)
Definition until_alice (o : Obj) : bool := negb (bool_decide (get o "id" = PNum 1)).

(** A query whose filter and continuation predicate both say no to the
    record with id 1. *)
Definition stop_at_alice : Query :=
  IterableQuery.new "users" None None (Some until_alice) (Some until_alice).

(** A query that skips the record with id 1 and reduces to the index of
    the last call. *)
Definition last_index : Query :=
  {| store_name := "users"; index := None; keyRange := None; direction := None;
     initial := Some (fun _ => VPrim (PNum 0)); map := None;
     reduce := Some (fun _ _ i => VPrim (PNum i)); finalize := None;
     filter := Some until_alice; continued := None |}.

(** [getByIds([5, 1, 3])] on the store that holds the keys 1 and 3, the
    engine answering the third request first. *)
Definition read_ids : list Prim := [PNum 5; PNum 1; PNum 3].

Definition answer (l : list Row) : ResultSet := {| rows := l; insertId := PUndefined |}.

Definition read_answers : list Completion :=
  [Success 2 (answer [carol_row]); Success 0 (answer []); Success 1 (answer [alice_row])].

Definition read_final : Batch :=
  default empty_batch
    (run (getByIds_op users read_ids) read_answers (getByIds library "users" read_ids)).






(** A record without the field "age". *)
Definition ageless : Obj := {[ "id" := PNum 2 ]}.

(** [where("age", "=", 30)]. *)
Definition aged_30 : Where :=
  {| field := "age"; lower := PNum 30; upper := PNum 30;
     lowerOpen := false; upperOpen := false |}.

(** A second store, without key path and without indexes. *)
Definition books : StoreSchema :=
  {| name := "books"; keyPath := None; indexes := [] |}.

Definition shelves : DatabaseSchema := {| stores := [users; books] |}.

Definition bare : DatabaseSchema := {| stores := [] |}.

(** [getByKeys] of three keys of "users", answered as [read_answers]. *)
Definition user_key (id : Z) : Key := {| getStoreName := "users"; getId := PNum id |}.




Definition film_key : Key := {| getStoreName := "films"; getId := PNum 1 |}.

Definition disk_full : SQLError := {| code := 4; message := "quota" |}.

End Samples.

(* ===================================================================== *)
(** * Properties of the query object *)
(* ===================================================================== *)

Section IterableQueryFacts.
Import Js IterableQuery.
Context {H : Host}.

(** The filter installed is the conjunction of the previous filter with
    the two comparisons of the source, which read [value <= lower] and
    [value >= upper]. *)
Lemma processWhereAsFilter_filter (w : Where) (q : Query) :
  filter (processWhereAsFilter w q) =
    Some (where_filter (default (fun _ => true) (filter q)) w).
Proof. unfold processWhereAsFilter. destruct (filter q); reflexivity. Qed.

(** The previous filter is kept: what the new filter accepts, the previous
    one accepted. *)
Lemma processWhereAsFilter_keeps_filter (w : Where) (q : Query) (f g : Obj -> bool) (obj : Obj) :
  filter q = Some f ->
  filter (processWhereAsFilter w q) = Some g ->
  g obj = true -> f obj = true.
Proof.
  intros Hf Hg. rewrite processWhereAsFilter_filter, Hf in Hg.
  injection Hg as <-. unfold where_filter. simpl.
  intros Hacc. apply andb_prop in Hacc as [Hacc _].
  apply andb_prop in Hacc as [Hacc _]. exact Hacc.
Qed.

(** The other stages are left as they were. *)
Lemma processWhereAsFilter_continued (w : Where) (q : Query) :
  continued (processWhereAsFilter w q) = continued q.
Proof. reflexivity. Qed.

(** C1.  With the condition "age at or above 18" and no previous filter,
    the record with age 30 lies within the range, yet the filter that
    [processWhereAsFilter] installs rejects it; the record with age 10
    lies outside, yet is accepted: the comparisons of the source are
    reversed. *)
Theorem processWhereAsFilter_reverses_range :
  let q := processWhereAsFilter Samples.adults Samples.all_users in
  let thirty : Obj := {[ "age" := PNum 30 ]} in
  let ten : Obj := {[ "age" := PNum 10 ]} in
  in_range Samples.adults (get thirty "age") = true /\
  (fun f => f thirty) <$> filter q = Some false /\
  in_range Samples.adults (get ten "age") = false /\
  (fun f => f ten) <$> filter q = Some true.
Proof. vm_compute. repeat split. Qed.

End IterableQueryFacts.

(* ===================================================================== *)
(** * Properties of the in-memory adapter *)
(* ===================================================================== *)

Section SimpleStorageFacts.
Import Js SimpleStorage.

(** C3, as stated, fails: on the sample storage, with callbacks that do
    nothing, the completion handler is called before [doTransaction]
    returns. *)
Lemma doTransaction_not_deferred :
  completes_later
    (calls_of_doTransaction (E := Prim) Samples.memory (fun _ u => returns u)
       ["users"] "readonly" (fun _ _ u => returns u) Samples.idle) = false.
Proof. reflexivity. Qed.

Lemma drop_calls (l more : list Call) : drop (length l) (l ++ more) = more.
Proof. apply drop_app_length. Qed.

(** C3, amended.  [doTransaction] calls [trFn] on the cache.  When [trFn]
    returns, the completion handler is called next, with [COMPLETE] and
    an empty event, once, in the same turn and before [doTransaction]
    returns, on the state [trFn] left; what the handler throws leaves
    [doTransaction] too.  When [trFn] throws, the exception leaves
    [doTransaction] and the completion handler is not called.  In either
    case the callbacks put off to a later turn are those there were and
    those the two callbacks put off: [doTransaction] puts off nothing. *)
Theorem doTransaction_synchronous (U E : Type) (self : Storage)
    (trFn : Obj -> U -> Effect U E) (scopes : list string) (mode : string)
    (oncompleted : TransactionEventTypes -> Obj -> U -> Effect U E) (rt : Runtime U) :
  let t := trFn (cache_ self) (user rt) in
  let o := oncompleted COMPLETE ∅ (after t) in
  let d := doTransaction self trFn scopes mode oncompleted rt in
  let made := calls_of_doTransaction self trFn scopes mode oncompleted rt in
  (throws t = None ->
     made = [CallTrFn (cache_ self); CallOnCompleted COMPLETE ∅] ++
            match throws o with Some _ => [] | None => [Return] end /\
     completes_later made = false /\
     user (state d) = after o /\
     raised d = throws o /\
     tasks (state d) = tasks rt ++ deferred t ++ deferred o) /\
  (forall e, throws t = Some e ->
     made = [CallTrFn (cache_ self)] /\
     completes_later made = true /\
     user (state d) = after t /\
     raised d = Some e /\
     tasks (state d) = tasks rt ++ deferred t).
Proof.
  intros t o d made. subst made d.
  unfold calls_of_doTransaction, doTransaction, invoke. fold t.
  split.
  - intros Ht. rewrite Ht. cbn [user]. fold o.
    destruct (throws o) as [e|] eqn:Ho; cbn [state calls leave user tasks raised];
      rewrite <- ?app_assoc; cbn [app]; rewrite drop_calls;
      repeat split.
  - intros e Ht. rewrite Ht. cbn [state calls user tasks raised].
    rewrite drop_calls. repeat split.
Qed.

(** C3 on the samples: a transaction function that returns, and one that
    throws. *)
Lemma doTransaction_on_samples :
  calls_of_doTransaction (E := Prim) Samples.memory (fun _ u => returns (S u))
    ["users"] "readonly" (fun _ _ u => returns u) Samples.idle =
    [CallTrFn ∅; CallOnCompleted COMPLETE ∅; Return] /\
  calls_of_doTransaction Samples.memory
    (fun _ u => {| after := u; deferred := []; throws := Some (PStr "no") |})
    ["users"] "readonly" (fun _ _ u => returns u) Samples.idle =
    [CallTrFn ∅].
Proof.
  split.
  - destruct (doTransaction_synchronous nat Prim Samples.memory (fun _ u => returns (S u))
                ["users"] "readonly" (fun _ _ u => returns u) Samples.idle) as [Hret _].
    destruct (Hret eq_refl) as (Hmade & _). exact Hmade.
  - destruct (doTransaction_synchronous nat Prim Samples.memory
                (fun _ u => {| after := u; deferred := []; throws := Some (PStr "no") |})
                ["users"] "readonly" (fun _ _ u => returns u) Samples.idle) as [_ Hthrow].
    destruct (Hthrow (PStr "no") eq_refl) as (Hmade & _). exact Hmade.
Defined.

End SimpleStorageFacts.

(* ===================================================================== *)
(** * Properties of the request executor *)
(* ===================================================================== *)

Section ParseRowFacts.
Import Js Schema IterableQuery WebSql.
Context {B : Base}.

Lemma parseRow_index_other (row : Row) (value : Obj) (ix : IndexSchema) (f : string) :
  ix_name ix <> f ->
  parseRow_index row value ix !! f = value !! f.
Proof.
  intros Hne. unfold parseRow_index.
  destruct (String.eqb _ _); [reflexivity|].
  destruct (isDef _); simpl; [|reflexivity].
  unfold set. apply lookup_insert_ne. exact Hne.
Qed.

Lemma parseRow_index_hit (row : Row) (value : Obj) (ix : IndexSchema) :
  ix_name ix <> DEFAULT_BLOB_COLUMN ->
  isDef (get row (ix_name ix)) = true ->
  parseRow_index row value ix !! ix_name ix =
    Some (coerce (ix_type ix) (get row (ix_name ix))).
Proof.
  intros Hblob Hdef. unfold parseRow_index.
  apply String.eqb_neq in Hblob. rewrite Hblob, Hdef. simpl.
  unfold set. rewrite lookup_insert_eq. unfold coerce.
  destruct (ix_type ix) as [[]|]; reflexivity.
Qed.

Lemma parseRow_index_skip (row : Row) (value : Obj) (ix : IndexSchema) :
  ix_name ix = DEFAULT_BLOB_COLUMN \/ isDef (get row (ix_name ix)) = false ->
  parseRow_index row value ix = value.
Proof.
  intros [Hblob | Hundef]; unfold parseRow_index.
  - apply String.eqb_eq in Hblob. rewrite Hblob. reflexivity.
  - rewrite Hundef. destruct (String.eqb _ _); reflexivity.
Qed.

(** The loop over the indexes leaves alone every field that is not taken
    from an index column. *)
Lemma parseRow_loop_other (row : Row) (f : string) (ixs : list IndexSchema) (value : Obj) :
  (forall ix, ix ∈ ixs -> ix_name ix = f ->
              f = DEFAULT_BLOB_COLUMN \/ isDef (get row f) = false) ->
  fold_left (parseRow_index row) ixs value !! f = value !! f.
Proof.
  revert value. induction ixs as [|ix ixs IH]; intros value Hskip; simpl.
  - reflexivity.
  - rewrite IH.
    + destruct (decide (ix_name ix = f)) as [Heq | Hne].
      * rewrite parseRow_index_skip; [reflexivity|].
        rewrite Heq. apply (Hskip ix); [left | exact Heq].
      * apply parseRow_index_other. exact Hne.
    + intros ix' Hin. apply Hskip. right. exact Hin.
Qed.

(** With distinct index names, the loop gives an index field the coerced
    cell of its column. *)
Lemma parseRow_loop_hit (row : Row) (ix : IndexSchema) (ixs : list IndexSchema) (value : Obj) :
  NoDup (ix_name <$> ixs) ->
  ix ∈ ixs ->
  ix_name ix <> DEFAULT_BLOB_COLUMN ->
  isDef (get row (ix_name ix)) = true ->
  fold_left (parseRow_index row) ixs value !! ix_name ix =
    Some (coerce (ix_type ix) (get row (ix_name ix))).
Proof.
  revert value. induction ixs as [|ix' ixs IH]; intros value Hnd Hin Hblob Hdef.
  - inversion Hin.
  - simpl. rewrite fmap_cons in Hnd. apply NoDup_cons in Hnd as [Hfresh Hnd].
    apply elem_of_cons in Hin as [-> | Hin].
    + rewrite parseRow_loop_other.
      * apply parseRow_index_hit; assumption.
      * intros ix2 Hin2 Heq. exfalso. apply Hfresh.
        rewrite <- Heq. apply list_elem_of_fmap. exists ix2. split; [reflexivity | exact Hin2].
    + apply IH; assumption.
Qed.

(** C8.  For a store whose index names are distinct, [parseRow] gives
    every index field present in the row the cell of its column, read by
    [parseInt] for an integer index, by [parseFloat] for a float index and
    unchanged otherwise; the field of the key path, when it is not such a
    field, holds the key column of the row; and every other field is as
    the serialised record has it. *)
Theorem parseRow_decodes (table : StoreSchema) (row : Row) :
  NoDup (ix_name <$> indexes table) ->
  (forall ix, ix ∈ indexes table ->
     ix_name ix <> DEFAULT_BLOB_COLUMN ->
     isDef (get row (ix_name ix)) = true ->
     parseRow table row !! ix_name ix =
       Some (match ix_type ix with
             | Some INTEGER => parseInt (get row (ix_name ix))
             | Some FLOAT => parseFloat (get row (ix_name ix))
             | _ => get row (ix_name ix)
             end)) /\
  (forall kp, keyPath table = Some kp -> ~ from_index table row kp ->
     parseRow table row !! kp = Some (get row kp)) /\
  (forall f, keyPath table <> Some f -> ~ from_index table row f ->
     parseRow table row !! f = json_parse (get row DEFAULT_BLOB_COLUMN) !! f).
Proof.
  intros Hnd. unfold parseRow. repeat split.
  - intros ix Hin Hblob Hdef.
    rewrite (parseRow_loop_hit row ix) by assumption. reflexivity.
  - intros kp Hkp Hnot. rewrite parseRow_loop_other.
    + unfold setKey, row_key. rewrite Hkp. simpl. unfold set.
      apply lookup_insert_eq.
    + intros ix Hin Heq.
      destruct (decide (kp = DEFAULT_BLOB_COLUMN)) as [|Hblob]; [left; assumption|].
      destruct (isDef (get row kp)) eqn:Hdef; [|right; reflexivity].
      exfalso. apply Hnot. exists ix. repeat split; assumption.
  - intros f Hkp Hnot. rewrite parseRow_loop_other.
    + unfold setKey. destruct (keyPath table) as [kp|]; [|reflexivity].
      unfold set. apply lookup_insert_ne. congruence.
    + intros ix Hin Heq.
      destruct (decide (f = DEFAULT_BLOB_COLUMN)) as [|Hblob]; [left; assumption|].
      destruct (isDef (get row f)) eqn:Hdef; [|right; reflexivity].
      exfalso. apply Hnot. exists ix. repeat split; assumption.
Qed.

End ParseRowFacts.

(** C8, on the sample store: the row of [{id: 1, age: "30"}] in "users",
    whose index "age" is declared integer, decodes to [{id: 1, age: 30}]. *)
Lemma parseRow_decodes_users :
  NoDup (Schema.ix_name <$> Schema.indexes Samples.users) /\
  WebSql.parseRow (B := Samples.base) Samples.users Samples.alice_row =
    {[ "id" := Js.PNum 1; "age" := Js.PNum 30 ]}.
Proof.
  assert (Hnd : NoDup (Schema.ix_name <$> Schema.indexes Samples.users)).
  { simpl. apply NoDup_singleton. }
  split; [exact Hnd|].
  destruct (parseRow_decodes (B := Samples.base) Samples.users Samples.alice_row Hnd)
    as (Hix & Hkey & Hrest).
  assert (Hfrom : forall f,
    WebSql.from_index (B := Samples.base) Samples.users Samples.alice_row f -> f = "age").
  { intros f (ix & Hin & Hname & _). simpl in Hin.
    apply list_elem_of_singleton in Hin. subst ix. symmetry. exact Hname. }
  apply map_eq. intros f.
  destruct (decide (f = "age")) as [-> | Hage].
  - etrans.
    + apply (Hix {| Schema.ix_name := "age"; Schema.ix_type := Some Schema.INTEGER;
                    Schema.ix_unique := false |}).
      * simpl. apply list_elem_of_singleton. reflexivity.
      * discriminate.
      * reflexivity.
    + reflexivity.
  - destruct (decide (f = "id")) as [-> | Hid].
    + rewrite (Hkey "id"); [reflexivity | reflexivity |].
      intros Hf. apply Hfrom in Hf. discriminate.
    + rewrite (Hrest f).
      * change (WebSql.json_parse (Js.get Samples.alice_row WebSql.DEFAULT_BLOB_COLUMN))
          with Samples.alice.
        unfold Samples.alice.
        rewrite !lookup_insert_ne, !lookup_singleton_ne by congruence.
        reflexivity.
      * simpl. congruence.
      * intros Hf. apply Hfrom in Hf. contradiction.
Defined.

Section RequestFacts.
Import Js Schema IterableQuery WebSql.
Context {B : Base}.

(** The guarded operations raise [NotFoundError] for a store the schema
    does not have, and hand nothing to the transaction. *)
Lemma guarded_operations_raise_NotFoundError (schema : DatabaseSchema) (store : string)
    (obj : Obj) (id : Prim) (objs : list Obj) (ids : list Prim) :
  getStore schema store = None ->
  putObject schema store obj = throw (NotFoundError store) /\
  getById schema store id = throw (NotFoundError store) /\
  clearById schema store id = throw (NotFoundError store) /\
  outcome (putObjects schema store objs) = throw (NotFoundError store) /\
  outcome (getByIds schema store ids) = throw (NotFoundError store).
Proof.
  intros Hnone.
  unfold putObject, getById, clearById, putObjects, getByIds.
  rewrite Hnone. repeat split.
Qed.

(** C4.  On the sample schema, which has no store "orders": [removeById]
    and [fetch] end in a [TypeError], [removeByStore] in a plain [Error],
    and [count] raises nothing and hands its statement to the transaction;
    [putObject] on the same name raises [NotFoundError]. *)
Theorem missing_store_not_always_NotFoundError :
  getStore Samples.library "orders" = None /\
  removeById Samples.library "orders" (PNum 1) = throw TypeError /\
  fetch Samples.library (IterableQuery.new "orders" None None None None) None None
    = throw TypeError /\
  removeByStore Samples.library (Some "orders")
    = throw (Error "Table orders not found.") /\
  count Samples.library "orders" = issue (CountAll "orders") /\
  putObject Samples.library "orders" ∅ = throw (NotFoundError "orders").
Proof. repeat split. Qed.

End RequestFacts.

Section FetchFacts.
Import Js Schema IterableQuery WebSql.
Context {B : Base}.

(** With a filter or a continuation predicate the statement carries
    neither LIMIT nor OFFSET, and the engine returns every selected row. *)
Lemma execute_no_pushdown (store : StoreSchema) (q : Query) (max skip : option Z)
    (selected : list Row) :
  is_Some_b (filter q) || is_Some_b (continued q) = true ->
  execute (plan store q max skip) selected =
    Some {| rows := selected; insertId := PUndefined |} /\
  start (plan store q max skip) = default 0 skip /\
  end_ (plan store q max skip) = (fun m => default 0 skip + m) <$> max.
Proof.
  intros Hstage. unfold plan.
  destruct (is_Some_b (filter q)), (is_Some_b (continued q));
    try discriminate; simpl; destruct max; repeat split.
Qed.

(** The engine rejects the statement of a plan exactly when it has an
    [OFFSET] and no [LIMIT]: for a query without filter and continuation
    predicate, fetched with a positive skip and no max. *)
Lemma execute_rejects (store : StoreSchema) (q : Query) (max skip : option Z)
    (selected : list Row) :
  (execute (plan store q max skip) selected = None <->
   offset_alone (sql (plan store q max skip)) = true) /\
  offset_alone (sql (plan store q max skip)) =
    negb (is_Some_b (filter q)) && negb (is_Some_b (continued q)) &&
    negb (is_Some_b max) && (0 <? default 0 skip).
Proof.
  unfold plan, execute.
  destruct (is_Some_b (filter q)), (is_Some_b (continued q)); simpl;
    destruct max; simpl; try (split; [split; intros; discriminate | reflexivity]);
    destruct (0 <? default 0 skip); simpl;
    (split; [split; intros; (discriminate || reflexivity) | reflexivity]).
Qed.

(** A row on which [continued] is false ends the loop. *)
Lemma row_step_break (store : StoreSchema) (q : Query) (start : Z) (end_ : option Z)
    (c : Obj -> bool) (i : Z) (row : Row) (s : Scan) :
  continued q = Some c ->
  c (parseRow store row) = false ->
  snd (row_step store q start end_ i row s) = false.
Proof.
  intros Hc Hfalse. unfold row_step. rewrite Hc, Hfalse.
  destruct (filter q); reflexivity.
Qed.

Lemma row_loop_break (store : StoreSchema) (q : Query) (start : Z) (end_ : option Z)
    (c : Obj -> bool) (row : Row) (after : list Row) :
  continued q = Some c ->
  c (parseRow store row) = false ->
  forall (before : list Row) (i : Z) (s : Scan),
    row_loop store q start end_ i (before ++ row :: after) s =
    row_loop store q start end_ i (before ++ [row]) s.
Proof.
  intros Hc Hfalse. induction before as [|r before IH]; intros i s; simpl.
  - pose proof (row_step_break store q start end_ c i row s Hc Hfalse) as Hbrk.
    destruct (row_step store q start end_ i row s) as [s' go]. simpl in Hbrk.
    rewrite Hbrk. reflexivity.
  - destruct (row_step store q start end_ i r s) as [s' go].
    destruct go; [apply IH | reflexivity].
Qed.

Lemma last_cons_or (e : Event) (tr : list Event) (prev : option Event) :
  from_option Some prev (last (e :: tr)) = from_option Some (Some e) (last tr).
Proof.
  destruct tr as [|e' tr]; [reflexivity|].
  change (last (e :: e' :: tr)) with (last (e' :: tr)).
  destruct (last (e' :: tr)) eqn:Hlast; [reflexivity|].
  apply last_None in Hlast. discriminate.
Qed.

Lemma continued_first_app (tr1 tr2 : list Event) (prev : option Event) :
  continued_first prev tr1 ->
  continued_first (from_option Some prev (last tr1)) tr2 ->
  continued_first prev (tr1 ++ tr2).
Proof.
  revert prev. induction tr1 as [|e tr1 IH]; intros prev H1 H2.
  - exact H2.
  - destruct H1 as [He H1]. split; [exact He|].
    apply IH; [exact H1|].
    rewrite <- (last_cons_or e tr1 prev). exact H2.
Qed.

(** One round of the loop calls [continued] first, and [filter], if at
    all, next. *)
Lemma row_step_continued_first (store : StoreSchema) (q : Query) (start : Z)
    (end_ : option Z) (c : Obj -> bool) (i : Z) (row : Row) (s : Scan) :
  continued q = Some c ->
  exists block,
    trace (fst (row_step store q start end_ i row s)) =
      trace s ++ EvContinued i (parseRow store row) :: block /\
    continued_first (Some (EvContinued i (parseRow store row))) block.
Proof.
  intros Hc. unfold row_step. rewrite Hc.
  destruct (filter q) as [f|]; [destruct (f (parseRow store row))|];
    simpl; destruct (start <=? idx s + 1); destruct (map q), (reduce q); simpl;
    rewrite <- ?app_assoc; simpl; eexists; (split; [reflexivity|]); simpl; auto.
Qed.

Lemma row_loop_continued_first (store : StoreSchema) (q : Query) (start : Z)
    (end_ : option Z) (c : Obj -> bool) :
  continued q = Some c ->
  forall (todo : list Row) (i : Z) (s : Scan),
    continued_first None (trace s) ->
    continued_first None (trace (row_loop store q start end_ i todo s)).
Proof.
  intros Hc. induction todo as [|row todo IH]; intros i s Hs; simpl.
  - exact Hs.
  - destruct (row_step_continued_first store q start end_ c i row s Hc)
      as (block & Htr & Hblock).
    destruct (row_step store q start end_ i row s) as [s' go]. simpl in Htr.
    assert (Hs' : continued_first None (trace s')).
    { rewrite Htr. apply continued_first_app; [exact Hs|].
      simpl. split; [exact I | exact Hblock]. }
    destruct go; [apply IH; exact Hs' | exact Hs'].
Qed.

Lemma continued_calls_app (tr1 tr2 : list Event) :
  continued_calls (tr1 ++ tr2) = continued_calls tr1 ++ continued_calls tr2.
Proof. apply omap_app. Qed.

Lemma filter_calls_app (tr1 tr2 : list Event) :
  filter_calls (tr1 ++ tr2) = filter_calls tr1 ++ filter_calls tr2.
Proof. apply omap_app. Qed.

(** One round of the loop: [continued] is called once, on the row;
    [filter], when there is one, is called once, on the row, whatever
    [continued] said; and the loop goes on when [continued] said so and
    the rows accepted so far are below the end. *)
Lemma row_step_calls (store : StoreSchema) (q : Query) (start : Z) (end_ : option Z)
    (c : Obj -> bool) (i : Z) (row : Row) (s : Scan) :
  continued q = Some c ->
  let value := parseRow store row in
  let s' := fst (row_step store q start end_ i row s) in
  continued_calls (trace s') = continued_calls (trace s) ++ [(i, value)] /\
  filter_calls (trace s') =
    filter_calls (trace s) ++ (if is_Some_b (filter q) then [(i, value)] else []) /\
  idx s' + 1 = (if accepts q value then idx s + 1 + 1 else idx s + 1) /\
  snd (row_step store q start end_ i row s) =
    goes_on q value && match end_ with Some e => idx s' + 1 <? e | None => true end.
Proof.
  intros Hc. unfold row_step, accepts, goes_on. rewrite Hc.
  destruct (filter q) as [f|]; [destruct (f (parseRow store row))|];
    simpl; try destruct (start <=? idx s + 1); try destruct (map q);
    try destruct (reduce q); simpl;
    rewrite ?continued_calls_app, ?filter_calls_app; simpl;
    rewrite ?continued_calls_app, ?filter_calls_app; simpl;
    rewrite ?app_nil_r; repeat split.
Qed.

(** The loop calls [continued], and [filter] when there is one, on the
    rows it reaches, in their order, and on no other. *)
Lemma row_loop_calls (store : StoreSchema) (q : Query) (start : Z) (end_ : option Z)
    (c : Obj -> bool) :
  continued q = Some c ->
  forall (todo : list Row) (i : Z) (s : Scan),
    let s' := row_loop store q start end_ i todo s in
    let reached := decoded store (visited store q end_ (idx s + 1) (numbered i todo)) in
    continued_calls (trace s') = continued_calls (trace s) ++ reached /\
    filter_calls (trace s') =
      filter_calls (trace s) ++ (if is_Some_b (filter q) then reached else []).
Proof.
  intros Hc. induction todo as [|row todo IH]; intros i s; simpl.
  - rewrite !app_nil_r. destruct (is_Some_b (filter q)); rewrite ?app_nil_r; auto.
  - destruct (row_step_calls store q start end_ c i row s Hc) as (Hcc & Hfc & Hidx & Hgo).
    destruct (row_step store q start end_ i row s) as [s1 go]. simpl in Hcc, Hfc, Hidx, Hgo.
    rewrite <- Hidx, <- Hgo.
    destruct go.
    + destruct (IH (i + 1) s1) as [IHc IHf].
      rewrite IHc, IHf, Hcc, Hfc, <- !app_assoc.
      destruct (is_Some_b (filter q)); simpl; rewrite ?app_nil_r; auto.
    + rewrite Hcc, Hfc. unfold decoded. simpl.
      destruct (is_Some_b (filter q)); simpl; rewrite ?app_nil_r; auto.
Qed.

(** The rows reached are among the first of those up to the first on
    which [continued] is false, and all of them when there is no end. *)
Lemma visited_through (store : StoreSchema) (q : Query) (end_ : option Z) :
  forall (l : list (Z * Row)) (k : Z),
    exists n, visited store q end_ k l = take n (through store q l).
Proof.
  induction l as [|x l IH]; intros k; simpl.
  - exists 0%nat. reflexivity.
  - destruct (goes_on q (parseRow store (snd x))); simpl.
    + destruct (match end_ with Some e => _ | None => true end).
      * destruct (IH (if accepts q (parseRow store (snd x)) then k + 1 else k))
          as [n Hn].
        exists (S n). simpl. rewrite Hn. reflexivity.
      * exists 1%nat. simpl. rewrite take_0. reflexivity.
    + exists 1%nat. reflexivity.
Qed.

Lemma visited_no_end (store : StoreSchema) (q : Query) :
  forall (l : list (Z * Row)) (k : Z),
    visited store q None k l = through store q l.
Proof.
  induction l as [|x l IH]; intros k; simpl; [reflexivity|].
  rewrite andb_true_r, IH. reflexivity.
Qed.

(** C2.  For every fetch with a query that has a continuation predicate:
    the statement is answered and the scan calls [continued] on each row
    it reaches, in scan order, and on no other; when the query has a
    filter, [filter] is called on the very same rows, whatever
    [continued] said of them, each call straight after the call of
    [continued] on that row; the rows reached are among the first of
    those up to and including the first on which [continued] is false,
    and, without a max, they are all of these, whatever the filter says;
    and when [continued] is false on a row, the scan, result and calls
    alike, is the scan of the rows up to that row: no row after it
    counts, whether or not the filter accepts the row. *)
Theorem fetch_halts_when_continued_is_false (store : StoreSchema) (q : Query)
    (max skip : option Z) (c : Obj -> bool) (selected : list Row) :
  continued q = Some c ->
  exists s,
    fetch_scan store q max skip selected = Some s /\
    let reached :=
      visited store q (end_ (plan store q max skip)) 0 (numbered 0 selected) in
    continued_calls (trace s) = decoded store reached /\
    (is_Some (filter q) -> filter_calls (trace s) = decoded store reached) /\
    continued_first None (trace s) /\
    (exists n, reached = take n (through store q (numbered 0 selected))) /\
    (max = None -> reached = through store q (numbered 0 selected)) /\
    (forall before row after,
       selected = before ++ row :: after ->
       c (parseRow store row) = false ->
       fetch_scan store q max skip (before ++ [row]) = Some s).
Proof.
  intros Hc.
  assert (Hstage : is_Some_b (filter q) || is_Some_b (continued q) = true).
  { rewrite Hc. apply orb_true_r. }
  assert (Hscan : forall l, fetch_scan store q max skip l =
            Some (callback store q (start (plan store q max skip))
                    (end_ (plan store q max skip))
                    {| rows := l; insertId := PUndefined |})).
  { intros l. unfold fetch_scan.
    destruct (execute_no_pushdown store q max skip l Hstage) as (-> & _).
    reflexivity. }
  eexists. split; [apply Hscan|].
  unfold callback. cbn [rows].
  set (s0 := {| result := if is_Some_b (reduce q) then undefined else VArr [];
                idx := -1; trace := [] |}).
  destruct (row_loop_calls store q (start (plan store q max skip))
              (end_ (plan store q max skip)) c Hc selected 0 s0) as [Hcc Hfc].
  change (idx s0 + 1) with 0 in Hcc, Hfc. simpl in Hcc, Hfc.
  split; [exact Hcc|]. split.
  { intros [f Hf]. rewrite Hf in Hfc. exact Hfc. }
  split.
  { apply (row_loop_continued_first store q _ _ c); [exact Hc | exact I]. }
  split; [apply visited_through|]. split.
  { intros ->.
    destruct (execute_no_pushdown store q None skip selected Hstage) as (_ & _ & ->).
    apply visited_no_end. }
  intros before row after -> Hfalse. rewrite Hscan. unfold callback. cbn [rows].
  f_equal. symmetry. apply (row_loop_break store q _ _ c); assumption.
Qed.

Lemma folds_snoc (r : Val -> Val -> Z -> Val) (v : Val) (i : Z)
    (calls : list (Val * Val * Z)) (acc mid : Val) :
  folds r acc calls mid ->
  folds r acc (calls ++ [(mid, v, i)]) (r mid v i).
Proof.
  revert acc. induction calls as [|[[a w] j] calls IH]; intros acc Hf; simpl in *.
  - subst mid. split; reflexivity.
  - destruct Hf as [-> Hf]. split; [reflexivity|]. apply IH. exact Hf.
Qed.

Lemma reduce_calls_app (tr1 tr2 : list Event) :
  reduce_calls (tr1 ++ tr2) = reduce_calls tr1 ++ reduce_calls tr2.
Proof. apply omap_app. Qed.

(** One round of the loop in reduce mode: either [reduce] is not called
    and the accumulator stays, or it is called once, on the accumulator,
    the mapped row and the loop index, for a row the filter accepts. *)
Lemma row_step_reduce (store : StoreSchema) (q : Query) (start : Z) (end_ : option Z)
    (r : Val -> Val -> Z -> Val) (i : Z) (row : Row) (s : Scan) :
  reduce q = Some r ->
  let s' := fst (row_step store q start end_ i row s) in
  (EvInitial ∈ trace s' -> EvInitial ∈ trace s) /\
  ((reduce_calls (trace s') = reduce_calls (trace s) /\ result s' = result s) \/
   (reduce_calls (trace s') =
      reduce_calls (trace s) ++ [(result s, mapped q (parseRow store row), i)] /\
    result s' = r (result s) (mapped q (parseRow store row)) i)).
Proof.
  intros Hr. unfold row_step, mapped. rewrite Hr.
  destruct (continued q) as [c|]; (destruct (filter q) as [f|];
    [destruct (f (parseRow store row))|]); simpl;
    try destruct (start <=? idx s + 1); try destruct (map q); simpl;
    (split;
     [ intros Hin; rewrite ?elem_of_app, ?list_elem_of_singleton in Hin;
       intuition discriminate
     | rewrite ?reduce_calls_app; simpl; rewrite ?app_nil_r;
       first [ left; split; reflexivity | right; split; reflexivity ] ]).
Qed.

Lemma row_loop_reduce (store : StoreSchema) (q : Query) (start : Z) (end_ : option Z)
    (r : Val -> Val -> Z -> Val) :
  reduce q = Some r ->
  forall (todo done : list Row) (s : Scan),
    folds r undefined (reduce_calls (trace s)) (result s) ->
    Forall (at_row_position store q (done ++ todo)) (reduce_calls (trace s)) ->
    EvInitial ∉ trace s ->
    let s' := row_loop store q start end_ (Z.of_nat (length done)) todo s in
    folds r undefined (reduce_calls (trace s')) (result s') /\
    Forall (at_row_position store q (done ++ todo)) (reduce_calls (trace s')) /\
    EvInitial ∉ trace s'.
Proof.
  intros Hr. induction todo as [|row todo IH]; intros done s Hfold Hpos Hinit; simpl.
  - auto.
  - pose proof (row_step_reduce store q start end_ r (Z.of_nat (length done)) row s Hr)
      as [Hini Hstep].
    destruct (row_step store q start end_ (Z.of_nat (length done)) row s) as [s1 go].
    simpl in Hini, Hstep.
    assert (Hs1 : folds r undefined (reduce_calls (trace s1)) (result s1) /\
                  Forall (at_row_position store q (done ++ row :: todo))
                    (reduce_calls (trace s1))).
    { destruct Hstep as [[-> ->] | [-> ->]]; [split; assumption|].
      split; [apply folds_snoc; exact Hfold|].
      apply Forall_app. split; [exact Hpos|].
      apply Forall_singleton. split; simpl; [lia|].
      exists row. rewrite Nat2Z.id. split; [|reflexivity].
      apply list_lookup_middle. reflexivity. }
    destruct Hs1 as [Hfold1 Hpos1].
    assert (Hinit1 : EvInitial ∉ trace s1) by (intros Hin; apply Hinit, Hini, Hin).
    destruct go; [|auto].
    replace (Z.of_nat (length done) + 1) with (Z.of_nat (length (done ++ [row])))
      by (rewrite length_app; simpl; lia).
    replace (done ++ row :: todo) with ((done ++ [row]) ++ todo) in *
      by (rewrite <- app_assoc; reflexivity).
    apply IH; auto.
Qed.

(** Without filter and continuation predicate the statement returns the
    selected rows after the offset, up to the limit. *)
Lemma execute_pushdown (store : StoreSchema) (q : Query) (max skip : option Z)
    (selected : list Row) (answer : ResultSet) :
  is_Some_b (filter q) || is_Some_b (continued q) = false ->
  execute (plan store q max skip) selected = Some answer ->
  rows answer = slice max (Some (default 0 skip)) selected.
Proof.
  intros Hstage. unfold plan, execute.
  destruct (is_Some_b (filter q)), (is_Some_b (continued q)); try discriminate.
  simpl. unfold window, slice.
  assert (Hdrop : forall l : list Row,
            match (if 0 <? default 0 skip then Some (default 0 skip) else None) with
            | Some m => drop (Z.to_nat m) l
            | None => l
            end = drop (Z.to_nat (default 0 skip)) l).
  { intros l. destruct (0 <? default 0 skip) eqn:Hoff; [reflexivity|].
    apply Z.ltb_ge in Hoff.
    replace (Z.to_nat (default 0 skip)) with 0%nat by lia. reflexivity. }
  destruct max as [m|]; simpl.
  - replace (default 0 skip + m - default 0 skip) with m by lia.
    destruct (0 <? default 0 skip); simpl; intros [= <-]; simpl;
      rewrite <- ?Hdrop; reflexivity.
  - destruct (0 <? default 0 skip) eqn:Hoff; simpl; [discriminate|].
    intros [= <-]. simpl. apply Z.ltb_ge in Hoff.
    replace (Z.to_nat (default 0 skip)) with 0%nat by lia. reflexivity.
Qed.

(** C9, amended.  For a query that reduces.  When the statement ends in
    an offset without a limit, which is when the query has neither filter
    nor continuation predicate, the skip is positive and there is no
    maximum, the engine rejects it and [reduce] is never called.  Otherwise the calls of [reduce] form a fold that starts from
    [undefined] and ends in the result; [fetch] does not depend on the
    [initial] stage of the query and never calls it; and the index of
    each call is the position of its row among the rows the statement
    returned, whether or not the filter accepted the rows before it.
    With a filter or a continuation predicate these are all the rows
    selected, those that [skip] consumes included; without them they are
    the selected rows after the offset, so that the rows [skip] consumes
    are not counted. *)
Theorem fetch_reduce_from_undefined_by_row_position (store : StoreSchema) (q : Query)
    (r : Val -> Val -> Z -> Val) (max skip : option Z) (selected : list Row) :
  reduce q = Some r ->
  let p := plan store q max skip in
  offset_alone (sql p) =
    negb (is_Some_b (filter q)) && negb (is_Some_b (continued q)) &&
    negb (is_Some_b max) && (0 <? default 0 skip) /\
  (offset_alone (sql p) = true -> fetch_scan store q max skip selected = None) /\
  (offset_alone (sql p) = false ->
     exists answer s,
       execute p selected = Some answer /\
       fetch_scan store q max skip selected = Some s /\
       folds r undefined (reduce_calls (trace s)) (result s) /\
       (forall init, fetch_scan store (set_initial init q) max skip selected = Some s) /\
       (EvInitial ∉ trace s) /\
       (forall a v i, (a, v, i) ∈ reduce_calls (trace s) ->
          0 <= i /\
          (exists row, rows answer !! Z.to_nat i = Some row /\
                       v = mapped q (parseRow store row))) /\
       (is_Some_b (filter q) || is_Some_b (continued q) = true ->
          rows answer = selected) /\
       (is_Some_b (filter q) || is_Some_b (continued q) = false ->
          rows answer = slice max (Some (default 0 skip)) selected)).
Proof.
  intros Hr p.
  destruct (execute_rejects store q max skip selected) as [Hrej Hwhen]. fold p in Hrej.
  split; [exact Hwhen|]. split.
  { intros Hoff. apply Hrej in Hoff. unfold fetch_scan. fold p. rewrite Hoff.
    reflexivity. }
  intros Hoff.
  destruct (execute p selected) as [answer|] eqn:Hex.
  2:{ destruct Hrej as [Hrej _]. rewrite Hrej in Hoff by reflexivity. discriminate. }
  set (s := callback store q (start p) (end_ p) answer).
  exists answer, s.
  assert (Hscan : fetch_scan store q max skip selected = Some s).
  { unfold fetch_scan. fold p. rewrite Hex. reflexivity. }
  assert (Hloop := row_loop_reduce store q (start p) (end_ p) r Hr (rows answer) []
              {| result := undefined; idx := -1; trace := [] |}
              eq_refl (Forall_nil_2 _) (not_elem_of_nil _)).
  cbn [length app] in Hloop. change (Z.of_nat 0) with 0 in Hloop.
  assert (Hs : row_loop store q (start p) (end_ p) 0 (rows answer)
                 {| result := undefined; idx := -1; trace := [] |} = s).
  { subst s. unfold callback. rewrite Hr. reflexivity. }
  rewrite Hs in Hloop. destruct Hloop as (Hfold & Hpos & Hinit).
  rewrite Forall_forall in Hpos.
  split; [reflexivity|]. split; [exact Hscan|]. split; [exact Hfold|].
  split; [intros init; exact Hscan|]. split; [exact Hinit|].
  split; [intros a v i Hin; apply (Hpos _ Hin)|]. split.
  - intros Hstage.
    destruct (execute_no_pushdown store q max skip selected Hstage) as (Hall & _).
    fold p in Hall. rewrite Hall in Hex. injection Hex as <-. reflexivity.
  - intros Hstage. apply (execute_pushdown store q max skip selected answer Hstage Hex).
Qed.

(** C5.  On the sample store, with one row selected and [max = 0]: the
    query without filter, whose limit goes into the statement, yields the
    empty array, and the same query with a filter that never rejects
    yields the row. *)
Theorem fetch_max_zero_differs_with_filter :
  let q := Samples.all_users in
  let q' := set_filter (Some (fun _ => true)) q in
  sql (plan Samples.users q (Some 0) None) =
    Select Samples.users None (Some "id") false (Some 0) None /\
  fetch_result Samples.users q (Some 0) None [Samples.alice_row] = Some (VArr []) /\
  fetch_result Samples.users q' (Some 0) None [Samples.alice_row] =
    Some (VArr [Some (VObj (parseRow Samples.users Samples.alice_row))]).
Proof. repeat split. Qed.

(** Without stages and bounds, the loop emits every row. *)
Lemma row_loop_all (store : StoreSchema) (q : Query) (start : Z) :
  filter q = None -> continued q = None -> reduce q = None ->
  forall (todo : list Row) (i : Z) (s : Scan) (acc : list (option Val)),
    result s = VArr acc ->
    start <= idx s + 1 ->
    result (row_loop store q start None i todo s) = VArr (acc ++ emitted store q todo).
Proof.
  intros Hf Hc Hr. induction todo as [|row todo IH]; intros i s acc Hres Hidx; simpl.
  - rewrite app_nil_r. exact Hres.
  - unfold row_step. rewrite Hf, Hc, Hr.
    assert (Hle : (start <=? idx s + 1) = true) by (apply Z.leb_le; lia).
    rewrite Hle.
    change (emitted store q (row :: todo))
      with (Some (mapped q (parseRow store row)) :: emitted store q todo).
    destruct (map q) as [m|] eqn:Hm; simpl;
      (erewrite IH; [| simpl; rewrite Hres; reflexivity | simpl; lia]);
      rewrite <- app_assoc; unfold mapped; rewrite Hm; reflexivity.
Qed.

(** With a filter that accepts every row, the loop entered at row [i]
    before the end emits the rows from [start] up to the end. *)
Lemma row_loop_window (store : StoreSchema) (q : Query) (start : Z) (end_ : option Z)
    (f : Obj -> bool) :
  filter q = Some f -> (forall o, f o = true) ->
  continued q = None -> reduce q = None ->
  0 <= start ->
  forall (todo : list Row) (i : nat) (s : Scan) (acc : list (option Val)),
    result s = VArr acc ->
    idx s = Z.of_nat i - 1 ->
    (forall e, end_ = Some e -> Z.of_nat i < e) ->
    result (row_loop store q start end_ (Z.of_nat i) todo s) =
      VArr (acc ++ emitted store q
                     (upto end_ (Nat.max i (Z.to_nat start))
                        (drop (Z.to_nat start - i) todo))).
Proof.
  intros Hf Htrue Hc Hr Hstart.
  induction todo as [|row todo IH]; intros i s acc Hres Hidx Hend.
  - simpl. rewrite drop_nil.
    destruct end_; simpl; rewrite ?take_nil; unfold emitted; simpl;
      rewrite app_nil_r; exact Hres.
  - cbn [row_loop]. unfold row_step. rewrite Hf, Hc, Hr, Htrue. rewrite Hidx.
    replace (Z.of_nat i - 1 + 1) with (Z.of_nat i) by lia.
    replace (Z.of_nat i + 1) with (Z.of_nat (S i)) by lia.
    destruct (start <=? Z.of_nat i) eqn:Hle.
    + apply Z.leb_le in Hle.
      replace (Z.to_nat start - i)%nat with 0%nat by lia.
      replace (Nat.max i (Z.to_nat start)) with i by lia.
      rewrite drop_0.
      assert (Hgo : forall (res : Val) (tr : list Event),
        res = VArr (acc ++ [Some (mapped q (parseRow store row))]) ->
        result (if match end_ with
                   | Some e => Z.of_nat i + 1 <? e
                   | None => true
                   end
                then row_loop store q start end_ (Z.of_nat (S i)) todo
                       {| result := res; idx := Z.of_nat i; trace := tr |}
                else {| result := res; idx := Z.of_nat i; trace := tr |}) =
        VArr (acc ++ emitted store q (upto end_ i (row :: todo)))).
      { intros res tr Hres1. destruct end_ as [e|]; simpl.
        - specialize (Hend e eq_refl).
          destruct (Z.of_nat i + 1 <? e) eqn:Hlt.
          + apply Z.ltb_lt in Hlt.
            rewrite (IH (S i) {| result := res; idx := Z.of_nat i; trace := tr |} _ Hres1)
              by (simpl; try (intros ? [= <-]); lia).
            replace (Z.to_nat start - S i)%nat with 0%nat by lia.
            replace (Nat.max (S i) (Z.to_nat start)) with (S i) by lia.
            rewrite drop_0. simpl.
            replace (Z.to_nat e - i)%nat with (S (Z.to_nat e - S i)) by lia.
            rewrite <- app_assoc. reflexivity.
          + apply Z.ltb_ge in Hlt.
            replace (Z.to_nat e - i)%nat with 1%nat by lia.
            exact Hres1.
        - rewrite (IH (S i) {| result := res; idx := Z.of_nat i; trace := tr |} _ Hres1)
            by (simpl; try discriminate; lia).
          replace (Z.to_nat start - S i)%nat with 0%nat by lia.
          rewrite drop_0. simpl. rewrite <- app_assoc. reflexivity. }
      destruct (map q) as [m|] eqn:Hm; simpl;
        apply Hgo; rewrite Hres; unfold mapped; rewrite Hm; reflexivity.
    + apply Z.leb_gt in Hle. simpl.
      replace (Z.to_nat start - i)%nat with (S (Z.to_nat start - S i)) by lia.
      replace (Nat.max i (Z.to_nat start)) with (Nat.max (S i) (Z.to_nat start)) by lia.
      simpl drop.
      destruct end_ as [e|]; simpl.
      * specialize (Hend e eq_refl).
        destruct (Z.of_nat i + 1 <? e) eqn:Hlt.
        -- apply Z.ltb_lt in Hlt.
           rewrite (IH (S i) _ acc) by (simpl; try (intros ? [= <-]); auto; lia).
           reflexivity.
        -- apply Z.ltb_ge in Hlt. simpl.
           replace (Z.to_nat e - Nat.max (S i) (Z.to_nat start))%nat with 0%nat by lia.
           rewrite take_0. unfold emitted. simpl. rewrite app_nil_r. exact Hres.
      * rewrite (IH (S i) _ acc) by (simpl; try discriminate; auto; lia).
        reflexivity.
Qed.

(** Away from that corner: for a query that collects, with no filter and
    no continuation predicate, a skip that is not negative and a maximum
    that, with the skip, is positive, the result is element for element
    the result of the same query with a filter that never rejects;
    except that with a positive skip and no maximum the statement ends in
    an offset without a limit, which the engine rejects, while the query
    with the filter still delivers. *)
Lemma fetch_pushdown_agrees (store : StoreSchema) (q : Query) (max skip : option Z)
    (selected : list Row) :
  filter q = None -> continued q = None -> reduce q = None ->
  0 <= default 0 skip ->
  (forall m, max = Some m -> 0 <= m /\ 0 < default 0 skip + m) ->
  is_Some (fetch_result store (set_filter (Some (fun _ => true)) q) max skip selected) /\
  fetch_result store q max skip selected =
    if offset_alone (sql (plan store q max skip)) then None
    else fetch_result store (set_filter (Some (fun _ => true)) q) max skip selected.
Proof.
  intros Hf Hc Hr Hskip Hmax.
  set (q' := set_filter (Some (fun _ => true)) q).
  set (sk := default 0 skip) in *.
  assert (Hp' : end_ (plan store q' max skip) = (fun m => sk + m) <$> max /\
                start (plan store q' max skip) = sk /\
                execute (plan store q' max skip) selected =
                  Some {| rows := selected; insertId := PUndefined |}).
  { destruct (execute_no_pushdown store q' max skip selected eq_refl) as (? & ? & ?).
    auto. }
  destruct Hp' as (Hend' & Hstart' & Hrows').
  assert (Hq' : fetch_result store q' max skip selected =
            Some (result (callback store q' sk ((fun m => sk + m) <$> max)
                            {| rows := selected; insertId := PUndefined |}))).
  { unfold fetch_result, fetch_scan. rewrite Hrows', Hend', Hstart'. reflexivity. }
  split; [rewrite Hq'; eauto|].
  destruct (execute_rejects store q max skip selected) as [Hrej _].
  destruct (offset_alone (sql (plan store q max skip))) eqn:Hoff.
  { unfold fetch_result, fetch_scan.
    destruct Hrej as [_ Hrej]. rewrite (Hrej eq_refl). reflexivity. }
  destruct (execute (plan store q max skip) selected) as [answer|] eqn:Hex.
  2:{ destruct Hrej as [Hrej _]. specialize (Hrej eq_refl). discriminate. }
  assert (Hstage : is_Some_b (filter q) || is_Some_b (continued q) = false)
    by (rewrite Hf, Hc; reflexivity).
  pose proof (execute_pushdown store q max skip selected answer Hstage Hex) as Hrows.
  fold sk in Hrows.
  assert (Hslice : slice max (Some sk) selected =
            upto ((fun m => sk + m) <$> max) (Z.to_nat sk) (drop (Z.to_nat sk) selected)).
  { unfold slice, upto. destruct max as [m|]; simpl; [|reflexivity].
    destruct (Hmax m eq_refl) as [Hm Hpos].
    destruct (m <? 0) eqn:Hneg; [apply Z.ltb_lt in Hneg; lia|].
    f_equal. lia. }
  assert (Hp : end_ (plan store q max skip) = None /\
               start (plan store q max skip) <= 0).
  { unfold plan. rewrite Hf, Hc. fold sk. simpl.
    split; [reflexivity|]. destruct (0 <? sk) eqn:Hlt; lia. }
  destruct Hp as (Hend & Hstart).
  rewrite Hq'.
  unfold fetch_result, fetch_scan. rewrite Hex, Hend. simpl. f_equal.
  unfold callback. rewrite Hrows, Hslice.
  change (reduce q') with (reduce q). rewrite Hr. simpl is_Some_b. cbv iota.
  rewrite (row_loop_all store q _ Hf Hc Hr _ _ _ []) by (simpl; auto; lia).
  cbn [rows].
  change 0 with (Z.of_nat 0).
  rewrite (row_loop_window store q' sk _ (fun _ => true) eq_refl (fun _ => eq_refl)
             Hc Hr Hskip selected 0%nat _ []); simpl.
  - rewrite Nat.sub_0_r. reflexivity.
  - reflexivity.
  - reflexivity.
  - intros e. destruct max as [m|]; [|discriminate].
    intros [= <-]. destruct (Hmax m eq_refl). lia.
Qed.

End FetchFacts.

Section BatchFacts.
Import Js Schema IterableQuery WebSql.

(** ** The array of results *)

Lemma length_array_set (a : list (option Val)) (i : nat) (v : Val) :
  length (array_set a i v) = Nat.max (length a) (S i).
Proof.
  unfold array_set. destruct (decide (i < length a)%nat).
  - rewrite length_insert. lia.
  - rewrite !length_app, length_replicate. simpl. lia.
Qed.

Lemma array_set_lookup_eq (a : list (option Val)) (i : nat) (v : Val) :
  array_set a i v !! i = Some (Some v).
Proof.
  unfold array_set. destruct (decide (i < length a)%nat).
  - apply list_lookup_insert_eq. assumption.
  - rewrite lookup_app_r by lia.
    rewrite lookup_app_r by (rewrite length_replicate; lia).
    rewrite length_replicate.
    replace (i - length a - (i - length a))%nat with 0%nat by lia. reflexivity.
Qed.

Lemma array_set_lookup_ne (a : list (option Val)) (i j : nat) (v : Val) (x : option Val) :
  i <> j ->
  a !! j = Some x ->
  array_set a i v !! j = Some x.
Proof.
  intros Hne Hj. unfold array_set. destruct (decide (i < length a)%nat).
  - rewrite list_lookup_insert_ne by assumption. exact Hj.
  - apply lookup_app_l_Some. exact Hj.
Qed.

(** A map that fills [0, n) has an entry for each index below [n]. *)
Lemma full_of_size (vals : gmap nat Val) (n : nat) :
  (forall i, is_Some (vals !! i) -> (i < n)%nat) ->
  size vals = n ->
  forall i, (i < n)%nat -> is_Some (vals !! i).
Proof.
  intros Hbound Hsize i Hi.
  assert (Hdom : dom vals = set_seq 0 n).
  { apply set_subseteq_size_eq.
    - intros j Hj. apply elem_of_dom in Hj. apply elem_of_set_seq.
      specialize (Hbound j Hj). lia.
    - rewrite size_set_seq, size_dom. lia. }
  apply elem_of_dom. rewrite Hdom. apply elem_of_set_seq. lia.
Qed.

(** With fewer entries than [n], the least index without entry is in
    flight: the transaction is not stuck. *)
Lemma alive_progress (op : BatchOp) (vals : gmap nat Val) (b : Batch) :
  well_formed op ->
  alive op vals b ->
  inflight b = ∅ ->
  forall i, (i < len op)%nat -> is_Some (vals !! i).
Proof.
  intros [Hpos _] Hal Hempty i.
  induction i as [i IH] using lt_wf_ind. intros Hi.
  destruct (vals !! i) as [v|] eqn:Hv; [eauto|]. exfalso.
  assert (Hin : i ∈ inflight b).
  { apply (alive_inflight _ _ _ Hal). split; [exact Hi|]. split; [exact Hv|].
    destruct (decide (i < per_tx op)%nat); [left; assumption|].
    right. split; [lia|]. apply IH; lia. }
  rewrite Hempty in Hin. apply (not_elem_of_empty (C := gset nat) i). exact Hin.
Qed.

(** ** The first requests *)

Lemma send_first_loop (op : BatchOp) :
  forall (k a : nat) (b : Batch),
    thrown b = None ->
    (forall i, (a <= i < a + k)%nat -> exists s, request op i = inr s) ->
    let b' :=
      fold_left (fun b i => if is_Some_b (thrown b) then b else send op i b)
        (seq a k) b in
    thrown b' = None /\ failed b' = failed b /\ objects b' = objects b /\
    result_count b' = result_count b /\ df b' = df b /\
    length (issued b') = (length (issued b) + k)%nat /\
    (forall j, j ∈ inflight b' <-> j ∈ inflight b \/ (a <= j < a + k)%nat).
Proof.
  induction k as [|k IH]; intros a b Hthrown Hreq; simpl.
  - repeat split; auto; try lia. intros [?|?]; [assumption | lia].
  - rewrite Hthrown. simpl.
    destruct (Hreq a) as [s Hs]; [lia|].
    assert (Hsend : send op a b = executeSql a s b)
      by (unfold send; rewrite Hs; reflexivity).
    rewrite Hsend.
    destruct (IH (S a) (executeSql a s b)) as (H1 & H2 & H3 & H4 & H5 & H6 & H7).
    { exact Hthrown. }
    { intros i Hi. apply Hreq. lia. }
    split; [exact H1|]. split; [exact H2|]. split; [exact H3|].
    split; [exact H4|]. split; [exact H5|]. split.
    + rewrite H6. simpl. rewrite length_app. simpl. lia.
    + intros j. rewrite H7. simpl.
      rewrite elem_of_union, elem_of_singleton. intuition lia.
Qed.

Lemma alive_begin (op : BatchOp) :
  well_formed op -> alive op ∅ (begin op).
Proof.
  intros [Hpos Hreq]. unfold begin.
  destruct (0 <? len op)%nat eqn:Hn.
  - apply Nat.ltb_lt in Hn. unfold send_first.
    destruct (send_first_loop op (Nat.min (per_tx op) (len op)) 0 empty_batch eq_refl)
      as (H1 & H2 & H3 & H4 & H5 & H6 & H7).
    { intros i Hi. apply Hreq. lia. }
    simpl in *. constructor; auto.
    + intros i. rewrite H7, lookup_empty. simpl.
      split.
      * intros [Hin | Hin]; [set_solver|].
        split; [lia|]. split; [reflexivity|]. left. lia.
      * intros (Hi & _ & [Hlt | [_ Hsome]]); [right; lia|].
        destruct Hsome as [? Hsome]. rewrite lookup_empty in Hsome. discriminate.
    + intros i [v Hv]. rewrite lookup_empty in Hv. discriminate.
    + intros i v Hv. rewrite lookup_empty in Hv. discriminate.
    + rewrite H3. simpl. lia.
    + rewrite H5, map_size_empty. simpl.
      destruct (decide (0%nat = len op)); [lia | reflexivity].
  - apply Nat.ltb_ge in Hn. assert (Hz : len op = 0%nat) by lia.
    constructor; simpl; auto.
    + intros i. rewrite lookup_empty. split; [set_solver | lia].
    + intros i [v Hv]. rewrite lookup_empty in Hv. discriminate.
    + intros i v Hv. rewrite lookup_empty in Hv. discriminate.
    + lia.
    + rewrite map_size_empty.
      destruct (decide (0%nat = len op)); [reflexivity | lia].
Qed.

(** ** One answer *)

(** While an item below [len op] has no entry, the deferred is untouched. *)
Lemma alive_pending (op : BatchOp) (vals : gmap nat Val) (b : Batch) (i : nat) :
  alive op vals b -> i ∈ inflight b ->
  (i < len op)%nat /\ vals !! i = None /\ size vals <> len op /\ df b = [].
Proof.
  intros Hal Hin.
  apply (alive_inflight _ _ _ Hal) in Hin as (Hi & Hnone & _).
  assert (Hsize : size vals <> len op).
  { intros Hfull.
    destruct (full_of_size vals (len op)) with (i := i) as [v Hv]; auto.
    - intros j Hj. apply (alive_closed _ _ _ Hal j Hj).
    - congruence. }
  repeat split; auto.
  rewrite (alive_df _ _ _ Hal). destruct (decide (size vals = len op)); [contradiction | reflexivity].
Qed.

(** The requests in flight after item [i] is answered and, when there is
    one, the item [per_tx] places further is sent. *)
Lemma inflight_next (op : BatchOp) (vals : gmap nat Val) (b : Batch) (i : nat) (v : Val)
    (X : gset nat) :
  (0 < per_tx op)%nat ->
  alive op vals b -> i ∈ inflight b ->
  (forall j, j ∈ X <->
     (j ∈ inflight b /\ j <> i) \/ (j = (i + per_tx op)%nat /\ (j < len op)%nat)) ->
  forall j,
    j ∈ X <->
    (j < len op)%nat /\ <[i := v]> vals !! j = None /\
    ((j < per_tx op)%nat \/
     ((per_tx op <= j)%nat /\ is_Some (<[i := v]> vals !! (j - per_tx op)%nat))).
Proof.
  intros Hpos Hal Hin HX j.
  pose proof (alive_inflight _ _ _ Hal) as Hfl.
  pose proof (alive_closed _ _ _ Hal) as Hcl.
  destruct (proj1 (Hfl i) Hin) as (Hi & Hnone & _).
  rewrite HX, Hfl, lookup_insert_None, lookup_insert_is_Some.
  split.
  - intros [[(Hj & Hvj & Hsent) Hne] | [-> Hj]].
    + split; [exact Hj|]. split; [split; [exact Hvj | congruence]|].
      destruct Hsent as [Hlt | [Hge Hsome]]; [left; exact Hlt|].
      right. split; [exact Hge|].
      destruct (decide (i = (j - per_tx op)%nat)); [left; assumption | right; split; assumption].
    + split; [exact Hj|]. split.
      * split; [|lia].
        destruct (vals !! (i + per_tx op)%nat) eqn:Hnext; [|reflexivity].
        exfalso. destruct (Hcl (i + per_tx op)%nat) as [_ Hprev]; [eauto|].
        destruct Hprev as [w Hw]; [lia|].
        replace (i + per_tx op - per_tx op)%nat with i in Hw by lia. congruence.
      * right. split; [lia|]. left. lia.
  - intros (Hj & [Hvj Hne] & Hsent).
    destruct Hsent as [Hlt | [Hge [Heq | [Hne' Hsome]]]].
    + left. split; [|congruence]. split; [exact Hj|]. split; [exact Hvj|]. left. exact Hlt.
    + right. split; [lia | exact Hj].
    + left. split; [|congruence]. split; [exact Hj|]. split; [exact Hvj|].
      right. split; assumption.
Qed.

(** A successful answer to a request in flight keeps the transaction
    alive, with one more entry. *)
Lemma alive_success (op : BatchOp) (vals : gmap nat Val) (b : Batch)
    (i : nat) (r : ResultSet) :
  well_formed op ->
  alive op vals b -> i ∈ inflight b ->
  exists b', deliver op (Success i r) b = Some b' /\
             alive op (<[i := item op i r]> vals) b'.
Proof.
  intros [Hpos Hreq] Hal Hin.
  destruct (alive_pending op vals b i Hal Hin) as (Hi & Hnone & Hsize & Hdf).
  pose proof (alive_closed _ _ _ Hal) as Hcl.
  pose proof (alive_inflight _ _ _ Hal) as Hfl.
  set (v := item op i r). set (vals' := <[i := v]> vals).
  assert (Hsize' : size vals' = S (size vals)) by (apply map_size_insert_None, Hnone).
  assert (Hcl' : forall j, is_Some (vals' !! j) ->
            (j < len op)%nat /\
            ((per_tx op <= j)%nat -> is_Some (vals' !! (j - per_tx op)%nat))).
  { intros j. unfold vals'. rewrite !lookup_insert_is_Some.
    intros [<- | [Hne Hsome]].
    - split; [exact Hi|]. intros Hge. right. split; [lia|].
      destruct (proj1 (Hfl i) Hin) as (_ & _ & [Hlt | [_ Hprev]]); [lia | exact Hprev].
    - destruct (Hcl j Hsome) as [Hj Hprev]. split; [exact Hj|].
      intros Hge. destruct (decide (i = (j - per_tx op)%nat)); [left; assumption|].
      right. split; [assumption | apply Hprev, Hge]. }
  assert (Hobj' : forall j w, vals' !! j = Some w ->
            array_set (objects b) i v !! j = Some (Some w)).
  { intros j w. unfold vals'. rewrite lookup_insert_Some.
    intros [[<- <-] | [Hne Hw]].
    - apply array_set_lookup_eq.
    - apply array_set_lookup_ne; [exact Hne|]. apply (alive_objects _ _ _ Hal), Hw. }
  assert (Hlen' : (length (array_set (objects b) i v) <= len op)%nat).
  { rewrite length_array_set. pose proof (alive_length _ _ _ Hal). lia. }
  unfold deliver.
  rewrite (alive_failed _ _ _ Hal), (alive_thrown _ _ _ Hal). simpl.
  destruct (decide (i ∈ inflight b)) as [_|]; [|contradiction].
  unfold success_callback. fold v.
  change (result_count (record_item i v (answered i b))) with (S (result_count b)).
  rewrite (alive_count _ _ _ Hal).
  destruct (S (size vals) =? len op)%nat eqn:Hdone.
  - apply Nat.eqb_eq in Hdone. simpl. rewrite (alive_thrown _ _ _ Hal). simpl.
    eexists. split; [reflexivity|].
    assert (Hfull : forall j, (j < len op)%nat -> is_Some (vals' !! j)).
    { apply full_of_size; [intros j Hj; apply (Hcl' j Hj) | lia]. }
    constructor; simpl; auto.
    + apply (alive_failed _ _ _ Hal).
    + apply (alive_thrown _ _ _ Hal).
    + rewrite (alive_count _ _ _ Hal). lia.
    + intros j. rewrite elem_of_difference, elem_of_singleton. split.
      * intros [Hj Hne]. exfalso.
        apply Hfl in Hj as (Hj & Hvj & _).
        destruct (Hfull j Hj) as [w Hw]. unfold vals' in Hw.
        rewrite lookup_insert_ne in Hw by congruence. congruence.
      * intros (Hj & Hvj & _). exfalso.
        destruct (Hfull j Hj) as [w Hw]. fold vals' in Hvj. congruence.
    + rewrite Hdf. simpl.
      destruct (decide (size vals' = len op)); [reflexivity | lia].
  - apply Nat.eqb_neq in Hdone.
    assert (Hdf' : [] = if decide (size vals' = len op)
                        then [Callback (VArr (array_set (objects b) i v))] else []).
    { destruct (decide (size vals' = len op)); [lia | reflexivity]. }
    destruct (i + per_tx op <? len op)%nat eqn:Hnext.
    + apply Nat.ltb_lt in Hnext.
      destruct (Hreq (i + per_tx op)%nat Hnext) as [s Hs].
      unfold send. rewrite Hs. simpl. rewrite (alive_thrown _ _ _ Hal). simpl.
      eexists. split; [reflexivity|].
      constructor; simpl; auto.
      * apply (alive_failed _ _ _ Hal).
      * apply (alive_thrown _ _ _ Hal).
      * rewrite (alive_count _ _ _ Hal). lia.
      * apply (inflight_next op vals b i v); auto.
        intros j. rewrite elem_of_union, elem_of_singleton, elem_of_difference,
          elem_of_singleton. intuition lia.
      * rewrite Hdf. exact Hdf'.
    + apply Nat.ltb_ge in Hnext. simpl. rewrite (alive_thrown _ _ _ Hal). simpl.
      eexists. split; [reflexivity|].
      constructor; simpl; auto.
      * apply (alive_failed _ _ _ Hal).
      * apply (alive_thrown _ _ _ Hal).
      * rewrite (alive_count _ _ _ Hal). lia.
      * apply (inflight_next op vals b i v); auto.
        intros j. rewrite elem_of_difference, elem_of_singleton. intuition lia.
      * rewrite Hdf. exact Hdf'.
Qed.

(** A failed answer to a request in flight ends the transaction with the
    error on the deferred, which had not been called. *)
Lemma alive_failure (op : BatchOp) (vals : gmap nat Val) (b : Batch)
    (i : nat) (e : SQLError) :
  alive op vals b -> i ∈ inflight b ->
  exists b', deliver op (Failure i e) b = Some b' /\
             failed b' = true /\ df b' = [Errback e].
Proof.
  intros Hal Hin.
  destruct (alive_pending op vals b i Hal Hin) as (_ & _ & _ & Hdf).
  unfold deliver.
  rewrite (alive_failed _ _ _ Hal), (alive_thrown _ _ _ Hal). simpl.
  destruct (decide (i ∈ inflight b)); [|contradiction].
  eexists. split; [reflexivity|]. simpl. rewrite Hdf. split; reflexivity.
Qed.

(** The engine only answers requests in flight of a live transaction. *)
Lemma deliver_Some (op : BatchOp) (c : Completion) (b b' : Batch) :
  deliver op c b = Some b' ->
  failed b = false /\
  match c with Success i _ | Failure i _ => i ∈ inflight b end.
Proof.
  unfold deliver. destruct (failed b); [discriminate|].
  destruct (is_Some_b (thrown b)); [discriminate|]. simpl.
  destruct c as [i r | i e]; destruct (decide (i ∈ inflight b));
    try discriminate; auto.
Qed.

Lemma run_failed (op : BatchOp) (answers : list Completion) (b b' : Batch) :
  failed b = true -> run op answers b = Some b' -> answers = [] /\ b' = b.
Proof.
  intros Hfailed. destruct answers as [|c rest]; simpl.
  - intros [= <-]. auto.
  - destruct (deliver op c b) as [b1|] eqn:Hd; [|discriminate].
    apply deliver_Some in Hd as [Hd _]. congruence.
Qed.

Lemma alive_size_le (op : BatchOp) (vals : gmap nat Val) (b : Batch) :
  alive op vals b -> (size vals <= len op)%nat.
Proof.
  intros Hal. rewrite <- (size_dom (D := gset nat)).
  rewrite <- (size_set_seq (C := gset nat) 0 (len op)).
  apply subseteq_size. intros j Hj. apply elem_of_dom in Hj.
  apply elem_of_set_seq. destruct (alive_closed _ _ _ Hal j Hj). lia.
Qed.

(** A run of a live transaction either stays alive, every answer a
    success and each adding its entry, or ends with its first failure. *)
Lemma run_alive (op : BatchOp) :
  well_formed op ->
  forall (answers : list Completion) (vals : gmap nat Val) (b b' : Batch),
    alive op vals b ->
    run op answers b = Some b' ->
    (size vals + length answers <= len op)%nat /\
    ((exists vals', alive op vals' b' /\
        Forall is_success answers /\
        size vals' = (size vals + length answers)%nat /\
        (forall i v, vals' !! i = Some v ->
           vals !! i = Some v \/
           exists r, Success i r ∈ answers /\ v = item op i r)) \/
     (failed b' = true /\
      exists pre i e, answers = pre ++ [Failure i e] /\
                      Forall is_success pre /\ df b' = [Errback e])).
Proof.
  intros Hwf. induction answers as [|c rest IH]; intros vals b b' Hal Hrun.
  - simpl in Hrun. injection Hrun as <-. split.
    + pose proof (alive_size_le op vals b Hal). simpl. lia.
    + left. exists vals. split; [exact Hal|]. split; [constructor|].
      split; [simpl; lia|]. intros i v Hv. left. exact Hv.
  - simpl in Hrun. destruct (deliver op c b) as [b1|] eqn:Hd; [|discriminate].
    pose proof (deliver_Some op c b b1 Hd) as [_ Hin].
    destruct c as [i r | i e].
    + destruct (alive_success op vals b i r Hwf Hal Hin) as (b1' & Hd' & Hal1).
      rewrite Hd in Hd'. injection Hd' as <-.
      destruct (alive_pending op vals b i Hal Hin) as (_ & Hnone & _ & _).
      pose proof (map_size_insert_None i (item op i r) vals Hnone) as Hsz.
      destruct (IH _ b1 b' Hal1 Hrun) as [Hle Hcases]. split.
      * simpl. lia.
      * destruct Hcases as [(vals' & Hal' & Hall & Hsize & Hvals) | (Hf & pre & j & e & -> & Hall & Hdf)].
        -- left. exists vals'. split; [exact Hal'|]. split; [constructor; [exact I | exact Hall]|].
           split; [simpl; lia|].
           intros k v Hk. destruct (Hvals k v Hk) as [Hins | (r' & Hr' & ->)].
           ++ apply lookup_insert_Some in Hins as [[<- <-] | [_ Hold]].
              ** right. exists r. split; [left | reflexivity].
              ** left. exact Hold.
           ++ right. exists r'. split; [right; exact Hr' | reflexivity].
        -- right. split; [exact Hf|]. exists (Success i r :: pre), j, e.
           split; [reflexivity|]. split; [constructor; [exact I | exact Hall] | exact Hdf].
    + destruct (alive_failure op vals b i e Hal Hin) as (b1' & Hd' & Hf & Hdf).
      rewrite Hd in Hd'. injection Hd' as <-.
      destruct (run_failed op rest b1 b' Hf Hrun) as [-> ->].
      destruct (alive_pending op vals b i Hal Hin) as (_ & _ & Hne & _).
      pose proof (alive_size_le op vals b Hal). split.
      * simpl. lia.
      * right. split; [exact Hf|]. exists [], i, e. repeat split; auto.
Qed.

(** A live transaction has nothing in flight exactly when every item has
    its entry. *)
Lemma alive_done_iff (op : BatchOp) (vals : gmap nat Val) (b : Batch) :
  well_formed op -> alive op vals b ->
  inflight b = ∅ <-> size vals = len op.
Proof.
  intros Hwf Hal. split.
  - intros Hempty.
    pose proof (alive_progress op vals b Hwf Hal Hempty) as Hall.
    rewrite <- (size_dom (D := gset nat)).
    rewrite <- (size_set_seq (C := gset nat) 0 (len op)). f_equal.
    apply set_eq. intros j. rewrite elem_of_dom, elem_of_set_seq. split.
    + intros Hj. destruct (alive_closed _ _ _ Hal j Hj). lia.
    + intros Hj. apply Hall. lia.
  - intros Hsize. apply set_eq. intros j. split; [|set_solver].
    intros Hj. destruct (alive_pending op vals b j Hal Hj) as (_ & _ & Hne & _).
    contradiction.
Qed.

(** Once every item has its entry, the array is complete and holds the
    entries, each at its index. *)
Lemma alive_complete (op : BatchOp) (vals : gmap nat Val) (b : Batch) :
  alive op vals b -> size vals = len op ->
  length (objects b) = len op /\
  forall i, (i < len op)%nat ->
    exists v, vals !! i = Some v /\ objects b !! i = Some (Some v).
Proof.
  intros Hal Hsize.
  assert (Hall : forall i, (i < len op)%nat ->
            exists v, vals !! i = Some v /\ objects b !! i = Some (Some v)).
  { intros i Hi. destruct (full_of_size vals (len op)) with (i := i) as [v Hv]; auto.
    - intros j Hj. apply (alive_closed _ _ _ Hal j Hj).
    - exists v. split; [exact Hv | apply (alive_objects _ _ _ Hal), Hv]. }
  split; [|exact Hall].
  pose proof (alive_length _ _ _ Hal) as Hle.
  destruct (len op) as [|n] eqn:Hn; [lia|].
  destruct (Hall n) as (v & _ & Hv); [lia|].
  apply lookup_lt_Some in Hv. lia.
Qed.

(** ** The three operations *)

Section Calls.
Context {B : Base}.

(** A call whose stores are known runs its item loop from the start, and
    the loop can build each of its requests. *)
Lemma call_begin (schema : DatabaseSchema) (c : BatchCall) (op : BatchOp) :
  stores_known schema c ->
  loop_of schema c = Some op ->
  well_formed op /\ call schema c = begin op /\ len op = items c.
Proof.
  destruct c as [store_name objs | table_name ids | keys]; simpl.
  - intros [table Ht]. rewrite Ht. simpl. intros [= <-].
    unfold putObjects. rewrite Ht. repeat split.
    + simpl. unfold RW_REQ_PER_TX. lia.
    + intros i _. eexists. reflexivity.
  - intros [table Ht]. rewrite Ht. simpl. intros [= <-].
    unfold getByIds. rewrite Ht. repeat split.
    + simpl. unfold REQ_PER_TX. lia.
    + intros i _. eexists. reflexivity.
  - intros Hknown [= <-]. repeat split.
    + simpl. unfold REQ_PER_TX. lia.
    + simpl. intros i Hi.
      rewrite Forall_forall in Hknown.
      destruct (Hknown (nth i keys no_key)) as [table Ht].
      { apply list_elem_of_In, nth_In. exact Hi. }
      rewrite Ht. eexists. reflexivity.
Qed.

(** C6, amended.  For each of [putObjects], [getByIds] and [getByKeys] on
    stores the schema has, and every run of the engine: the run has at most as
    many answers as the call has items; the deferred is called at most
    once; it has been called exactly when nothing is left to wait for,
    and until then the engine can answer; a success callback carries a
    complete array and comes only after every item succeeded; and a
    failure puts its error, and nothing else, on the deferred. *)
Theorem batch_resolves_exactly_once (schema : DatabaseSchema) (c : BatchCall)
    (op : BatchOp) (answers : list Completion) (b : Batch) :
  stores_known schema c ->
  loop_of schema c = Some op ->
  run op answers (call schema c) = Some b ->
  (length answers <= items c)%nat /\
  (length (df b) <= 1)%nat /\
  (quiescent b = true <-> length (df b) = 1%nat) /\
  (quiescent b = false ->
     exists i, forall r, is_Some (deliver op (Success i r) b)) /\
  (forall a, Callback a ∈ df b ->
     Forall is_success answers /\ length answers = items c /\
     complete_array (items c) a) /\
  (forall i e, Failure i e ∈ answers -> df b = [Errback e]).
Proof.
  intros Hknown Hloop Hrun.
  destruct (call_begin schema c op Hknown Hloop) as (Hwf & Hcall & Hlen).
  rewrite Hcall in Hrun. rewrite <- Hlen.
  destruct (run_alive op Hwf answers ∅ (begin op) b (alive_begin op Hwf) Hrun)
    as [Hle Hcases].
  rewrite map_size_empty in Hle. simpl in Hle. split; [exact Hle|].
  destruct Hcases as [(vals & Hal & Hall & Hsize & _) | (Hf & pre & j & e & -> & Hall & Hdf)].
  - rewrite map_size_empty in Hsize. simpl in Hsize.
    pose proof (alive_df _ _ _ Hal) as Hdf.
    pose proof (alive_done_iff op vals b Hwf Hal) as Hdone.
    assert (Hq : quiescent b = true <-> size vals = len op).
    { unfold quiescent.
      rewrite (alive_failed _ _ _ Hal), (alive_thrown _ _ _ Hal). simpl.
      rewrite bool_decide_eq_true. exact Hdone. }
    destruct (decide (size vals = len op)) as [Hfull | Hpart]; rewrite Hdf.
    + split; [simpl; lia|]. split; [simpl; tauto|]. split.
      { intros Hnq. apply Hq in Hfull. congruence. }
      split.
      * intros a Ha. apply list_elem_of_singleton in Ha. injection Ha as ->.
        split; [exact Hall|]. split; [lia|].
        destruct (alive_complete op vals b Hal Hfull) as [Hlen' Hslots].
        exists (objects b). split; [reflexivity|]. split; [exact Hlen'|].
        intros i Hi. destruct (Hslots i Hi) as (v & _ & Hv). eauto.
      * intros i e Hin. exfalso.
        rewrite Forall_forall in Hall. apply (Hall _ Hin).
    + split; [simpl; lia|]. split.
      { simpl. split; [intros Hqt; apply Hq in Hqt; contradiction | discriminate]. }
      split.
      * intros _.
        destruct (set_choose_L (inflight b)) as [i Hi].
        { intros Hempty. apply Hdone in Hempty. contradiction. }
        exists i. intros r.
        destruct (alive_success op vals b i r Hwf Hal Hi) as (b' & Hb' & _).
        rewrite Hb'. eauto.
      * split; [intros a Ha; inversion Ha|].
        intros i e Hin. exfalso.
        rewrite Forall_forall in Hall. apply (Hall _ Hin).
  - rewrite Hdf. split; [simpl; lia|].
    assert (Hq : quiescent b = true) by (unfold quiescent; rewrite Hf; reflexivity).
    split; [simpl; tauto|]. split; [congruence|]. split.
    + intros a Ha. apply list_elem_of_singleton in Ha. discriminate.
    + intros i e' Hin. apply elem_of_app in Hin as [Hin | Hin].
      * exfalso. rewrite Forall_forall in Hall. apply (Hall _ Hin).
      * apply list_elem_of_singleton in Hin. injection Hin as _ <-. reflexivity.
Qed.




(** C10, amended.  On an empty array [getByKeys] calls the deferred with
    the empty array at once, whatever the schema; [putObjects] and
    [getByIds] do so when the schema has the store they name, and
    otherwise raise [NotFoundError] for it and leave the deferred alone.
    In every case nothing is handed to the transaction and nothing is in
    flight. *)
Theorem batch_on_empty_array (schema : DatabaseSchema) (name : string) :
  let at_once (b : Batch) :=
    df b = [Callback (VArr [])] /\ issued b = [] /\ inflight b = ∅ /\
    thrown b = None /\ quiescent b = true in
  let refused (b : Batch) :=
    df b = [] /\ issued b = [] /\ inflight b = ∅ /\
    thrown b = Some (NotFoundError name) in
  at_once (getByKeys schema []) /\
  match getStore schema name with
  | Some _ => at_once (putObjects schema name []) /\ at_once (getByIds schema name [])
  | None => refused (putObjects schema name []) /\ refused (getByIds schema name [])
  end.
Proof.
  intros at_once refused. subst at_once refused. cbv beta.
  split; [repeat split|].
  unfold putObjects, getByIds.
  destruct (getStore schema name); repeat split.
Qed.

End Calls.

End BatchFacts.

(* ===================================================================== *)
(** * The properties on the sample data *)
(* ===================================================================== *)

Section OnSamples.
Import Js Schema IterableQuery WebSql Samples.

(** C2 on the samples: of the rows of ids 3, 1 and 3, scanned with
    [stop_at_alice], [continued] and [filter] are both called on the
    first two and on no other, and the scan is that of the first two. *)
Lemma fetch_halts_on_samples :
  exists s,
    fetch_scan users stop_at_alice None None [carol_row; alice_row; carol_row] = Some s /\
    continued_calls (trace s) =
      [(0, parseRow users carol_row); (1, parseRow users alice_row)] /\
    filter_calls (trace s) =
      [(0, parseRow users carol_row); (1, parseRow users alice_row)] /\
    fetch_scan users stop_at_alice None None [carol_row; alice_row] = Some s.
Proof.
  destruct (fetch_halts_when_continued_is_false users stop_at_alice None None
              until_alice [carol_row; alice_row; carol_row] eq_refl)
    as (s & Hs & Hcc & Hfc & _ & _ & _ & Hhalt).
  exists s. split; [exact Hs|]. split.
  - rewrite Hcc. vm_compute. reflexivity.
  - split.
    + rewrite Hfc by (exists until_alice; reflexivity). vm_compute. reflexivity.
    + apply (Hhalt [carol_row] alice_row [carol_row]).
      * reflexivity.
      * vm_compute. reflexivity.
Defined.

(** C9 on the samples: with [skip = 1], the first row consumed by the
    skip and the row of id 1 rejected by the filter, [reduce] is called
    once, on [undefined] and with index 2. *)
Lemma fetch_reduce_on_samples :
  exists s,
    fetch_scan users last_index None (Some 1) [carol_row; alice_row; carol_row] = Some s /\
    folds (fun _ _ i => VPrim (PNum i)) undefined (reduce_calls (trace s)) (result s) /\
    reduce_calls (trace s) = [(undefined, VObj (parseRow users carol_row), 2)] /\
    result s = VPrim (PNum 2).
Proof.
  destruct (fetch_reduce_from_undefined_by_row_position users last_index
              (fun _ _ i => VPrim (PNum i)) None (Some 1)
              [carol_row; alice_row; carol_row] eq_refl) as (_ & _ & Hscan).
  destruct (Hscan eq_refl) as (answer & s & _ & Hs & Hfold & _).
  exists s. split; [exact Hs|]. split; [exact Hfold|].
  vm_compute in Hs. injection Hs as <-.
  vm_compute. split; reflexivity.
Defined.

(** C9, as stated, fails: without filter and continuation predicate,
    with [skip = 1] and [max = 5], [reduce] is called once, for the
    second of the rows selected, and with index 0. *)
Lemma fetch_reduce_index_skips_offset :
  let q := set_filter None last_index in
  let selected := [alice_row; carol_row] in
  reduce_calls <$> (trace <$> fetch_scan users q (Some 5) (Some 1) selected) =
    Some [(undefined, VObj (parseRow users carol_row), 0)] /\
  selected !! 1%nat = Some carol_row /\
  selected !! 0%nat <> Some carol_row.
Proof.
  split; [vm_compute; reflexivity|]. split; [reflexivity|].
  vm_compute. discriminate.
Qed.

(** C10 on the samples: the store "users", which the schema has. *)
Lemma batch_on_empty_array_users :
  df (getByKeys library []) = [Callback (VArr [])] /\
  df (putObjects library "users" []) = [Callback (VArr [])] /\
  issued (putObjects library "users" []) = [] /\
  df (getByIds library "users" []) = [Callback (VArr [])] /\
  issued (getByIds library "users" []) = [].
Proof.
  destruct (batch_on_empty_array library "users") as [Hkeys Hstore].
  simpl in Hstore.
  destruct Hkeys as (Hk & _).
  destruct Hstore as [(Hp & Hpi & _) (Hg & Hgi & _)].
  repeat split; assumption.
Defined.

(** C10, as stated, fails: on the store "orders", which the schema lacks,
    [putObjects] and [getByIds] of the empty array raise [NotFoundError]
    and do not call the deferred. *)
Lemma batch_on_empty_array_missing_store :
  getStore library "orders" = None /\
  thrown (putObjects library "orders" []) = Some (NotFoundError "orders") /\
  df (putObjects library "orders" []) = [] /\
  thrown (getByIds library "orders" []) = Some (NotFoundError "orders") /\
  df (getByIds library "orders" []) = [].
Proof. repeat split. Qed.

(** C6, as stated, fails.  [getByKeys] with a key of "films", which the
    schema lacks, after a key of "users": the call raises
    [NotFoundError], nothing is left to wait for, and neither handler
    was called.  With that key after ten keys of "users": ten statements
    are sent, and the success callback of the first, which is to send
    the eleventh, raises; again nothing is left to wait for and neither
    handler was called. *)
Lemma getByKeys_missing_store_never_resolves :
  let b := call library (GetByKeys [user_key 1; film_key]) in
  let keys := replicate 10 (user_key 1) ++ [film_key] in
  let b' := run (getByKeys_op library keys) [Success 0 (answer [alice_row])]
              (call library (GetByKeys keys)) in
  (thrown b = Some (NotFoundError "films") /\ quiescent b = true /\ df b = []) /\
  (length (issued (call library (GetByKeys keys))) = 10%nat /\
   thrown <$> b' = Some (Some (NotFoundError "films")) /\
   quiescent <$> b' = Some true /\
   df <$> b' = Some []).
Proof. vm_compute. repeat split. Qed.

(** C6 on the samples: the run of [getByIds([5, 1, 3])] has called the
    deferred once and has nothing left to wait for. *)
Lemma batch_resolves_on_samples :
  run (getByIds_op users read_ids) read_answers
    (call library (GetByIds "users" read_ids)) = Some read_final /\
  (length (df read_final) <= 1)%nat /\
  (quiescent read_final = true <-> length (df read_final) = 1%nat).
Proof.
  assert (Hrun : run (getByIds_op users read_ids) read_answers
                   (call library (GetByIds "users" read_ids)) = Some read_final)
    by (vm_compute; reflexivity).
  split; [exact Hrun|].
  destruct (batch_resolves_exactly_once library (GetByIds "users" read_ids)
              (getByIds_op users read_ids) read_answers read_final
              (ex_intro _ users eq_refl) eq_refl Hrun) as (_ & Honce & Hquiet & _).
  split; assumption.
Defined.


(** A query that reduces sees the difference too: with [skip = 1] and
    [max = 5] the index handed to [reduce] counts from the first row the
    statement returned when the offset went into the statement, and from
    the first row selected when a filter keeps it out. *)
Lemma fetch_reduce_index_differs_with_filter :
  let q := set_filter None last_index in
  let q' := set_filter (Some (fun _ => true)) last_index in
  fetch_result users q (Some 5) (Some 1) [alice_row; carol_row] = Some (VPrim (PNum 0)) /\
  fetch_result users q' (Some 5) (Some 1) [alice_row; carol_row] = Some (VPrim (PNum 1)).
Proof. vm_compute. split; reflexivity. Qed.

(** And with a positive skip and no max the two ways part altogether: the
    statement of the query without filter ends in an offset without a
    limit and is rejected, the query with the filter delivers. *)
Lemma fetch_skip_alone_differs_with_filter :
  let q := all_users in
  let q' := set_filter (Some (fun _ => true)) all_users in
  sql (plan users q None (Some 1)) =
    Select users None (Some "id") false None (Some 1) /\
  fetch_result users q None (Some 1) [alice_row; carol_row] = None /\
  fetch_result users q' None (Some 1) [alice_row; carol_row] =
    Some (VArr [Some (VObj (parseRow users carol_row))]).
Proof. vm_compute. repeat split. Qed.

End OnSamples.

(* ===================================================================== *)
(** * Further properties of the query object *)
(* ===================================================================== *)

Section WhereFacts.
Import Js IterableQuery.
Context {H : Host}.

Lemma accepts_processWhereAsFilter (w : Where) (q : Query) (obj : Obj) :
  accepts (processWhereAsFilter w q) obj = accepts q obj && where_test w obj.
Proof.
  unfold accepts, processWhereAsFilter, where_test, where_filter. simpl.
  destruct (filter q) as [f|]; simpl.
  - rewrite <- andb_assoc. reflexivity.
  - reflexivity.
Qed.

(** X1.  Two where conditions installed one after the other make a filter
    that accepts a record exactly when the filter there was before and
    the tests of both conditions accept it; the order in which the two
    are installed does not matter. *)
Theorem where_conditions_compose (w1 w2 : Where) (q : Query) (obj : Obj) :
  accepts (processWhereAsFilter w2 (processWhereAsFilter w1 q)) obj =
    accepts q obj && where_test w1 obj && where_test w2 obj /\
  accepts (processWhereAsFilter w2 (processWhereAsFilter w1 q)) obj =
    accepts (processWhereAsFilter w1 (processWhereAsFilter w2 q)) obj.
Proof.
  rewrite !accepts_processWhereAsFilter. split; [reflexivity|].
  destruct (accepts q obj), (where_test w1 obj), (where_test w2 obj); reflexivity.
Qed.

Lemma compare_undefined (b : Prim) : Js.compare PUndefined b = None.
Proof. destruct b; reflexivity. Qed.

(** X2.  A record that lacks the field of a where condition is rejected
    as soon as the condition has a bound, whatever the previous filter
    says. *)
Theorem where_rejects_missing_field (w : Where) (q : Query) (obj : Obj) :
  isDef (lower w) || isDef (upper w) = true ->
  get obj (field w) = PUndefined ->
  accepts (processWhereAsFilter w q) obj = false.
Proof.
  intros Hbound Hmissing. rewrite accepts_processWhereAsFilter.
  unfold where_test, where_filter, Js.lt, Js.le, Js.gt, Js.ge.
  rewrite Hmissing, !compare_undefined. simpl.
  destruct (isDef (lower w)), (isDef (upper w)); try discriminate;
    destruct (lowerOpen w), (upperOpen w); simpl;
    rewrite ?andb_false_r; reflexivity.
Qed.

(** X3.  For a condition whose two bounds are the same value with the
    same openness, as an equality condition is, the test of the source
    agrees with the range the condition denotes. *)
Theorem where_point_range_agrees (w : Where) (obj : Obj) :
  lower w = upper w ->
  lowerOpen w = upperOpen w ->
  where_test w obj = in_range w (get obj (field w)).
Proof.
  intros Hb Ho. unfold where_test, where_filter, in_range.
  rewrite Hb, Ho. simpl.
  destruct (isDef (upper w)); [|reflexivity].
  destruct (upperOpen w); apply andb_comm.
Qed.

End WhereFacts.

(* ===================================================================== *)
(** * Properties of the stand-in for [localStorage] *)
(* ===================================================================== *)

Section LocalStorageFacts.
Import Js SimpleStorage.

Lemma method_of_name (m : Method) : method_of (method_name m) = Some m.
Proof. destruct m; reflexivity. Qed.

Lemma method_of_Some (k : string) (m : Method) :
  method_of k = Some m -> k = method_name m.
Proof.
  unfold method_of.
  destruct (String.eqb k "setItem") eqn:E1.
  { intros [= <-]. apply String.eqb_eq, E1. }
  destruct (String.eqb k "getItem") eqn:E2.
  { intros [= <-]. apply String.eqb_eq, E2. }
  destruct (String.eqb k "clear") eqn:E3.
  { intros [= <-]. apply String.eqb_eq, E3. }
  discriminate.
Qed.

(** Writing under a name that is neither a method nor ["__proto__"] only
    adds the item. *)
Lemma write_plain (ls : LocalStorage) (k : string) (v : Prim) :
  method_of k = None -> k <> "__proto__" ->
  write ls k v = put_item k v ls.
Proof.
  intros Hm Hp. unfold write. rewrite Hm.
  apply String.eqb_neq in Hp. rewrite Hp. reflexivity.
Qed.

Lemma read_put_item_ne (ls : LocalStorage) (k k' : string) (v : Prim) :
  k <> k' -> read (put_item k v ls) k' = read ls k'.
Proof.
  intros Hne. unfold read. simpl. rewrite lookup_insert_ne by exact Hne.
  reflexivity.
Qed.

Lemma read_put_item_eq (ls : LocalStorage) (k : string) (v : Prim) :
  read (put_item k v ls) k = GotItem v.
Proof. unfold read. simpl. rewrite lookup_insert_eq. reflexivity. Qed.

(** X4.  In a store whose [getItem] works, after [setItem(k, v)] under a
    name that is neither one of the three methods nor ["__proto__"],
    [getItem(k)] gives [v], or [null] when [v] is falsy, and [getItem] of
    every other name gives what it gave before. *)
Theorem setItem_then_getItem (ls ls' : LocalStorage) (k : string) (v : Prim) :
  is_Some (getItem ls k) ->
  method_of k = None ->
  k <> "__proto__" ->
  setItem ls k v = Some ls' ->
  getItem ls' k = Some (GotItem (if truthy v then v else PNull)) /\
  (forall k', k' <> k -> getItem ls' k' = getItem ls k').
Proof.
  intros [g Hg] Hm Hp Hset.
  unfold setItem in Hset.
  destruct (read ls "setItem") as [| [] |]; try discriminate.
  injection Hset as <-. rewrite write_plain by assumption.
  assert (Hne : k <> "getItem").
  { intros ->. discriminate. }
  unfold getItem in *.
  rewrite read_put_item_ne by exact Hne.
  destruct (read ls "getItem") as [| [] |]; try discriminate.
  split.
  - rewrite read_put_item_eq. destruct (truthy v); reflexivity.
  - intros k' Hk'. rewrite read_put_item_ne by congruence. reflexivity.
Qed.

(** X5.  When [clear] returns, the store has no item left and none of its
    three methods: each further call on it is a [TypeError]. *)
Theorem clear_removes_the_methods (ls ls' : LocalStorage) :
  clear ls = Some ls' ->
  items ls' = ∅ /\
  (forall k v, setItem ls' k v = None) /\
  (forall k, getItem ls' k = None) /\
  clear ls' = None.
Proof.
  unfold clear. intros Hclear.
  destruct (read ls "clear") as [| [] |] eqn:Hread; try discriminate.
  assert (Hin : has_clear ls = true).
  { unfold read in Hread. destruct (items ls !! "clear"); [discriminate|].
    simpl in Hread. destruct (has_clear ls); [reflexivity | discriminate]. }
  assert (Hown : has_own_properties ls = true).
  { unfold has_own_properties. rewrite Hin. apply orb_true_r. }
  rewrite Hown in Hclear.
  destruct (read ls "hasOwnProperty"); try discriminate.
  injection Hclear as <-. repeat split.
Qed.

(** X6.  [setItem] under the name of one of the three methods replaces
    that method by the item: the method can no longer be called. *)
Theorem setItem_over_a_method (ls ls' : LocalStorage) (m : Method) (v : Prim) :
  setItem ls (method_name m) v = Some ls' ->
  read ls' (method_name m) = GotItem v /\
  match m with
  | SetItem => forall k v', setItem ls' k v' = None
  | GetItem => forall k, getItem ls' k = None
  | Clear => clear ls' = None
  end.
Proof.
  unfold setItem at 1. intros Hset.
  destruct (read ls "setItem") as [| [] |]; try discriminate.
  injection Hset as <-.
  assert (Hw : write ls (method_name m) v = put_item (method_name m) v (drop_method m ls)).
  { unfold write. rewrite method_of_name. destruct m; reflexivity. }
  rewrite Hw. split; [apply read_put_item_eq|].
  destruct m; intros; unfold setItem, getItem, clear;
    rewrite read_put_item_eq; reflexivity.
Qed.

(** X7.  Once an item is stored under the name ["hasOwnProperty"],
    [clear] can no longer run: its loop calls that item. *)
Theorem clear_fails_after_hasOwnProperty (ls ls' : LocalStorage) (v : Prim) :
  setItem ls "hasOwnProperty" v = Some ls' ->
  clear ls' = None.
Proof.
  unfold setItem. intros Hset.
  destruct (read ls "setItem") as [| [] |]; try discriminate.
  injection Hset as <-.
  rewrite write_plain by (reflexivity || discriminate).
  unfold clear. rewrite read_put_item_ne by discriminate.
  destruct (read ls "clear") as [| [] |]; try reflexivity.
  rewrite read_put_item_eq.
  assert (Hown : has_own_properties (put_item "hasOwnProperty" v ls) = true).
  { unfold has_own_properties. simpl.
    rewrite bool_decide_eq_false_2 by apply insert_non_empty. reflexivity. }
  rewrite Hown. reflexivity.
Qed.

End LocalStorageFacts.

(* ===================================================================== *)
(** * Further properties of row decoding *)
(* ===================================================================== *)

Section MoreParseRowFacts.
Import Js Schema IterableQuery WebSql.
Context {B : Base}.

Lemma parseRow_index_dom (row : Row) (value : Obj) (ix : IndexSchema) :
  dom value ⊆ dom (parseRow_index row value ix).
Proof.
  unfold parseRow_index.
  destruct (String.eqb _ _); [reflexivity|].
  destruct (negb _); [reflexivity|].
  unfold set. rewrite dom_insert. set_solver.
Qed.

Lemma parseRow_loop_dom (row : Row) (ixs : list IndexSchema) (value : Obj) :
  dom value ⊆ dom (fold_left (parseRow_index row) ixs value).
Proof.
  revert value. induction ixs as [|ix ixs IH]; intros value; simpl.
  - reflexivity.
  - etrans; [apply (parseRow_index_dom row value ix) | apply IH].
Qed.

(** X8.  Decoding never loses a field: every field of the serialised
    record is a field of the decoded record. *)
Theorem parseRow_keeps_fields (table : StoreSchema) (row : Row) :
  dom (json_parse (get row DEFAULT_BLOB_COLUMN)) ⊆ dom (parseRow table row).
Proof.
  unfold parseRow. etrans; [|apply parseRow_loop_dom].
  unfold setKey. destruct (keyPath table); [|reflexivity].
  unfold set. rewrite dom_insert. set_solver.
Qed.

(** X9.  For a store with a key path that is not empty, the key that
    [getKeyFromRow] reads off a row is the key [parseRow] puts back under
    the key path, unless an index column of that name overrides it. *)
Theorem getKeyFromRow_is_the_key_put_back (rowid_column : string)
    (table : StoreSchema) (row : Row) (kp : string) :
  keyPath table = Some kp ->
  kp <> "" ->
  ~ from_index table row kp ->
  parseRow table row !! kp = Some (getKeyFromRow rowid_column table row).
Proof.
  intros Hkp Hne Hnot. unfold parseRow, getKeyFromRow.
  rewrite Hkp. apply String.eqb_neq in Hne. rewrite Hne.
  rewrite parseRow_loop_other.
  - unfold setKey, row_key. rewrite Hkp. simpl. unfold set.
    apply lookup_insert_eq.
  - intros ix Hin Heq.
    destruct (decide (kp = DEFAULT_BLOB_COLUMN)) as [|Hblob]; [left; assumption|].
    destruct (isDef (get row kp)) eqn:Hdef; [|right; reflexivity].
    exfalso. apply Hnot. exists ix. repeat split; assumption.
Qed.

End MoreParseRowFacts.

(* ===================================================================== *)
(** * What a fetch returns *)
(* ===================================================================== *)

Section FetchResultFacts.
Import Js Schema IterableQuery WebSql.
Context {B : Base}.

(** One round of the loop, apart from the record of calls. *)
Lemma row_step_spec (store : StoreSchema) (q : Query) (start : Z) (end_ : option Z)
    (i : Z) (row : Row) (s : Scan) :
  let v := parseRow store row in
  let s1 := fst (row_step store q start end_ i row s) in
  idx s1 = (if accepts q v then idx s + 1 else idx s) /\
  result s1 = (if accepts q v && (start <=? idx s + 1)
               then emit store q (result s) (i, row) else result s) /\
  snd (row_step store q start end_ i row s) =
    goes_on q v && match end_ with
                   | None => true
                   | Some e => idx s1 + 1 <? e
                   end.
Proof.
  unfold row_step, accepts, goes_on, emit, mapped. simpl.
  destruct (continued q) as [c|]; (destruct (filter q) as [f|];
    [destruct (f (parseRow store row))|]); simpl;
    try destruct (start <=? idx s + 1); try destruct (map q);
    try destruct (reduce q); simpl; repeat split.
Qed.

Lemma rest_of_nil store q start end_ k res :
  rest_of store q start end_ k [] res = res.
Proof.
  unfold rest_of, cut. rewrite drop_nil.
  destruct end_; rewrite ?take_nil; reflexivity.
Qed.

Lemma rest_of_end store q start e k l res :
  e <= Z.of_nat k ->
  rest_of store q start (Some e) k l res = res.
Proof.
  intros He. unfold rest_of, cut.
  replace (Z.to_nat e - Nat.max k (Z.to_nat start))%nat with 0%nat by lia.
  reflexivity.
Qed.

Lemma rest_of_emit store q start end_ k x l res :
  0 <= start -> start <= Z.of_nat k ->
  (forall e, end_ = Some e -> Z.of_nat k < e) ->
  rest_of store q start end_ k (x :: l) res =
  rest_of store q start end_ (S k) l (emit store q res x).
Proof.
  intros Hs Hk He. unfold rest_of, cut.
  replace (Z.to_nat start - k)%nat with 0%nat by lia.
  replace (Z.to_nat start - S k)%nat with 0%nat by lia.
  replace (Nat.max k (Z.to_nat start)) with k by lia.
  replace (Nat.max (S k) (Z.to_nat start)) with (S k) by lia.
  rewrite !drop_0.
  destruct end_ as [e|]; [|reflexivity].
  specialize (He e eq_refl).
  replace (Z.to_nat e - k)%nat with (S (Z.to_nat e - S k)) by lia.
  reflexivity.
Qed.

Lemma rest_of_skip store q start end_ k x l res :
  Z.of_nat k < start ->
  rest_of store q start end_ k (x :: l) res =
  rest_of store q start end_ (S k) l res.
Proof.
  intros Hk. unfold rest_of.
  replace (Z.to_nat start - k)%nat with (S (Z.to_nat start - S k)) by lia.
  replace (Nat.max k (Z.to_nat start)) with (Nat.max (S k) (Z.to_nat start)) by lia.
  reflexivity.
Qed.

(** The loop, entered with [k] rows accepted so far and before the end,
    folds what is picked from the rows it still has. *)
Lemma row_loop_picks (store : StoreSchema) (q : Query) (start : Z) (end_ : option Z) :
  0 <= start ->
  forall (todo : list Row) (i : Z) (k : nat) (s : Scan),
    idx s = Z.of_nat k - 1 ->
    (forall e, end_ = Some e -> Z.of_nat k < e) ->
    result (row_loop store q start end_ i todo s) =
      rest_of store q start end_ k
        (accepted store q (through store q (numbered i todo))) (result s).
Proof.
  intros Hstart. induction todo as [|row todo IH]; intros i k s Hidx Hend.
  - simpl. rewrite rest_of_nil. reflexivity.
  - cbn [row_loop numbered through].
    destruct (row_step_spec store q start end_ i row s) as (Hi & Hr & Hgo).
    destruct (row_step store q start end_ i row s) as [s1 go].
    cbn [fst snd] in Hi, Hr, Hgo.
    unfold accepted. cbn [List.filter snd].
    fold (accepted store q
            (if goes_on q (parseRow store row)
             then through store q (numbered (i + 1) todo) else [])).
    rewrite Hidx in Hi, Hr.
    replace (Z.of_nat k - 1 + 1) with (Z.of_nat k) in Hi, Hr by lia.
    destruct (accepts q (parseRow store row)) eqn:Hacc.
    + (* the row is accepted: it is row number [k] of the accepted rows *)
      assert (Hres : forall l,
                rest_of store q start end_ k ((i, row) :: l) (result s) =
                rest_of store q start end_ (S k) l (result s1)).
      { intros l. simpl in Hr. destruct (start <=? Z.of_nat k) eqn:Hle.
        - apply Z.leb_le in Hle. rewrite Hr. apply rest_of_emit; assumption.
        - apply Z.leb_gt in Hle. rewrite Hr. apply rest_of_skip; assumption. }
      rewrite Hres.
      assert (Hidx1 : idx s1 = Z.of_nat (S k) - 1) by lia.
      destruct (goes_on q (parseRow store row)); simpl in Hgo.
      * destruct end_ as [e|].
        -- destruct (idx s1 + 1 <? e) eqn:Hlt; subst go.
           ++ apply Z.ltb_lt in Hlt. apply IH; [exact Hidx1|].
              intros e' [= <-]. lia.
           ++ apply Z.ltb_ge in Hlt. rewrite rest_of_end by lia. reflexivity.
        -- subst go. apply IH; [exact Hidx1 | discriminate].
      * subst go. unfold accepted. simpl. rewrite rest_of_nil. reflexivity.
    + (* the row is rejected: nothing changes but the position *)
      simpl in Hr. rewrite <- Hr.
      assert (Hidx1 : idx s1 = Z.of_nat k - 1) by lia.
      destruct (goes_on q (parseRow store row)); simpl in Hgo.
      * assert (Hgo' : go = true).
        { subst go. destruct end_ as [e|]; [|reflexivity].
          apply Z.ltb_lt. specialize (Hend e eq_refl). lia. }
        rewrite Hgo'. apply IH; assumption.
      * subst go. unfold accepted. simpl. rewrite rest_of_nil. reflexivity.
Qed.

Lemma numbered_snd (l : list Row) (i : Z) : snd <$> numbered i l = l.
Proof.
  revert i. induction l as [|row l IH]; intros i; simpl; [reflexivity|].
  rewrite IH. reflexivity.
Qed.

Lemma numbered_drop (n : nat) (l : list Row) (i : Z) :
  drop n (numbered i l) = numbered (i + Z.of_nat n) (drop n l).
Proof.
  revert l i. induction n as [|n IH]; intros l i.
  - rewrite !drop_0. f_equal. lia.
  - destruct l as [|row l]; simpl; [reflexivity|].
    rewrite IH. f_equal. lia.
Qed.

Lemma numbered_take (n : nat) (l : list Row) (i : Z) :
  take n (numbered i l) = numbered i (take n l).
Proof.
  revert l i. induction n as [|n IH]; intros l i; [reflexivity|].
  destruct l as [|row l]; simpl; [reflexivity|]. rewrite IH. reflexivity.
Qed.

(** Without continuation predicate the scan goes through every row. *)
Lemma through_all (store : StoreSchema) (q : Query) (l : list (Z * Row)) :
  continued q = None -> through store q l = l.
Proof.
  intros Hc. induction l as [|x l IH]; simpl; [reflexivity|].
  unfold goes_on. rewrite Hc, IH. reflexivity.
Qed.

(** Without filter and continuation predicate every numbered row is gone
    through and accepted. *)
Lemma accepted_through_all (store : StoreSchema) (q : Query) (l : list (Z * Row)) :
  filter q = None -> continued q = None ->
  accepted store q (through store q l) = l.
Proof.
  intros Hf Hc. rewrite through_all by exact Hc.
  unfold accepted, accepts. rewrite Hf.
  induction l as [|x l IH]; simpl; [reflexivity|].
  f_equal. exact IH.
Qed.

Lemma fold_emit_shift (store : StoreSchema) (q : Query) (d : Z) (l : list Row) :
  forall (i : Z) (res : Val),
    fold_left (fun res x => emit store q res (fst x - d, snd x)) (numbered (i + d) l) res =
    fold_left (emit store q) (numbered i l) res.
Proof.
  induction l as [|row l IH]; intros i res; simpl; [reflexivity|].
  replace (i + d - d) with i by lia.
  replace (i + d + 1) with (i + 1 + d) by lia. apply IH.
Qed.

Lemma fold_emit_same (store : StoreSchema) (q : Query) (l : list (Z * Row)) (res : Val) :
  fold_left (fun res x => emit store q res (fst x, snd x)) l res =
  fold_left (emit store q) l res.
Proof.
  revert res. induction l as [|[i row] l IH]; intros res; simpl; [reflexivity|].
  apply IH.
Qed.

(** A fetch whose statement the engine accepts folds what is picked into
    [undefined] or into a fresh array. *)
Lemma fetch_result_picked (store : StoreSchema) (q : Query) (max skip : option Z)
    (selected : list Row) :
  0 <= default 0 skip ->
  (forall m, max = Some m -> 0 <= m /\ 0 < default 0 skip + m) ->
  fetch_result store q max skip selected =
    if offset_alone (sql (plan store q max skip)) then None
    else Some (fold_left (fun res x => emit store q res (reduce_index q skip x, snd x))
                 (picked store q max skip selected)
                 (if is_Some_b (reduce q) then undefined else VArr [])).
Proof.
  intros Hskip Hmax. set (sk := default 0 skip) in *.
  destruct (execute_rejects store q max skip selected) as [Hrej Hwhen].
  destruct (offset_alone (sql (plan store q max skip))) eqn:Hoff.
  { unfold fetch_result, fetch_scan.
    destruct Hrej as [_ Hrej]. rewrite (Hrej eq_refl). reflexivity. }
  destruct (execute (plan store q max skip) selected) as [answer|] eqn:Hex.
  2:{ destruct Hrej as [Hrej _]. specialize (Hrej eq_refl). discriminate. }
  unfold fetch_result, fetch_scan. rewrite Hex. simpl. f_equal.
  unfold callback, reduce_index, picked. fold sk.
  destruct (negb (is_Some_b (filter q)) && negb (is_Some_b (continued q))) eqn:Hpush.
  - (* offset and limit are in the statement *)
    assert (Hf : filter q = None) by (destruct (filter q); [discriminate | reflexivity]).
    assert (Hc : continued q = None).
    { destruct (continued q); [|reflexivity]. rewrite Hf in Hpush. discriminate. }
    rewrite accepted_through_all by assumption.
    assert (Hstage : is_Some_b (filter q) || is_Some_b (continued q) = false)
      by (rewrite Hf, Hc; reflexivity).
    pose proof (execute_pushdown store q max skip selected answer Hstage Hex) as Hrows.
    fold sk in Hrows.
    assert (Hplan : start (plan store q max skip) = 0 /\
                    end_ (plan store q max skip) = None /\
                    rows answer =
                      match max with
                      | Some m => take (Z.to_nat m) (drop (Z.to_nat sk) selected)
                      | None => drop (Z.to_nat sk) selected
                      end).
    { split; [|split].
      - unfold plan. rewrite Hf, Hc. fold sk. simpl.
        destruct (0 <? sk) eqn:Hlt; [reflexivity | apply Z.ltb_ge in Hlt; lia].
      - unfold plan. rewrite Hf, Hc. reflexivity.
      - rewrite Hrows. unfold slice. destruct max as [m|]; [|reflexivity].
        destruct (Hmax m eq_refl) as [Hm _].
        destruct (m <? 0) eqn:Hneg; [apply Z.ltb_lt in Hneg; lia | reflexivity]. }
    destruct Hplan as (-> & -> & ->).
    rewrite (row_loop_picks store q 0 None (Z.le_refl 0) _ 0 0%nat)
      by (simpl; try discriminate; lia).
    rewrite accepted_through_all by assumption.
    unfold rest_of, cut. simpl. rewrite drop_0.
    rewrite numbered_drop.
    replace (0 + Z.of_nat (Z.to_nat sk)) with (0 + sk) by lia.
    destruct max as [m|]; rewrite ?numbered_take; rewrite fold_emit_shift; reflexivity.
  - (* skip and max are applied by the loop *)
    assert (Hstage : is_Some_b (filter q) || is_Some_b (continued q) = true).
    { destruct (is_Some_b (filter q)), (is_Some_b (continued q)); auto; discriminate. }
    destruct (execute_no_pushdown store q max skip selected Hstage)
      as (Hall & -> & ->). fold sk.
    rewrite Hall in Hex. injection Hex as <-. cbn [rows].
    rewrite (row_loop_picks store q sk _ Hskip _ 0 0%nat).
    + unfold rest_of, cut. simpl. rewrite Nat.sub_0_r, fold_emit_same.
      destruct max as [m|]; simpl; [|reflexivity].
      destruct (Hmax m eq_refl) as [Hm _].
      replace (Z.to_nat (sk + m) - Z.to_nat sk)%nat with (Z.to_nat m) by lia.
      reflexivity.
    + reflexivity.
    + intros e. destruct max as [m|]; simpl; [|discriminate].
      intros [= <-]. destruct (Hmax m eq_refl). simpl. lia.
Qed.

Lemma fold_push (g : Z * Row -> Val) (l : list (Z * Row)) (arr : list (option Val)) :
  fold_left (fun res x => push res (g x)) l (VArr arr) =
  VArr (arr ++ ((fun x => Some (g x)) <$> l)).
Proof.
  revert arr. induction l as [|x l IH]; intros arr; simpl.
  - rewrite app_nil_r. reflexivity.
  - rewrite IH, <- app_assoc. reflexivity.
Qed.

(** X10.  For a query that collects, a skip that is not negative and a
    maximum that is not negative and, with the skip, positive.  When the
    statement ends in an offset without a limit, which is when the query
    has neither filter nor continuation predicate, the skip is positive
    and there is no maximum, the engine rejects it and the deferred gets
    the engine's error.  Otherwise the deferred gets an array that holds,
    in order, the rows selected up to and including the first on which
    [continued] is false, less those the filter rejects, less the first
    [skip] of these, and at most [max] of the rest, each decoded and
    mapped. *)
Theorem fetch_collects_what_is_picked (store : StoreSchema) (q : Query)
    (max skip : option Z) (selected : list Row) (error : SQLError) :
  reduce q = None ->
  0 <= default 0 skip ->
  (forall m, max = Some m -> 0 <= m /\ 0 < default 0 skip + m) ->
  fetch_df store q max skip selected error =
    (if offset_alone (sql (plan store q max skip)) then Errback error
     else Callback (VArr ((fun x => Some (mapped q (parseRow store (snd x)))) <$>
                          picked store q max skip selected))) /\
  offset_alone (sql (plan store q max skip)) =
    negb (is_Some_b (filter q)) && negb (is_Some_b (continued q)) &&
    negb (is_Some_b max) && (0 <? default 0 skip).
Proof.
  intros Hr Hskip Hmax.
  split; [|apply (execute_rejects store q max skip selected)].
  unfold fetch_df. rewrite fetch_result_picked by assumption.
  destruct (offset_alone (sql (plan store q max skip))); [reflexivity|].
  rewrite Hr. simpl. unfold emit. rewrite Hr. simpl.
  rewrite (fold_push (fun x => mapped q (parseRow store (snd x)))). reflexivity.
Qed.

(** X11.  For a query that reduces, under the same conditions.  When the
    statement ends in an offset without a limit the deferred gets the
    engine's error and [reduce] is not called.  Otherwise the deferred
    gets the fold of [reduce] from [undefined] over the same rows, each
    decoded and mapped and given with its number among the selected rows,
    counted from the first row the statement returned. *)
Theorem fetch_reduces_what_is_picked (store : StoreSchema) (q : Query)
    (r : Val -> Val -> Z -> Val) (max skip : option Z) (selected : list Row)
    (error : SQLError) :
  reduce q = Some r ->
  0 <= default 0 skip ->
  (forall m, max = Some m -> 0 <= m /\ 0 < default 0 skip + m) ->
  fetch_df store q max skip selected error =
    (if offset_alone (sql (plan store q max skip)) then Errback error
     else Callback
            (fold_left
               (fun acc x =>
                  r acc (mapped q (parseRow store (snd x))) (reduce_index q skip x))
               (picked store q max skip selected) undefined)) /\
  offset_alone (sql (plan store q max skip)) =
    negb (is_Some_b (filter q)) && negb (is_Some_b (continued q)) &&
    negb (is_Some_b max) && (0 <? default 0 skip).
Proof.
  intros Hr Hskip Hmax.
  split; [|apply (execute_rejects store q max skip selected)].
  unfold fetch_df. rewrite fetch_result_picked by assumption.
  destruct (offset_alone (sql (plan store q max skip))); [reflexivity|].
  rewrite Hr. simpl. unfold emit. rewrite Hr. reflexivity.
Qed.

End FetchResultFacts.

(* ===================================================================== *)
(** * Further properties of the batch operations *)
(* ===================================================================== *)

Section MoreBatchFacts.
Import Js Schema IterableQuery WebSql.
Context {B : Base}.

(** Sending one request puts at most one more in flight. *)
Lemma send_inflight_size (op : BatchOp) (i : nat) (b : Batch) :
  (size (inflight (send op i b)) <= S (size (inflight b)))%nat.
Proof.
  unfold send. destruct (request op i) as [e | s]; simpl; [lia|].
  rewrite size_union_alt, size_singleton.
  assert (Hsub : inflight b ∖ {[i]} ⊆ inflight b).
  { intros j Hj. apply elem_of_difference in Hj. tauto. }
  apply subseteq_size in Hsub. lia.
Qed.

Lemma send_first_inflight_size (op : BatchOp) (l : list nat) (b : Batch) :
  (size (inflight
     (fold_left (fun b i => if is_Some_b (thrown b) then b else send op i b) l b))
   <= size (inflight b) + length l)%nat.
Proof.
  revert b. induction l as [|i l IH]; intros b; simpl; [lia|].
  etrans; [apply IH|].
  destruct (is_Some_b (thrown b)); [lia|].
  pose proof (send_inflight_size op i b). lia.
Qed.

Lemma answered_inflight_size (i : nat) (b : Batch) :
  i ∈ inflight b ->
  S (size (inflight (answered i b))) = size (inflight b).
Proof.
  intros Hin. simpl.
  assert (Heq : inflight b = {[i]} ∪ (inflight b ∖ {[i]})).
  { apply set_eq. intros j.
    rewrite elem_of_union, elem_of_difference, elem_of_singleton.
    destruct (decide (j = i)); subst; tauto. }
  assert (Hsz : size ({[i]} ∪ (inflight b ∖ {[i]})) = S (size (inflight b ∖ {[i]}))).
  { rewrite size_union.
    - rewrite size_singleton. reflexivity.
    - intros j Hj1 Hj2. apply elem_of_difference in Hj2. tauto. }
  rewrite <- Hsz, <- Heq. reflexivity.
Qed.

(** An answer never leaves more requests in flight than there were. *)
Lemma deliver_inflight_size (op : BatchOp) (c : Completion) (b b' : Batch) :
  deliver op c b = Some b' ->
  (size (inflight b') <= size (inflight b))%nat.
Proof.
  unfold deliver. destruct (failed b || is_Some_b (thrown b)); [discriminate|].
  destruct c as [i r | i e]; destruct (decide (i ∈ inflight b)) as [Hin|];
    try discriminate; intros [= <-];
    pose proof (answered_inflight_size i b Hin) as Hans.
  - assert (Hle : (size (inflight (success_callback op i r (answered i b)))
                   <= S (size (inflight (answered i b))))%nat).
    { unfold success_callback.
      destruct (_ =? _)%nat; simpl; [lia|].
      destruct (_ <? _)%nat; [|simpl; lia].
      etrans; [apply send_inflight_size|]. simpl. lia. }
    destruct (is_Some_b _); simpl in *; lia.
  - simpl in *. lia.
Qed.

(** X12.  At no point of a run does a batch operation have more requests
    in flight than its limit: two for [putObjects], ten for [getByIds]
    and [getByKeys]. *)
Theorem batch_in_flight_within_limit (schema : DatabaseSchema) (c : BatchCall)
    (op : BatchOp) (answers : list Completion) (b : Batch) :
  loop_of schema c = Some op ->
  run op answers (begin op) = Some b ->
  (size (inflight b) <=
     match c with PutObjects _ _ => RW_REQ_PER_TX | _ => REQ_PER_TX end)%nat.
Proof.
  intros Hloop Hrun.
  assert (Hlimit : per_tx op =
            match c with PutObjects _ _ => RW_REQ_PER_TX | _ => REQ_PER_TX end).
  { destruct c as [n objs | n ids | keys]; simpl in Hloop.
    - destruct (getStore schema n); simpl in Hloop; [|discriminate].
      injection Hloop as <-. reflexivity.
    - destruct (getStore schema n); simpl in Hloop; [|discriminate].
      injection Hloop as <-. reflexivity.
    - injection Hloop as <-. reflexivity. }
  rewrite <- Hlimit. clear Hlimit Hloop.
  assert (Hbegin : (size (inflight (begin op)) <= per_tx op)%nat).
  { unfold begin. destruct (0 <? len op)%nat.
    - unfold send_first.
      etrans; [apply send_first_inflight_size|].
      change (inflight empty_batch) with (∅ : gset nat).
      rewrite size_empty, length_seq. lia.
    - change (inflight (add_df (Callback (VArr [])) empty_batch)) with (∅ : gset nat).
      rewrite size_empty. lia. }
  revert Hrun Hbegin. generalize (begin op). revert b.
  induction answers as [|a rest IH]; intros b b0 Hrun Hb0; simpl in Hrun.
  - injection Hrun as <-. exact Hb0.
  - destruct (deliver op a b0) as [b1|] eqn:Hd; [|discriminate].
    apply (IH b b1 Hrun).
    pose proof (deliver_inflight_size op a b0 b1 Hd). lia.
Qed.


(** The first requests up to a key whose store is missing. *)
Lemma send_first_stops (op : BatchOp) (e : Exn) :
  forall (k a : nat) (rest : list nat) (b : Batch),
    thrown b = None ->
    (forall i, (a <= i < a + k)%nat -> exists s, request op i = inr s) ->
    request op (a + k)%nat = inl e ->
    let b' := fold_left (fun b i => if is_Some_b (thrown b) then b else send op i b)
                (seq a k ++ (a + k)%nat :: rest) b in
    thrown b' = Some e /\ df b' = df b /\
    length (issued b') = (length (issued b) + k)%nat.
Proof.
  intros k a rest b Hthrown Hok Hbad. rewrite fold_left_app.
  destruct (send_first_loop op k a b Hthrown Hok) as (H1 & _ & _ & _ & H5 & H6 & _).
  set (b1 := fold_left _ (seq a k) b) in *. simpl.
  rewrite H1. simpl.
  assert (Hsend : send op (a + k) b1 = set_thrown e b1)
    by (unfold send; rewrite Hbad; reflexivity).
  rewrite Hsend.
  assert (Hstay : forall l b2, thrown b2 = Some e ->
            fold_left (fun b i => if is_Some_b (thrown b) then b else send op i b) l b2 = b2).
  { induction l as [|i l IH]; intros b2 Hb2; simpl; [reflexivity|].
    rewrite Hb2. simpl. apply IH, Hb2. }
  rewrite Hstay by reflexivity. simpl. auto.
Qed.

(** X14.  When, among the keys [getByKeys] starts with, the first key of
    a store the schema lacks comes after [n] keys of stores it has, the
    call raises [NotFoundError] for that store after handing the [n]
    statements before it to the transaction, and the deferred is never
    called. *)
Theorem getByKeys_missing_store (schema : DatabaseSchema)
    (before : list Key) (k : Key) (after : list Key) :
  (length before < REQ_PER_TX)%nat ->
  Forall (fun k' => is_Some (getStore schema (getStoreName k'))) before ->
  getStore schema (getStoreName k) = None ->
  let b := getByKeys schema (before ++ k :: after) in
  thrown b = Some (NotFoundError (getStoreName k)) /\
  length (issued b) = length before /\
  (forall answers b',
     run (getByKeys_op schema (before ++ k :: after)) answers b = Some b' ->
     df b' = []).
Proof.
  intros Hlen Hknown Hmissing b.
  set (keys := before ++ k :: after). set (op := getByKeys_op schema keys).
  assert (Hn : len op = (length before + S (length after))%nat).
  { unfold op, keys. simpl. rewrite length_app. reflexivity. }
  assert (Hb : thrown b = Some (NotFoundError (getStoreName k)) /\
               df b = [] /\ length (issued b) = length before).
  { subst b. unfold getByKeys, begin. fold keys op.
    assert (Hpos : (0 <? len op)%nat = true) by (apply Nat.ltb_lt; lia).
    rewrite Hpos. unfold send_first.
    assert (Hseq : seq 0 (Nat.min (per_tx op) (len op)) =
                   seq 0 (length before) ++ (0 + length before)%nat ::
                   seq (S (length before)) (Nat.min (per_tx op) (len op) - S (length before))).
    { assert (Hmin : (length before < Nat.min (per_tx op) (len op))%nat).
      { change (per_tx op) with REQ_PER_TX. lia. }
      replace (Nat.min (per_tx op) (len op))
        with (length before + S (Nat.min (per_tx op) (len op) - S (length before)))%nat
        at 1 by lia.
      rewrite seq_app. simpl. reflexivity. }
    rewrite Hseq.
    destruct (send_first_stops op (NotFoundError (getStoreName k)) (length before) 0
                (seq (S (length before)) (Nat.min (per_tx op) (len op) - S (length before)))
                empty_batch eq_refl) as (H1 & H2 & H3).
    - intros i Hi. unfold op. simpl.
      rewrite Forall_forall in Hknown.
      destruct (Hknown (nth i keys no_key)) as [table Ht].
      { unfold keys. rewrite app_nth1 by lia.
        apply list_elem_of_In, nth_In. lia. }
      rewrite Ht. eexists. reflexivity.
    - unfold op. simpl. unfold keys.
      rewrite app_nth2 by lia. rewrite Nat.sub_diag. simpl.
      rewrite Hmissing. reflexivity.
    - auto. }
  destruct Hb as (Hthrown & Hdf & Hissued).
  split; [exact Hthrown|]. split; [exact Hissued|].
  intros answers b' Hrun. destruct answers as [|a rest]; simpl in Hrun.
  - injection Hrun as <-. exact Hdf.
  - unfold deliver in Hrun. rewrite Hthrown in Hrun. simpl in Hrun.
    rewrite orb_true_r in Hrun. discriminate.
Qed.

End MoreBatchFacts.

(* ===================================================================== *)
(** * Properties of [getByStore] and [clearByStore] *)
(* ===================================================================== *)

Section WalkFacts.
Import Js Schema IterableQuery WebSql.
Context {B : Base}.

Section OneWalk.
Context {A : Type}.
Variable schema : DatabaseSchema.
Variable w : Walk A.

(** A success that is not the last one sends the statement of the next
    store. *)
Lemma hear_next (c : Chain A) (j : nat) (r : ResultSet) (t t' : StoreSchema) :
  waiting c = Some j -> escaped c = None -> aborted c = false ->
  table_at schema w j t -> table_at schema w (S j) t' ->
  hear schema w (Fine r) c =
    Some {| acc := absorb w t r (acc c); resolutions := resolutions c;
            sent := sent c ++ [statement w t']; waiting := Some (S j);
            escaped := None; aborted := false |}.
Proof.
  intros Hw He Ha (nm & Hnm & Ht) (nm' & Hnm' & Ht').
  unfold hear. rewrite Ha, He, Hw. simpl.
  unfold walk_success. rewrite Hnm, Ht.
  assert (Hlast : (S j =? length (names w))%nat = false).
  { apply Nat.eqb_neq. apply lookup_lt_Some in Hnm'. lia. }
  rewrite Hlast. unfold visit. simpl. rewrite Hnm', Ht'. simpl.
  unfold abort_if_escaped. simpl. rewrite He, Ha. reflexivity.
Qed.

(** The last success resolves the deferred. *)
Lemma hear_last (c : Chain A) (j : nat) (r : ResultSet) (t : StoreSchema) :
  waiting c = Some j -> escaped c = None -> aborted c = false ->
  table_at schema w j t -> S j = length (names w) ->
  hear schema w (Fine r) c =
    Some {| acc := absorb w t r (acc c);
            resolutions := resolutions c ++ [Resolved (absorb w t r (acc c))];
            sent := sent c; waiting := None; escaped := None; aborted := false |}.
Proof.
  intros Hw He Ha (nm & Hnm & Ht) Hlast.
  unfold hear. rewrite Ha, He, Hw. simpl.
  unfold walk_success. rewrite Hnm, Ht.
  apply Nat.eqb_eq in Hlast. rewrite Hlast.
  unfold abort_if_escaped. simpl. rewrite He, Ha. reflexivity.
Qed.

(** A success followed by a name the schema lacks raises inside the
    callback. *)
Lemma hear_missing (c : Chain A) (j : nat) (r : ResultSet) (t : StoreSchema) (bad : string) :
  waiting c = Some j -> escaped c = None -> aborted c = false ->
  table_at schema w j t ->
  names w !! S j = Some bad -> getStore schema bad = None ->
  hear schema w (Fine r) c =
    Some {| acc := absorb w t r (acc c); resolutions := resolutions c;
            sent := sent c; waiting := None;
            escaped := Some (NotFoundError bad); aborted := true |}.
Proof.
  intros Hw He Ha (nm & Hnm & Ht) Hbad Hnone.
  unfold hear. rewrite Ha, He, Hw. simpl.
  unfold walk_success. rewrite Hnm, Ht.
  assert (Hlast : (S j =? length (names w))%nat = false).
  { apply Nat.eqb_neq. apply lookup_lt_Some in Hbad. lia. }
  rewrite Hlast. unfold visit. simpl. rewrite Hbad, Hnone. reflexivity.
Qed.

Lemma walk_app (l1 l2 : list Answer) (c : Chain A) :
  walk schema w (l1 ++ l2) c =
  match walk schema w l1 c with
  | Some c' => walk schema w l2 c'
  | None => None
  end.
Proof.
  revert c. induction l1 as [|a l1 IH]; intros c; simpl; [reflexivity|].
  destruct (hear schema w a c); [apply IH | reflexivity].
Qed.

(** A transaction that is aborted, or whose callback raised, hears
    nothing more. *)
Lemma walk_dead (c : Chain A) (a : Answer) (more : list Answer) :
  aborted c = true \/ is_Some (escaped c) ->
  walk schema w (a :: more) c = None.
Proof.
  intros Hdead. simpl. unfold hear.
  destruct Hdead as [-> | [e ->]]; simpl; rewrite ?orb_true_r; reflexivity.
Qed.

(** Successes short of the last name: each is taken in, and each sends
    the statement of the next store. *)
Lemma walk_oks (ts : list StoreSchema) :
  (forall i t, ts !! i = Some t -> table_at schema w i t) ->
  forall (rs : list ResultSet) (j : nat) (c : Chain A),
    waiting c = Some j -> escaped c = None -> aborted c = false ->
    (j + length rs < length ts)%nat ->
    walk schema w (Fine <$> rs) c =
      Some {| acc := taken_in w (drop j ts) rs (acc c);
              resolutions := resolutions c;
              sent := sent c ++ (statement w <$> take (length rs) (drop (S j) ts));
              waiting := Some (j + length rs)%nat;
              escaped := None; aborted := false |}.
Proof.
  intros Hts. induction rs as [|r rs IH]; intros j c Hw He Ha Hlen.
  - simpl. unfold taken_in. rewrite zip_with_nil_r. simpl.
    rewrite app_nil_r, Nat.add_0_r.
    destruct c; simpl in *; subst; reflexivity.
  - simpl in Hlen. cbn [fmap list_fmap walk].
    destruct (lookup_lt_is_Some_2 ts j) as [t Ht]; [lia|].
    destruct (lookup_lt_is_Some_2 ts (S j)) as [t' Ht']; [lia|].
    rewrite (hear_next c j r t t' Hw He Ha (Hts j t Ht) (Hts (S j) t' Ht')).
    rewrite (IH (S j)) by (simpl; auto; lia). simpl.
    f_equal. f_equal.
    + unfold taken_in. rewrite (drop_S ts t j Ht). reflexivity.
    + rewrite <- app_assoc. f_equal. rewrite (drop_S ts t' (S j) Ht'). reflexivity.
    + f_equal. lia.
Qed.

Lemma walk_one (a : Answer) (c : Chain A) :
  walk schema w [a] c = hear schema w a c.
Proof. simpl. destruct (hear schema w a c); reflexivity. Qed.

Lemma walk_after (a : Answer) (more : list Answer) (c c' : Chain A) :
  hear schema w a c = Some c' ->
  walk schema w (a :: more) c = walk schema w more c'.
Proof. intros H. simpl. rewrite H. reflexivity. Qed.

Lemma zip_snoc (ts : list StoreSchema) (t : StoreSchema) :
  forall (rs : list ResultSet) (r : ResultSet),
    ts !! length rs = Some t ->
    zip ts (rs ++ [r]) = zip ts rs ++ [(t, r)].
Proof.
  revert t. induction ts as [|t0 ts IH]; intros t rs r Ht.
  - discriminate.
  - destruct rs as [|r0 rs]; simpl in *.
    + injection Ht as ->. destruct ts; reflexivity.
    + f_equal. apply IH. exact Ht.
Qed.

Lemma taken_in_snoc (ts : list StoreSchema) (t : StoreSchema)
    (rs : list ResultSet) (r : ResultSet) (init : A) :
  ts !! length rs = Some t ->
  taken_in w ts (rs ++ [r]) init = absorb w t r (taken_in w ts rs init).
Proof.
  intros Ht. unfold taken_in. rewrite (zip_snoc ts t rs r Ht).
  rewrite fold_left_app. reflexivity.
Qed.

(** The tables of the first names of a walk are the tables at their
    indices. *)
Lemma tables_at (pre rest : list string) (ts : list StoreSchema) :
  names w = pre ++ rest ->
  tables_of schema pre = Some ts ->
  length ts = length pre /\
  forall i t, ts !! i = Some t -> table_at schema w i t.
Proof.
  intros Hnames Hts. apply mapM_Some in Hts.
  split; [symmetry; apply (Forall2_length _ _ _ Hts)|].
  intros i t Hi.
  destruct (Forall2_lookup_r _ _ _ _ _ Hts Hi) as (nm & Hnm & Hget).
  exists nm. split; [|exact Hget].
  rewrite Hnames. apply lookup_app_l_Some, Hnm.
Qed.

Lemma visit_first (init : A) (t : StoreSchema) :
  table_at schema w 0 t ->
  visit schema w 0 (fresh init) =
    {| acc := init; resolutions := []; sent := [statement w t];
       waiting := Some 0%nat; escaped := None; aborted := false |}.
Proof.
  intros (nm & Hnm & Ht). unfold visit. rewrite Hnm, Ht. reflexivity.
Qed.

(** The state of a walk after successes short of the last of the known
    names. *)
Lemma walk_short (pre rest : list string) (ts : list StoreSchema)
    (rs : list ResultSet) (init : A) :
  names w = pre ++ rest ->
  tables_of schema pre = Some ts ->
  (length rs < length ts)%nat ->
  walk schema w (Fine <$> rs) (visit schema w 0 (fresh init)) =
    Some {| acc := taken_in w ts rs init; resolutions := [];
            sent := statement w <$> take (S (length rs)) ts;
            waiting := Some (length rs); escaped := None; aborted := false |}.
Proof.
  intros Hnames Hts Hlen.
  destruct (tables_at pre rest ts Hnames Hts) as [_ Htab].
  destruct ts as [|t0 ts]; [simpl in Hlen; lia|].
  rewrite (visit_first init t0) by (apply Htab; reflexivity).
  rewrite (walk_oks (t0 :: ts) Htab rs 0) by (simpl in *; auto; lia).
  reflexivity.
Qed.

(** A walk over names the schema all has: while answers are still
    due, one statement is waiting, the statements sent are those of the
    stores up to it, in the order of the names, and the deferred is
    untouched; with the last answer the deferred is resolved, once, with
    what was taken in. *)
Lemma walk_all_known (ts : list StoreSchema)
    (rs : list ResultSet) (init : A) :
  tables_of schema (names w) = Some ts ->
  ts <> [] ->
  (length rs <= length ts)%nat ->
  walk schema w (Fine <$> rs) (visit schema w 0 (fresh init)) =
    Some (if decide (length rs = length ts)
          then {| acc := taken_in w ts rs init;
                  resolutions := [Resolved (taken_in w ts rs init)];
                  sent := statement w <$> ts;
                  waiting := None; escaped := None; aborted := false |}
          else {| acc := taken_in w ts rs init; resolutions := [];
                  sent := statement w <$> take (S (length rs)) ts;
                  waiting := Some (length rs);
                  escaped := None; aborted := false |}).
Proof.
  intros Hts Hne Hlen.
  assert (Hnames : names w = names w ++ []) by (rewrite app_nil_r; reflexivity).
  destruct (tables_at (names w) [] ts Hnames Hts) as [Hlens Htab].
  destruct (decide (length rs = length ts)) as [Hall | Hpart].
  - destruct rs as [|r0 rs0] using rev_ind.
    { destruct ts; [contradiction | discriminate]. }
    clear IHrs0. rewrite length_app in Hall. simpl in Hall.
    rewrite fmap_app, walk_app.
    rewrite (walk_short (names w) [] ts rs0 init Hnames Hts) by lia.
    destruct (lookup_lt_is_Some_2 ts (length rs0)) as [t Ht]; [lia|].
    change (Fine <$> [r0]) with [Fine r0]. rewrite walk_one.
    rewrite (hear_last _ (length rs0) r0 t) by (simpl; auto; lia).
    simpl. rewrite (taken_in_snoc ts t rs0 r0 init Ht).
    rewrite take_ge by lia. reflexivity.
  - apply (walk_short (names w) [] ts rs init Hnames Hts). lia.
Qed.

(** A failure answering any statement of a walk puts its error on
    the deferred, which was untouched, and ends the walk: no statement
    is sent for the names that follow, and no further answer is heard. *)
Lemma walk_failure (ts : list StoreSchema)
    (rs : list ResultSet) (e : SQLError) (init : A) :
  tables_of schema (names w) = Some ts ->
  (length rs < length ts)%nat ->
  walk schema w ((Fine <$> rs) ++ [Failed e]) (visit schema w 0 (fresh init)) =
    Some {| acc := taken_in w ts rs init; resolutions := [Rejected e];
            sent := statement w <$> take (S (length rs)) ts;
            waiting := None; escaped := None; aborted := true |} /\
  (forall a more,
     walk schema w ((Fine <$> rs) ++ Failed e :: a :: more)
       (visit schema w 0 (fresh init)) = None).
Proof.
  intros Hts Hlen.
  assert (Hnames : names w = names w ++ []) by (rewrite app_nil_r; reflexivity).
  pose proof (walk_short (names w) [] ts rs init Hnames Hts Hlen) as Hshort.
  split.
  - rewrite walk_app, Hshort. reflexivity.
  - intros a more. rewrite walk_app, Hshort.
    erewrite walk_after by reflexivity.
    apply walk_dead. left. reflexivity.
Qed.

(** When the name after the known names [pre] is of a store the
    schema lacks, the walk runs through [pre]: their statements are sent
    and answered, then [NotFoundError] is raised for the missing store;
    the deferred is never called and nothing more is heard. *)
Lemma walk_missing (pre : list string) (bad : string)
    (post : list string) (ts : list StoreSchema) (rs : list ResultSet) (init : A) :
  names w = pre ++ bad :: post ->
  tables_of schema pre = Some ts ->
  getStore schema bad = None ->
  length rs = length pre ->
  exists c,
    walk schema w (Fine <$> rs) (visit schema w 0 (fresh init)) = Some c /\
    escaped c = Some (NotFoundError bad) /\
    resolutions c = [] /\
    sent c = statement w <$> ts /\
    (forall a more,
       walk schema w ((Fine <$> rs) ++ a :: more) (visit schema w 0 (fresh init)) = None).
Proof.
  intros Hnames Hts Hbad Hlen.
  destruct (tables_at pre (bad :: post) ts Hnames Hts) as [Hlens Htab].
  assert (Hat : names w !! length pre = Some bad).
  { rewrite Hnames. apply list_lookup_middle. reflexivity. }
  destruct rs as [|r0 rs0] using rev_ind.
  - (* the first name is the missing one *)
    simpl in Hlen. assert (Hpre : length pre = 0%nat) by lia.
    rewrite Hpre in Hat.
    assert (Hts0 : ts = []) by (destruct ts; [reflexivity | simpl in Hlens; lia]).
    assert (Hvisit : visit schema w 0 (fresh init) =
              {| acc := init; resolutions := []; sent := []; waiting := None;
                 escaped := Some (NotFoundError bad); aborted := false |}).
    { unfold visit. rewrite Hat, Hbad. reflexivity. }
    rewrite Hvisit. eexists. split; [reflexivity|]. subst ts.
    split; [reflexivity|]. split; [reflexivity|]. split; [reflexivity|].
    intros a more. apply walk_dead. right. simpl. eauto.
  - clear IHrs0. rewrite length_app in Hlen. simpl in Hlen.
    rewrite fmap_app, walk_app.
    rewrite (walk_short pre (bad :: post) ts rs0 init Hnames Hts) by lia.
    destruct (lookup_lt_is_Some_2 ts (length rs0)) as [t Ht]; [lia|].
    replace (length pre) with (S (length rs0)) in Hat by lia.
    pose proof (hear_missing
      {| acc := taken_in w ts rs0 init; resolutions := [];
         sent := statement w <$> take (S (length rs0)) ts;
         waiting := Some (length rs0); escaped := None; aborted := false |}
      (length rs0) r0 t bad eq_refl eq_refl eq_refl (Htab _ _ Ht) Hat Hbad)
      as Hhear.
    change (Fine <$> [r0]) with [Fine r0]. rewrite walk_one, Hhear.
    eexists. split; [reflexivity|]. simpl.
    rewrite take_ge by lia.
    split; [reflexivity|]. split; [reflexivity|]. split; [reflexivity|].
    intros a more. rewrite <- app_assoc, walk_app.
    rewrite (walk_short pre (bad :: post) ts rs0 init Hnames Hts) by lia.
    cbv beta iota.
    change ([Fine r0] ++ a :: more) with (Fine r0 :: a :: more).
    rewrite (walk_after _ _ _ _ Hhear).
    apply walk_dead. left. reflexivity.
Qed.

End OneWalk.

Lemma clearByStore_names_getByStore_names (schema : DatabaseSchema) (arg : StoreArg) :
  clearByStore_names schema arg = getByStore_names schema arg.
Proof. destruct arg as [|n|[|n ns]]; reflexivity. Qed.

Lemma taken_in_getByStore (schema : DatabaseSchema) (arg : StoreArg)
    (ts : list StoreSchema) :
  forall (rs : list ResultSet) (init : list Obj),
    taken_in (getByStore_walk schema arg) ts rs init = init ++ rows_of ts rs.
Proof.
  unfold taken_in, rows_of.
  induction ts as [|t ts IH]; intros rs init; simpl.
  - rewrite app_nil_r. reflexivity.
  - destruct rs as [|r rs]; simpl.
    + rewrite app_nil_r. reflexivity.
    + rewrite IH, app_assoc. reflexivity.
Qed.

Lemma taken_in_clearByStore (schema : DatabaseSchema) (arg : StoreArg)
    (ts : list StoreSchema) (rs : list ResultSet) (init : Cleared) :
  taken_in (clearByStore_walk schema arg) ts rs init = init.
Proof.
  unfold taken_in. generalize (zip ts rs). intros l.
  induction l as [|x l IH]; simpl; [reflexivity | exact IH].
Qed.

Lemma clearByStore_visits (schema : DatabaseSchema) (arg : StoreArg) :
  clearByStore_names schema arg <> [] ->
  clearByStore schema arg =
    visit schema (clearByStore_walk schema arg) 0 (fresh ClearedTrue).
Proof.
  intros Hne. unfold clearByStore.
  destruct (clearByStore_names schema arg); [contradiction | reflexivity].
Qed.

(** X15.  [getByStore] on stores the schema all has reads them one after
    the other, in the order of the names: while answers are due, one
    [SELECT] is waiting, those sent are the ones of the stores up to it
    and the deferred is untouched; with the last answer the deferred is
    resolved, once, with the decoded rows of every store, store after
    store. *)
Theorem getByStore_reads_store_after_store (schema : DatabaseSchema)
    (arg : StoreArg) (ts : list StoreSchema) (rs : list ResultSet) :
  tables_of schema (getByStore_names schema arg) = Some ts ->
  ts <> [] ->
  (length rs <= length ts)%nat ->
  walk schema (getByStore_walk schema arg) (Fine <$> rs) (getByStore schema arg) =
    Some (if decide (length rs = length ts)
          then {| acc := rows_of ts rs;
                  resolutions := [Resolved (rows_of ts rs)];
                  sent := SelectAll <$> ts;
                  waiting := None; escaped := None; aborted := false |}
          else {| acc := rows_of ts rs; resolutions := [];
                  sent := SelectAll <$> take (S (length rs)) ts;
                  waiting := Some (length rs);
                  escaped := None; aborted := false |}).
Proof.
  intros Hts Hne Hlen. unfold getByStore.
  rewrite (walk_all_known schema (getByStore_walk schema arg) ts rs [] Hts Hne Hlen).
  rewrite taken_in_getByStore. reflexivity.
Qed.

(** X16.  [clearByStore] on stores the schema all has sends one [DELETE]
    per store, in the order of the names and each after the one before
    was answered, and resolves the deferred with [true], once, after the
    last answer and not before. *)
Theorem clearByStore_clears_store_after_store (schema : DatabaseSchema)
    (arg : StoreArg) (ts : list StoreSchema) (rs : list ResultSet) :
  tables_of schema (clearByStore_names schema arg) = Some ts ->
  ts <> [] ->
  (length rs <= length ts)%nat ->
  walk schema (clearByStore_walk schema arg) (Fine <$> rs) (clearByStore schema arg) =
    Some (if decide (length rs = length ts)
          then {| acc := ClearedTrue;
                  resolutions := [Resolved ClearedTrue];
                  sent := DeleteAll <$> ts;
                  waiting := None; escaped := None; aborted := false |}
          else {| acc := ClearedTrue; resolutions := [];
                  sent := DeleteAll <$> take (S (length rs)) ts;
                  waiting := Some (length rs);
                  escaped := None; aborted := false |}).
Proof.
  intros Hts Hne Hlen.
  rewrite clearByStore_visits.
  - rewrite (walk_all_known schema (clearByStore_walk schema arg) ts rs
               ClearedTrue Hts Hne Hlen).
    rewrite taken_in_clearByStore. reflexivity.
  - intros Hnil. rewrite Hnil in Hts. injection Hts as <-. contradiction.
Qed.

(** X17.  When the engine fails a [SELECT] of [getByStore], the deferred,
    untouched until then, gets the error and nothing else: the rows read
    from the stores before are not delivered, no [SELECT] is sent for the
    stores after, and no further answer is heard. *)
Theorem getByStore_stops_at_first_failure (schema : DatabaseSchema)
    (arg : StoreArg) (ts : list StoreSchema) (rs : list ResultSet) (e : SQLError) :
  tables_of schema (getByStore_names schema arg) = Some ts ->
  (length rs < length ts)%nat ->
  walk schema (getByStore_walk schema arg) ((Fine <$> rs) ++ [Failed e])
      (getByStore schema arg) =
    Some {| acc := rows_of ts rs; resolutions := [Rejected e];
            sent := SelectAll <$> take (S (length rs)) ts;
            waiting := None; escaped := None; aborted := true |} /\
  (forall a more,
     walk schema (getByStore_walk schema arg) ((Fine <$> rs) ++ Failed e :: a :: more)
       (getByStore schema arg) = None).
Proof.
  intros Hts Hlen. unfold getByStore.
  destruct (walk_failure schema (getByStore_walk schema arg) ts rs e [] Hts Hlen)
    as [Hrun Hdead].
  split; [|exact Hdead].
  rewrite Hrun, taken_in_getByStore. reflexivity.
Qed.

(** X18.  When a name given to [clearByStore] is of no store of the
    schema, the stores named before it are each sent their [DELETE], then
    [NotFoundError] is raised for the missing name inside the callback of
    the last of them: the deferred is never called, neither with a result
    nor with an error, and the transaction hears nothing more. *)
Theorem clearByStore_missing_store (schema : DatabaseSchema) (arg : StoreArg)
    (pre : list string) (bad : string) (post : list string)
    (ts : list StoreSchema) (rs : list ResultSet) :
  clearByStore_names schema arg = pre ++ bad :: post ->
  tables_of schema pre = Some ts ->
  getStore schema bad = None ->
  length rs = length pre ->
  exists c,
    walk schema (clearByStore_walk schema arg) (Fine <$> rs) (clearByStore schema arg)
      = Some c /\
    escaped c = Some (NotFoundError bad) /\
    resolutions c = [] /\
    sent c = DeleteAll <$> ts /\
    (forall a more,
       walk schema (clearByStore_walk schema arg) ((Fine <$> rs) ++ a :: more)
         (clearByStore schema arg) = None).
Proof.
  intros Hnames Hts Hbad Hlen.
  rewrite clearByStore_visits.
  - apply (walk_missing schema (clearByStore_walk schema arg) pre bad post ts rs
             ClearedTrue Hnames Hts Hbad Hlen).
  - rewrite Hnames. destruct pre; discriminate.
Qed.

(** X19.  With no store name to go by (no argument or an empty array, on
    a schema without stores) the two functions part ways: [clearByStore]
    resolves at once, with the empty array, and sends nothing;
    [getByStore] looks up the name [undefined] and raises [NotFoundError],
    so that its deferred is never called. *)
Theorem no_store_names (schema : DatabaseSchema) (arg : StoreArg) :
  getByStore_names schema arg = [] ->
  clearByStore schema arg =
    {| acc := ClearedNothing; resolutions := [Resolved ClearedNothing];
       sent := []; waiting := None; escaped := None; aborted := false |} /\
  getByStore schema arg =
    {| acc := []; resolutions := []; sent := []; waiting := None;
       escaped := Some (NotFoundError "undefined"); aborted := false |} /\
  (forall a more,
     walk schema (getByStore_walk schema arg) (a :: more) (getByStore schema arg)
       = None).
Proof.
  intros Hnil.
  assert (Hget : getByStore schema arg =
            {| acc := []; resolutions := []; sent := []; waiting := None;
               escaped := Some (NotFoundError "undefined"); aborted := false |}).
  { unfold getByStore, visit. simpl. rewrite Hnil. reflexivity. }
  split; [|split].
  - unfold clearByStore.
    rewrite clearByStore_names_getByStore_names, Hnil. reflexivity.
  - exact Hget.
  - intros a more. rewrite Hget. apply walk_dead. right. simpl. eauto.
Qed.

End WalkFacts.

(* ===================================================================== *)
(** * The further properties on the samples *)
(* ===================================================================== *)

Section MoreOnSamples.
Import Js Schema IterableQuery SimpleStorage WebSql Samples.

(** X2 on the samples: the record without "age" does not pass
    [where("age", ">=", 18)]. *)
Lemma where_rejects_ageless :
  accepts (processWhereAsFilter adults all_users) ageless = false.
Proof.
  apply (where_rejects_missing_field adults all_users ageless).
  - reflexivity.
  - vm_compute. reflexivity.
Defined.

(** X3 on the samples: [where("age", "=", 30)] on the record of id 3. *)
Lemma where_point_range_on_carol :
  where_test aged_30 carol = in_range aged_30 (get carol (field aged_30)).
Proof.
  apply (where_point_range_agrees aged_30 carol); reflexivity.
Defined.

(** X4 on the samples: an item written into a new store is read back. *)
Lemma setItem_then_getItem_fresh :
  getItem (write getFakeLocalStorage "users" (PStr "x")) "users"
    = Some (GotItem (PStr "x")) /\
  getItem (write getFakeLocalStorage "users" (PStr "x")) "books"
    = getItem getFakeLocalStorage "books".
Proof.
  destruct (setItem_then_getItem getFakeLocalStorage
              (write getFakeLocalStorage "users" (PStr "x")) "users" (PStr "x"))
    as [Hsame Hother].
  - exists (GotItem PNull). vm_compute. reflexivity.
  - reflexivity.
  - discriminate.
  - reflexivity.
  - split; [exact Hsame|]. apply Hother. discriminate.
Defined.

(** X5 on the samples: [clear] on a new store. *)
Lemma clear_removes_the_methods_fresh :
  getItem
    {| SimpleStorage.items := ∅; has_setItem := false; has_getItem := false;
       has_clear := false; has_proto := true |} "users" = None.
Proof.
  destruct (clear_removes_the_methods getFakeLocalStorage
              {| SimpleStorage.items := ∅; has_setItem := false; has_getItem := false;
                 has_clear := false; has_proto := true |})
    as (_ & _ & Hget & _).
  - vm_compute. reflexivity.
  - apply Hget.
Defined.

(** X6 on the samples: an item named "getItem" in a new store. *)
Lemma setItem_over_getItem :
  getItem (write getFakeLocalStorage "getItem" (PStr "x")) "users" = None.
Proof.
  destruct (setItem_over_a_method getFakeLocalStorage
              (write getFakeLocalStorage "getItem" (PStr "x")) GetItem (PStr "x"))
    as [_ Hcall].
  - reflexivity.
  - apply Hcall.
Defined.

(** X7 on the samples: an item named "hasOwnProperty" in a new store. *)
Lemma clear_fails_after_hasOwnProperty_fresh :
  clear (write getFakeLocalStorage "hasOwnProperty" (PNum 1)) = None.
Proof.
  apply (clear_fails_after_hasOwnProperty getFakeLocalStorage _ (PNum 1)).
  reflexivity.
Defined.

(** X9 on the samples: the key of the row of id 1 in "users". *)
Lemma getKeyFromRow_on_alice :
  parseRow users alice_row !! "id" = Some (getKeyFromRow "_ROWID_" users alice_row).
Proof.
  apply (getKeyFromRow_is_the_key_put_back (B := base) "_ROWID_" users alice_row "id").
  - reflexivity.
  - discriminate.
  - intros (ix & Hin & Hname & _).
    apply elem_of_cons in Hin as [-> | Hin]; [discriminate | inversion Hin].
Defined.

(** X10 on the samples: four rows selected, the third stops the scan and
    is rejected, one skipped, at most one taken; and the query without
    stages, fetched with a skip and no maximum, which the engine rejects. *)
Lemma fetch_collects_on_samples :
  fetch_df users stop_at_alice (Some 1) (Some 1)
    [carol_row; carol_row; alice_row; carol_row] disk_full =
    Callback (VArr [Some (VObj (parseRow users carol_row))]) /\
  fetch_df users all_users None (Some 1) [alice_row; carol_row] disk_full =
    Errback disk_full.
Proof.
  split.
  - destruct (fetch_collects_what_is_picked (B := base) users stop_at_alice
                (Some 1) (Some 1) [carol_row; carol_row; alice_row; carol_row]
                disk_full) as [Hdf _].
    + reflexivity.
    + simpl. lia.
    + intros m Hm. injection Hm as <-. simpl. lia.
    + rewrite Hdf. vm_compute. reflexivity.
  - destruct (fetch_collects_what_is_picked (B := base) users all_users
                None (Some 1) [alice_row; carol_row] disk_full) as [Hdf _].
    + reflexivity.
    + simpl. lia.
    + intros m Hm. discriminate Hm.
    + rewrite Hdf. reflexivity.
Defined.

(** X11 on the samples: the reduce of [last_index] over three rows, the
    first skipped and the second rejected. *)
Lemma fetch_reduces_on_samples :
  fetch_df users last_index None (Some 1) [carol_row; alice_row; carol_row] disk_full =
    Callback (VPrim (PNum 2)).
Proof.
  destruct (fetch_reduces_what_is_picked (B := base) users last_index
              (fun _ _ i => VPrim (PNum i)) None (Some 1)
              [carol_row; alice_row; carol_row] disk_full) as [Hdf _].
  - reflexivity.
  - simpl. lia.
  - intros m Hm. discriminate Hm.
  - rewrite Hdf. vm_compute. reflexivity.
Defined.

(** X12 on the samples: the run of [getByIds([5, 1, 3])]. *)
Lemma batch_in_flight_on_samples :
  (size (inflight read_final) <= REQ_PER_TX)%nat.
Proof.
  apply (batch_in_flight_within_limit (B := base) library (GetByIds "users" read_ids)
           (getByIds_op users read_ids) read_answers read_final).
  - reflexivity.
  - vm_compute. reflexivity.
Defined.


(** X14 on the samples: a key of "films" after a key of "users". *)
Lemma getByKeys_missing_films :
  thrown (getByKeys library ([user_key 1] ++ film_key :: [user_key 3]))
    = Some (NotFoundError "films") /\
  length (issued (getByKeys library ([user_key 1] ++ film_key :: [user_key 3])))
    = 1%nat.
Proof.
  destruct (getByKeys_missing_store (B := base) library [user_key 1] film_key [user_key 3])
    as (Hthrown & Hissued & _).
  - unfold REQ_PER_TX. simpl. lia.
  - repeat constructor. exists users. reflexivity.
  - reflexivity.
  - split; assumption.
Defined.

(** X15 on the samples: [getByStore()] on the two stores. *)
Lemma getByStore_on_shelves :
  walk shelves (getByStore_walk shelves NoStore)
    (Fine <$> [answer [alice_row; carol_row]; answer [carol_row]])
    (getByStore shelves NoStore) =
  Some {| acc := rows_of [users; books] [answer [alice_row; carol_row]; answer [carol_row]];
          resolutions :=
            [Resolved (rows_of [users; books]
                         [answer [alice_row; carol_row]; answer [carol_row]])];
          sent := [SelectAll users; SelectAll books];
          waiting := None; escaped := None; aborted := false |}.
Proof.
  apply (getByStore_reads_store_after_store (B := base) shelves NoStore [users; books]
           [answer [alice_row; carol_row]; answer [carol_row]]).
  - reflexivity.
  - discriminate.
  - simpl. lia.
Defined.

(** X16 on the samples: [clearByStore(["books", "users"])] after the
    first answer. *)
Lemma clearByStore_on_shelves :
  walk shelves (clearByStore_walk shelves (Stores ["books"; "users"]))
    (Fine <$> [answer []]) (clearByStore shelves (Stores ["books"; "users"])) =
  Some {| acc := ClearedTrue; resolutions := [];
          sent := [DeleteAll books; DeleteAll users];
          waiting := Some 1%nat; escaped := None; aborted := false |}.
Proof.
  apply (clearByStore_clears_store_after_store shelves
           (Stores ["books"; "users"]) [books; users] [answer []]).
  - reflexivity.
  - discriminate.
  - simpl. lia.
Defined.

(** X17 on the samples: the second [SELECT] of [getByStore()] fails. *)
Lemma getByStore_fails_on_shelves :
  walk shelves (getByStore_walk shelves NoStore)
    ((Fine <$> [answer [alice_row]]) ++ [Failed disk_full])
    (getByStore shelves NoStore) =
  Some {| acc := rows_of [users; books] [answer [alice_row]];
          resolutions := [Rejected disk_full];
          sent := SelectAll <$> take 2 [users; books];
          waiting := None; escaped := None; aborted := true |}.
Proof.
  destruct (getByStore_stops_at_first_failure (B := base) shelves NoStore [users; books]
              [answer [alice_row]] disk_full) as [Hrun _].
  - reflexivity.
  - simpl. lia.
  - exact Hrun.
Defined.

(** X18 on the samples: [clearByStore(["users", "films", "books"])]. *)
Lemma clearByStore_missing_films :
  exists c,
    walk shelves (clearByStore_walk shelves (Stores ["users"; "films"; "books"]))
      (Fine <$> [answer []])
      (clearByStore shelves (Stores ["users"; "films"; "books"])) = Some c /\
    escaped c = Some (NotFoundError "films") /\
    resolutions c = [] /\
    sent c = [DeleteAll users].
Proof.
  destruct (clearByStore_missing_store shelves
              (Stores ["users"; "films"; "books"]) ["users"] "films" ["books"]
              [users] [answer []])
    as (c & Hrun & Hesc & Hres & Hsent & _).
  - reflexivity.
  - reflexivity.
  - reflexivity.
  - reflexivity.
  - exists c. repeat split; assumption.
Defined.

(** X19 on the samples: a schema without stores. *)
Lemma no_store_names_bare :
  resolutions (clearByStore bare NoStore) = [Resolved ClearedNothing] /\
  escaped (getByStore bare NoStore) = Some (NotFoundError "undefined").
Proof.
  destruct (no_store_names (B := base) bare NoStore) as (Hclear & Hget & _).
  - reflexivity.
  - rewrite Hclear, Hget. split; reflexivity.
Defined.

End MoreOnSamples.
